(** * GameShelf: Steam synchronisation, catalog cache and derived views

    A shallow embedding of [src/services/steamAmplifyService.ts]
    (class [SteamAmplifyService]) and of the catalog client (class
    [GameDatabase]) of the GameShelf front end, with the properties the
    specification states about them.

    Conventions of the embedding:
    - JavaScript numbers that the program only uses as integers (minutes,
      Unix times, identifiers, limits) are [Z];
    - a value that may be [null] or [undefined] is an [option];
    - an ISO date string is identified with the instant it denotes
      (milliseconds since the epoch), so [new Date(s).getTime()] is the
      identity on it; a [Date] holds instants of at most 8.64e15
      milliseconds either side of the epoch, and [toISOString] throws a
      [RangeError] on any other; the [Date] of an unlock time, which is
      only compared, is identified with its milliseconds;
    - [localStorage] is a finite map from keys to decoded JSON documents,
      with one constructor for text that [JSON.parse] rejects; what is
      stored is data that [JSON.stringify] and [JSON.parse] give back
      unchanged, and [setItem] does not run out of room;
    - the outside world (GraphQL gateway, data client, HTTP endpoints,
      clock) is an explicit oracle, and every call made to it is logged. *)

From stdpp Require Import gmap strings list pretty.
From Stdlib Require Import ZArith Lia Sorting.Sorted Permutation.

Open Scope Z_scope.

(** ** JavaScript helpers *)

Module JS.

(** Truthiness of a nullable number: [null], [undefined] and [0] are falsy. *)
Definition truthy_num (v : option Z) : bool :=
  match v with
  | Some n => negb (n =? 0)
  | None => false
  end.

(** Truthiness of a nullable string: [null], [undefined] and [''] are falsy. *)
Definition truthy_str (v : option string) : bool :=
  match v with
  | Some s => negb (String.eqb s "")
  | None => false
  end.

(** Truthiness of a nullable boolean. *)
Definition truthy_bool (v : option bool) : bool :=
  match v with
  | Some b => b
  | None => false
  end.

(** [a || b] on nullable values, by the truthiness test [t]. *)
Definition or_else {A} (t : option A → bool) (a b : option A) : option A :=
  if t a then a else b.

(** [l.slice(0, n)]: a negative [n] counts from the end of the array. *)
Definition slice0 {A} (n : Z) (l : list A) : list A :=
  if n <? 0
  then take (Z.to_nat (Z.max (Z.of_nat (length l) + n) 0)) l
  else take (Z.to_nat n) l.

(** [Math.round(n / 60)] for an integer [n]: the nearest integer, halves
    rounded up. *)
Definition round_div60 (n : Z) : Z := (n + 30) / 60.

(** [l.sort(cmp)]: the sort is stable, and [cmp a b > 0] puts [b] first. *)
Fixpoint insert_by {A} (cmp : A → A → Z) (x : A) (l : list A) : list A :=
  match l with
  | [] => [x]
  | y :: ys => if cmp x y <=? 0 then x :: y :: ys else y :: insert_by cmp x ys
  end.

Definition sort {A} (cmp : A → A → Z) (l : list A) : list A :=
  foldr (insert_by cmp) [] l.

(** The order a comparator induces: [a] may stand before [b]. *)
Definition before {A} (cmp : A → A → Z) (a b : A) : Prop := cmp a b ≤ 0.

(** [v > 0] and [v === 0] on a nullable number. *)
Definition gt0 (v : option Z) : bool :=
  match v with
  | Some n => 0 <? n
  | None => false
  end.

Definition is0 (v : option Z) : bool :=
  match v with
  | Some n => n =? 0
  | None => false
  end.

(** [new Date(v).getTime()] for an ISO string or [null], and
    [new Date(v || 0).getTime()]: [null] is the epoch. (The entries the
    sync writes hold [null], never [undefined], for a missing time.) *)
Definition time_of (v : option Z) : Z := default 0 v.

(** A number inside a template literal. *)
Definition show_num (v : option Z) : string :=
  match v with
  | Some n => pretty n
  | None => "null"
  end.

End JS.

(** ** Data model ([src/types/api.ts]) *)

Inductive GameStatus := playing | finished | paused | dropped | planning.

#[global] Instance GameStatus_eq_dec : EqDecision GameStatus.
Proof. solve_decision. Defined.

(** [SteamGame]: [appId] and [name] are nullable in what the gateway
    really sends, which is why the sync filters on them. *)
Record SteamGame := {
  appId : option Z;
  name : option string;
  playtimeTotal : Z;
  playtimeRecent : Z;
  iconUrl : string;
  logoUrl : string;
  hasStats : bool;
  lastPlayed : option Z
}.

Record SteamAchievement := {
  apiName : string;
  achieved : bool;
  unlockTime : Z;
  ach_name : string;
  ach_description : string
}.

(** [LibraryEntry], with the fields [syncGameLibrary] adds to it (the
    object literal of lines 164-188). Fields that the interface marks
    optional, or that entries from other sources lack, are options. *)
Record LibraryEntry := {
  le_id : string;
  le_userId : string;
  le_gameId : string;
  gameTitle : option string;
  gameCover : option string;
  status : GameStatus;
  rating : option Z;
  notes : string;
  createdAt : Z;
  updatedAt : Z;
  steamPlaytimeTotal : option Z;
  steamPlaytimeRecent : option Z;
  steamLastPlayed : option Z;
  steamSyncDate : Z;
  isFromSteam : bool;
  steamAppId : option Z;
  steamIconUrl : string;
  steamHasStats : bool;
  hoursPlayed : option Z;
  le_appid : option Z;
  le_name : option string;
  le_header_image : option string;
  steamAchievements : option (list SteamAchievement)
}.

(** The loosely typed game object that [getRecentAchievements] reads: a
    library entry or a raw Steam game, under either naming. *)
Record GameView := {
  v_steamHasStats : option bool;
  v_hasStats : option bool;
  v_steamAppId : option Z;
  v_appId : option Z;
  v_gameTitle : option string;
  v_name : option string;
  v_gameCover : option string;
  v_header_image : option string;
  v_logoUrl : option string;
  v_iconUrl : option string
}.

(** An item of the activity feed. *)
Inductive activity_action := act_played | act_finished.

Record Activity := {
  act_id : string;
  action : activity_action;
  act_game : option string;
  act_gameCover : option string;
  timestamp : option Z;
  act_hoursPlayed : option Z;
  recentHours : option Z;
  act_rating : option Z
}.

(** An item of the recent-achievements feed. *)
Record RecentAchievement := {
  ra_id : string;
  ra_game : string;
  ra_gameCover : string;
  achievement : string;
  description : string;
  unlockedAt : Z;
  gameAppId : Z
}.

(** ** Pure helpers of [SteamAmplifyService] *)

(** The status policy, written twice in the source (lines 155-162 and
    460-467) with the same text. *)
Definition sync_status (total recent : Z) : GameStatus :=
  if 0 <? total
  then (if 0 <? recent then playing else paused)
  else planning.

(** [formatPlaytime] (lines 251-264). [Math.floor(minutes / 60)] is [/] on
    [Z] and [%] is the truncating remainder. *)
Definition formatPlaytime (minutes : Z) : string :=
  if minutes =? 0 then "0 minutes"
  else
    let hours := minutes / 60 in
    let remainingMinutes := Z.rem minutes 60 in
    if hours =? 0 then
      pretty remainingMinutes +:+ " minute" +:+ (if negb (remainingMinutes =? 1) then "s" else "")
    else if remainingMinutes =? 0 then
      pretty hours +:+ " hour" +:+ (if negb (hours =? 1) then "s" else "")
    else
      pretty hours +:+ "h " +:+ pretty remainingMinutes +:+ "m".


(** [getRecentActivity] (lines 279-318). *)
Definition is_recently_played (game : LibraryEntry) : bool :=
  bool_decide (is_Some (steamLastPlayed game)) && JS.gt0 (steamPlaytimeRecent game).

Definition is_finished_heuristic (game : LibraryEntry) : bool :=
  JS.gt0 (steamPlaytimeTotal game) && JS.is0 (steamPlaytimeRecent game).

Definition by_last_played (a b : LibraryEntry) : Z :=
  JS.time_of (steamLastPlayed b) - JS.time_of (steamLastPlayed a).

Definition by_timestamp (a b : Activity) : Z :=
  JS.time_of (timestamp b) - JS.time_of (timestamp a).

Definition played_item (game : LibraryEntry) : Activity :=
  {| act_id := "played-" +:+ JS.show_num (steamAppId game);
     action := act_played;
     act_game := gameTitle game;
     act_gameCover := gameCover game;
     timestamp := steamLastPlayed game;
     act_hoursPlayed := hoursPlayed game;
     recentHours := JS.round_div60 <$> steamPlaytimeRecent game;
     act_rating := None |}.

Definition finished_item (game : LibraryEntry) : Activity :=
  {| act_id := "finished-" +:+ JS.show_num (steamAppId game);
     action := act_finished;
     act_game := gameTitle game;
     act_gameCover := gameCover game;
     timestamp := steamLastPlayed game;
     act_hoursPlayed := hoursPlayed game;
     recentHours := None;
     act_rating := rating game |}.

Definition recentlyPlayed (steamGames : list LibraryEntry) : list Activity :=
  map played_item
      (JS.slice0 5 (JS.sort by_last_played (List.filter is_recently_played steamGames))).

Definition finishedGames (steamGames : list LibraryEntry) : list Activity :=
  map finished_item
      (JS.slice0 3 (JS.sort by_last_played (List.filter is_finished_heuristic steamGames))).

Definition getRecentActivity (steamGames : list LibraryEntry) : list Activity :=
  if (length steamGames =? 0)%nat then []
  else JS.slice0 10 (JS.sort by_timestamp (recentlyPlayed steamGames ++ finishedGames steamGames)).

(** ** The world outside the program *)

Module World.

(** A catalog record as the store API returns it and as the client keeps
    it ([GameDatabaseEntry]). *)
Record PriceOverview := {
  currency : string;
  initial : Z;
  final : Z;
  discount_percent : Z;
  initial_formatted : string;
  final_formatted : string
}.

Record Platforms := { windows : bool; mac : bool; linux : bool }.

Record PlayerCount := { current : Z; peak_24h : Z; all_time_peak : Z }.

Record GameDatabaseEntry := {
  appid : Z;
  gd_name : string;
  header_image : string;
  capsule_image : string;
  short_description : string;
  genres : list string;
  developers : list string;
  publishers : list string;
  release_date : string;
  price_overview : option PriceOverview;
  metacritic_score : option Z;
  is_free : bool;
  platforms : Platforms;
  categories : list string;
  screenshots : list string;
  last_updated : Z;
  player_count : PlayerCount
}.

(** What [cacheData] is given and what the catalog operations return:
    one game (detail), a list of games (trending, genre) or a search
    result [{games, total, page, limit}]. The operations hand a cached
    document back as they find it, whatever its shape, so the lists hold
    documents too. All of them are truthy. *)
#[warnings="-register-all"]
Inductive payload :=
| PGame (g : GameDatabaseEntry)
| PGames (games : list payload)
| PSearch (games : list payload) (total page limit : Z).

(** A [localStorage] value, decoded. [ICached] is the envelope
    [{data, timestamp}] of [cacheData]; [IMalformed] is text that
    [JSON.parse] rejects. *)
Inductive item :=
| ICached (data : payload) (timestamp : Z)
| ISteamGames (games : list SteamGame)
| ILibraryEntries (entries : list LibraryEntry)
| IMalformed (text : string).

(** Upstream shapes. *)
Record Rank := {
  rk_appid : Z;
  rk_name : option string;
  peak_in_game : option Z
}.

Record SteamAppDetails := {
  d_appid : Z;
  d_name : string;
  d_header_image : string;
  d_capsule_image : string;
  d_short_description : string;
  d_genres : option (list string);
  d_developers : option (list string);
  d_publishers : option (list string);
  d_release_date : option string;
  d_price_overview : option PriceOverview;
  d_metacritic : option Z;
  d_is_free : bool;
  d_platforms : option Platforms;
  d_categories : option (list string);
  d_screenshots : option (list string)
}.

(** The loosely typed game object that [enrichGameData] receives. *)
Record RawGame := {
  r_appid : Z;
  r_name : option string;
  r_header_image : option string;
  r_capsule_image : option string;
  r_short_description : option string;
  r_genres : option (list string);
  r_developers : option (list string);
  r_publishers : option (list string);
  r_release_date : option string;
  r_price_overview : option PriceOverview;
  r_metacritic_score : option Z;
  r_is_free : option bool;
  r_platforms : option Platforms;
  r_categories : option (list string);
  r_screenshots : option (list string);
  r_current_players : option Z;
  r_peak_players_24h : option Z;
  r_all_time_peak : option Z
}.

Record SearchBody := { items : list RawGame; total : Z }.

(** The outcome of [fetch] followed by [response.json()]. *)
Inductive http (A : Type) :=
| NetworkError
| HttpStatus (code : Z)
| InvalidJson
| Body (a : A).
Arguments NetworkError {A}.
Arguments HttpStatus {A} code.
Arguments InvalidJson {A}.
Arguments Body {A} a.

(** The answer of the gateway to [getSteamAchievements]. *)
Inductive ach_response :=
| AchRejected
| AchNoData
| AchNoList
| AchList (l : list SteamAchievement).

(** Input of [dataClient.models.Game.create]. *)
Record GameInput := {
  gi_id : string;
  gi_title : option string;
  gi_steamAppId : option Z;
  gi_steamIconUrl : string;
  gi_steamLogoUrl : string;
  gi_steamHasStats : bool
}.

(** Input of [dataClient.models.LibraryEntry.create]. *)
Record EntryInput := {
  ei_userId : string;
  ei_gameId : string;
  ei_status : GameStatus;
  ei_gameTitle : option string;
  ei_gameCover : string;
  ei_steamPlaytimeTotal : Z;
  ei_steamPlaytimeRecent : Z;
  ei_steamLastPlayed : option Z
}.

(** Every call that leaves the program. *)
Inductive call :=
| GqlSyncSteamLibrary (steamId : string)
| GqlGetSteamAchievements (steamId : string) (appId : Z)
| DataClientInit
| GameCreate (g : GameInput)
| LibraryEntryCreate (e : EntryInput)
| HttpMostPlayed
| HttpAppDetails (appId : Z)
| HttpStoreSearch (term : string) (count : Z).

(** [window.dispatchEvent]. *)
Inductive event :=
| steamLibrarySynced (userId : string) (gameCount : nat).

(** The environment answers every call. In [gql_syncSteamLibrary],
    [None] is a rejected call (or a null response), [Some None] a
    response whose [games] is null or not an array. [mock_player_count]
    stands for the [Math.random] draws of [transformSteamAppDetails];
    [latency] is the time a call takes. *)
Record env := {
  gql_syncSteamLibrary : string → option (option (list SteamGame));
  gql_getSteamAchievements : string → Z → ach_response;
  data_client_init : bool;
  data_game_create : GameInput → bool;
  data_entry_create : EntryInput → bool;
  http_most_played : http (option (list Rank));
  http_app_details : Z → http (option SteamAppDetails);
  http_store_search : string → Z → http (option SearchBody);
  mock_player_count : Z → PlayerCount;
  latency : call → Z
}.

(** The state the program reads and writes. [localStorage.setItem] is
    taken to succeed (no quota). *)
Record world := {
  storage : gmap string item;
  clock : Z;
  calls : list call;
  events : list event
}.

Inductive result (A : Type) :=
| Ok (a : A)
| Throw (msg : string).
Arguments Ok {A} a.
Arguments Throw {A} msg.

(** Computations: state passing with exceptions. The state survives a
    throw, as in JavaScript. *)
Definition M (A : Type) : Type := world → result A * world.

Definition ret {A} (a : A) : M A := λ w, (Ok a, w).

Definition bind {A B} (m : M A) (k : A → M B) : M B :=
  λ w, match m w with
       | (Ok a, w') => k a w'
       | (Throw e, w') => (Throw e, w')
       end.

Definition throw {A} (msg : string) : M A := λ w, (Throw msg, w).

Definition try_catch {A} (body : M A) (handler : string → M A) : M A :=
  λ w, match body w with
       | (Ok a, w') => (Ok a, w')
       | (Throw e, w') => handler e w'
       end.

Definition Date_now : M Z := λ w, (Ok (clock w), w).

Definition getItem (key : string) : M (option item) :=
  λ w, (Ok (storage w !! key), w).

Definition setItem (key : string) (v : item) : M unit :=
  λ w, (Ok (), {| storage := <[key := v]> (storage w); clock := clock w;
                  calls := calls w; events := events w |}).

Definition removeItem (key : string) : M unit :=
  λ w, (Ok (), {| storage := delete key (storage w); clock := clock w;
                  calls := calls w; events := events w |}).

Definition dispatchEvent (e : event) : M unit :=
  λ w, (Ok (), {| storage := storage w; clock := clock w;
                  calls := calls w; events := events w ++ [e] |}).

(** An awaited call: it is logged and the clock moves on. *)
Definition perform (E : env) (c : call) : M unit :=
  λ w, (Ok (), {| storage := storage w;
                  clock := clock w + Z.max 0 (latency E c);
                  calls := calls w ++ [c]; events := events w |}).

End World.

Export World.

#[global] Instance M_ret : MRet M := @ret.
#[global] Instance M_bind : MBind M := λ A B k m, bind m k.

(** Running a computation: its outcome and the world it leaves. *)
Definition outcome {A} (m : M A) (w : world) : result A := fst (m w).
Definition after {A} (m : M A) (w : world) : world := snd (m w).

(** The list a computation returns, empty when it throws. *)
Definition outcome_value {A} (m : M (list A)) (w : world) : list A :=
  match outcome m w with
  | Ok l => l
  | Throw _ => []
  end.

(** A value computed without touching the world, or the exception its
    computation raised. *)
Definition lift {A} (r : result A) : M A := λ w, (r, w).

(** [Array.prototype.map] with a callback that may throw: the elements
    are mapped in order and the first exception ends the mapping. *)
Fixpoint map_result {A B} (f : A → result B) (l : list A) : result (list B) :=
  match l with
  | [] => Ok []
  | x :: rest =>
      match f x with
      | Ok y =>
          match map_result f rest with
          | Ok ys => Ok (y :: ys)
          | Throw e => Throw e
          end
      | Throw e => Throw e
      end
  end.

(** ** Library sync ([SteamAmplifyService]) *)

Module Sync.
Section WithEnv.

Variable E : env.

Definition steam_games_key (userId : string) : string :=
  "gameshelf-steam-games-" +:+ userId.

Definition library_entries_key (userId : string) : string :=
  "gameshelf-library-entries-" +:+ userId.

(** The largest time value of a [Date], in milliseconds. *)
Definition MAX_TIME_VALUE : Z := 8640000000000000.

(** [new Date(ms).toISOString()]: beyond the range of [Date] the date is
    invalid and [toISOString] throws. *)
Definition toISOString (ms : Z) : result Z :=
  if Z.abs ms <=? MAX_TIME_VALUE then Ok ms
  else Throw "RangeError: Invalid time value".

(** [game.lastPlayed ? new Date(game.lastPlayed * 1000).toISOString() : null] *)
Definition iso_of_lastPlayed (v : option Z) : result (option Z) :=
  match v with
  | Some t =>
      if JS.truthy_num (Some t) then
        match toISOString (t * 1000) with
        | Ok iso => Ok (Some iso)
        | Throw e => Throw e
        end
      else Ok None
  | None => Ok None
  end.

(** The filter of line 139: [game.appId && game.name]. *)
Definition is_valid_game (game : SteamGame) : bool :=
  JS.truthy_num (appId game) && JS.truthy_str (name game).

(** The object the callback of [validGames.map] returns (lines
    164-188), [iso] being the last-played date once converted; [now] is
    what [new Date()] reads. *)
Definition library_entry_with (iso : option Z) (userId : string) (now : Z)
    (steamGame : SteamGame) : LibraryEntry :=
  {| le_id := "steam-" +:+ JS.show_num (appId steamGame);
     le_userId := userId;
     le_gameId := "steam-game-" +:+ JS.show_num (appId steamGame);
     gameTitle := name steamGame;
     gameCover := Some (logoUrl steamGame);
     status := sync_status (playtimeTotal steamGame) (playtimeRecent steamGame);
     rating := None;
     notes := "";
     createdAt := now;
     updatedAt := now;
     steamPlaytimeTotal := Some (playtimeTotal steamGame);
     steamPlaytimeRecent := Some (playtimeRecent steamGame);
     steamLastPlayed := iso;
     steamSyncDate := now;
     isFromSteam := true;
     steamAppId := appId steamGame;
     steamIconUrl := iconUrl steamGame;
     steamHasStats := hasStats steamGame;
     hoursPlayed := Some (JS.round_div60 (playtimeTotal steamGame));
     le_appid := appId steamGame;
     le_name := name steamGame;
     le_header_image := Some (logoUrl steamGame);
     steamAchievements := None |}.

(** The callback of [validGames.map] (lines 154-189): it throws when the
    conversion of the date does. *)
Definition library_entry_of (userId : string) (now : Z) (steamGame : SteamGame)
  : result LibraryEntry :=
  match iso_of_lastPlayed (lastPlayed steamGame) with
  | Ok iso => Ok (library_entry_with iso userId now steamGame)
  | Throw e => Throw e
  end.

Definition game_input_of (game : SteamGame) : GameInput :=
  {| gi_id := "steam-game-" +:+ JS.show_num (appId game);
     gi_title := name game;
     gi_steamAppId := appId game;
     gi_steamIconUrl := iconUrl game;
     gi_steamLogoUrl := logoUrl game;
     gi_steamHasStats := hasStats game |}.

(** [game.logoUrl || game.iconUrl] *)
Definition cover_of (game : SteamGame) : string :=
  if String.eqb (logoUrl game) "" then iconUrl game else logoUrl game.

(** The argument of [LibraryEntry.create] (lines 469-479), [iso] being
    the last-played date once converted. *)
Definition entry_input_with (iso : option Z) (userId : string) (game : SteamGame)
  : EntryInput :=
  {| ei_userId := userId;
     ei_gameId := "steam-game-" +:+ JS.show_num (appId game);
     ei_status := sync_status (playtimeTotal game) (playtimeRecent game);
     ei_gameTitle := name game;
     ei_gameCover := cover_of game;
     ei_steamPlaytimeTotal := playtimeTotal game;
     ei_steamPlaytimeRecent := playtimeRecent game;
     ei_steamLastPlayed := iso |}.

(** Building that argument throws when the conversion of the date does. *)
Definition entry_input_of (userId : string) (game : SteamGame) : result EntryInput :=
  match iso_of_lastPlayed (lastPlayed game) with
  | Ok iso => Ok (entry_input_with iso userId game)
  | Throw e => Throw e
  end.

(** A call to the data client: logged, and it throws when the
    environment says so. *)
Definition data_call (c : call) (ok : bool) : M unit :=
  perform E c;;
  if ok then mret () else throw "data client error".

(** The body of the [for] loop of [storeGamesInDatabase]: the inner
    [try]/[catch] logs the error and goes on. The argument of
    [LibraryEntry.create] is built after [Game.create] has returned, so
    a date that cannot be converted skips the second request. *)
Definition store_one_game (userId : string) (game : SteamGame) : M unit :=
  try_catch
    (data_call (GameCreate (game_input_of game))
               (data_game_create E (game_input_of game));;
     input ← lift (entry_input_of userId game);
     data_call (LibraryEntryCreate input) (data_entry_create E input))
    (λ _, mret ()).

Fixpoint store_games_loop (userId : string) (games : list SteamGame) : M unit :=
  match games with
  | [] => mret ()
  | game :: rest => store_one_game userId game;; store_games_loop userId rest
  end.

(** [storeGamesInDatabase] (lines 440-488). *)
Definition storeGamesInDatabase (games : list SteamGame) (userId : string) : M unit :=
  try_catch
    (data_call DataClientInit (data_client_init E);;
     store_games_loop userId games)
    (λ error, throw error).

Definition write_empty_collections (userId : string) : M unit :=
  setItem (steam_games_key userId) (ISteamGames []);;
  setItem (library_entries_key userId) (ILibraryEntries []).

(** [syncGameLibrary] (lines 122-202). *)
Definition syncGameLibrary (userId steamId : string) : M unit :=
  try_catch
    (perform E (GqlSyncSteamLibrary steamId);;
     match gql_syncSteamLibrary E steamId with
     | None => throw "graphql error"
     | Some None => write_empty_collections userId
     | Some (Some games) =>
         let validGames := List.filter is_valid_game games in
         if (length validGames =? 0)%nat then write_empty_collections userId
         else
           setItem (steam_games_key userId) (ISteamGames validGames);;
           storeGamesInDatabase validGames userId;;
           now ← Date_now;
           libraryEntries ← lift (map_result (library_entry_of userId now) validGames);
           setItem (library_entries_key userId) (ILibraryEntries libraryEntries);;
           dispatchEvent (steamLibrarySynced userId (length validGames))
     end)
    (λ error, throw error).

(** [getPlayerAchievements] (lines 66-84): every failure of the call
    becomes [success: false]. *)
Definition getPlayerAchievements (steamId : string) (appId : Z) : M ach_response :=
  perform E (GqlGetSteamAchievements steamId appId);;
  mret (gql_getSteamAchievements E steamId appId).

(** [getRecentAchievements] (lines 323-374). *)
Definition view_hasStats (game : GameView) : bool :=
  JS.truthy_bool (JS.or_else JS.truthy_bool (v_steamHasStats game) (v_hasStats game)).

Definition view_appId (game : GameView) : option Z :=
  JS.or_else JS.truthy_num (v_steamAppId game) (v_appId game).

Definition has_stats_and_id (game : GameView) : bool :=
  view_hasStats game && JS.truthy_num (view_appId game).

Definition gamesWithStats (steamGames : list GameView) : list GameView :=
  JS.slice0 10 (List.filter has_stats_and_id steamGames).

(** [game.gameTitle || game.name || 'Unknown Game'] *)
Definition view_title (game : GameView) : string :=
  default "Unknown Game"
    (JS.or_else JS.truthy_str
       (JS.or_else JS.truthy_str (v_gameTitle game) (v_name game))
       (Some "Unknown Game")).

(** [game.gameCover || game.header_image || game.logoUrl || game.iconUrl || ''] *)
Definition view_cover (game : GameView) : string :=
  default ""
    (JS.or_else JS.truthy_str
       (JS.or_else JS.truthy_str
          (JS.or_else JS.truthy_str
             (JS.or_else JS.truthy_str (v_gameCover game) (v_header_image game))
             (v_logoUrl game))
          (v_iconUrl game))
       (Some "")).

Definition is_unlocked (a : SteamAchievement) : bool :=
  achieved a && (0 <? unlockTime a).

Definition by_unlockTime (a b : SteamAchievement) : Z :=
  unlockTime b - unlockTime a.

Definition by_unlockedAt (a b : RecentAchievement) : Z :=
  unlockedAt b - unlockedAt a.

Definition unlock_item (game : GameView) (appId : Z) (a : SteamAchievement)
  : RecentAchievement :=
  {| ra_id := "achievement-" +:+ pretty appId +:+ "-" +:+ apiName a;
     ra_game := view_title game;
     ra_gameCover := view_cover game;
     achievement := ach_name a;
     description := ach_description a;
     unlockedAt := unlockTime a * 1000;
     gameAppId := appId |}.

Definition recentUnlocks (game : GameView) (appId : Z)
    (achievements : list SteamAchievement) : list RecentAchievement :=
  map (unlock_item game appId)
      (JS.slice0 3 (JS.sort by_unlockTime (List.filter is_unlocked achievements))).

(** The body of the [for] loop, inside its [try]: what this game adds
    to [recentAchievements]. Reading [.achievements] of a response
    without a list throws, and the [catch] of the loop absorbs it. *)
Definition unlocks_of_game (steamId : string) (game : GameView)
  : M (list RecentAchievement) :=
  try_catch
    (if JS.truthy_num (view_appId game) then
       let appId := default 0 (view_appId game) in
       achievementResponse ← getPlayerAchievements steamId appId;
       match achievementResponse with
       | AchList achievements => mret (recentUnlocks game appId achievements)
       | AchNoList => throw "TypeError"
       | AchRejected | AchNoData => mret []
       end
     else mret [])
    (λ _, mret []).

Fixpoint achievements_loop (steamId : string) (games : list GameView)
    (recentAchievements : list RecentAchievement) : M (list RecentAchievement) :=
  match games with
  | [] => mret recentAchievements
  | game :: rest =>
      recentUnlocks ← unlocks_of_game steamId game;
      achievements_loop steamId rest (recentAchievements ++ recentUnlocks)
  end.

Definition getRecentAchievements (steamId : string) (steamGames : list GameView)
  : M (list RecentAchievement) :=
  if (length steamGames =? 0)%nat then mret []
  else
    recentAchievements ← achievements_loop steamId (gamesWithStats steamGames) [];
    mret (JS.slice0 15 (JS.sort by_unlockedAt recentAchievements)).

End WithEnv.
End Sync.

(** ** Catalog client ([GameDatabase]) *)

Module GameDatabase.
Section WithEnv.

Variable E : env.

Definition TRENDING_GAMES : string := "gameshelf-trending-games".
Definition GAME_DETAILS : string := "gameshelf-game-details".
Definition SEARCH_RESULTS : string := "gameshelf-search-results".

Definition TRENDING : Z := 6 * 60 * 60 * 1000.
Definition GAME_DETAILS_DURATION : Z := 24 * 60 * 60 * 1000.
Definition SEARCH : Z := 60 * 60 * 1000.

(** [maxAge] is a number of milliseconds or [Infinity]. *)
Inductive max_age := Millis (ms : Z) | Infinity.

(** [age > maxAge] *)
Definition older_than (age : Z) (maxAge : max_age) : bool :=
  match maxAge with
  | Millis ms => ms <? age
  | Infinity => false
  end.

(** [cacheData] (lines 1386-1395). *)
Definition cacheData (key : string) (data : payload) : M unit :=
  try_catch
    (now ← Date_now;
     setItem key (ICached data now))
    (λ _, mret ()).

(** [JSON.parse(cached)] followed by the reads of [parsed.timestamp] and
    [parsed.data]. A document that is no cache envelope has neither:
    its age is [NaN], which is not greater than any [maxAge], and its
    data is [undefined]. *)
Definition parse_envelope (cached : item) : M (option (payload * Z)) :=
  match cached with
  | ICached data timestamp => mret (Some (data, timestamp))
  | IMalformed _ => throw "SyntaxError"
  | ISteamGames _ | ILibraryEntries _ => mret None
  end.

(** [getCachedData] (lines 1400-1418). *)
Definition getCachedData (key : string) (maxAge : max_age) : M (option payload) :=
  try_catch
    (cached ← getItem key;
     match cached with
     | None => mret None
     | Some text =>
         parsed ← parse_envelope text;
         match parsed with
         | None => mret None
         | Some (data, timestamp) =>
             now ← Date_now;
             let age := now - timestamp in
             if older_than age maxAge then
               removeItem key;;
               mret None
             else mret (Some data)
         end
     end)
    (λ _, mret None).

(** [fetch(url)], the test of [response.ok] and [response.json()]. *)
Definition fetch_json {A} (c : call) (response : http A) : M A :=
  perform E c;;
  match response with
  | NetworkError => throw "Failed to fetch"
  | HttpStatus code => throw ("HTTP error! status: " +:+ pretty code)
  | InvalidJson => throw "SyntaxError"
  | Body data => mret data
  end.

Definition no_platforms : Platforms :=
  {| windows := false; mac := false; linux := false |}.

(** [transformSteamAppDetails] (lines 1327-1351). *)
Definition transformSteamAppDetails (now : Z) (details : SteamAppDetails)
  : GameDatabaseEntry :=
  {| appid := d_appid details;
     gd_name := d_name details;
     header_image := d_header_image details;
     capsule_image := d_capsule_image details;
     short_description := d_short_description details;
     genres := default [] (d_genres details);
     developers := default [] (d_developers details);
     publishers := default [] (d_publishers details);
     release_date := default "" (d_release_date details);
     price_overview := d_price_overview details;
     metacritic_score := d_metacritic details;
     is_free := d_is_free details;
     platforms := default no_platforms (d_platforms details);
     categories := default [] (d_categories details);
     screenshots := default [] (d_screenshots details);
     last_updated := now;
     player_count := mock_player_count E (d_appid details) |}.

(** [transformBasicGameInfo] (lines 1356-1380). *)
Definition transformBasicGameInfo (now : Z) (game : RawGame) : GameDatabaseEntry :=
  {| appid := r_appid game;
     gd_name := default "Unknown Game"
                  (JS.or_else JS.truthy_str (r_name game) (Some "Unknown Game"));
     header_image := default "" (r_header_image game);
     capsule_image := default "" (r_capsule_image game);
     short_description := default "" (r_short_description game);
     genres := default [] (r_genres game);
     developers := default [] (r_developers game);
     publishers := default [] (r_publishers game);
     release_date := default "" (r_release_date game);
     price_overview := r_price_overview game;
     metacritic_score := r_metacritic_score game;
     is_free := default false (r_is_free game);
     platforms := default no_platforms (r_platforms game);
     categories := default [] (r_categories game);
     screenshots := default [] (r_screenshots game);
     last_updated := now;
     player_count := {| current := default 0 (r_current_players game);
                        peak_24h := default 0 (r_peak_players_24h game);
                        all_time_peak := default 0 (r_all_time_peak game) |} |}.

(** [getGameDetails] (lines 1267-1297). *)
Definition getGameDetails (appId : Z) : M (option payload) :=
  let cacheKey := GAME_DETAILS +:+ "-" +:+ pretty appId in
  cached ← getCachedData cacheKey (Millis GAME_DETAILS_DURATION);
  match cached with
  | Some hit => mret (Some hit)
  | None =>
      try_catch
        (data ← fetch_json (HttpAppDetails appId) (http_app_details E appId);
         match data with
         | None => mret None
         | Some details =>
             now ← Date_now;
             let game := PGame (transformSteamAppDetails now details) in
             cacheData cacheKey game;;
             mret (Some game)
         end)
        (λ _, mret None)
  end.

(** [enrichGameData] (lines 1302-1322). *)
Fixpoint enrichGameData (games : list RawGame) : M (list payload) :=
  match games with
  | [] => mret []
  | game :: rest =>
      enriched ←
        try_catch
          (details ← getGameDetails (r_appid game);
           match details with
           | Some d => mret d
           | None => now ← Date_now; mret (PGame (transformBasicGameInfo now game))
           end)
          (λ _, now ← Date_now; mret (PGame (transformBasicGameInfo now game)));
      others ← enrichGameData rest;
      mret (enriched :: others)
  end.

(** The partial entry built from a ranked game (lines 1142-1162). Its
    [last_updated] and [player_count] are dropped here: nothing reads
    them before [transformBasicGameInfo] computes its own. *)
Definition trending_game (game : Rank) : RawGame :=
  {| r_appid := rk_appid game;
     r_name := rk_name game;
     r_header_image :=
       Some ("https://cdn.akamai.steamstatic.com/steam/apps/"
             +:+ pretty (rk_appid game) +:+ "/header.jpg");
     r_capsule_image :=
       Some ("https://cdn.akamai.steamstatic.com/steam/apps/"
             +:+ pretty (rk_appid game) +:+ "/capsule_184x69.jpg");
     r_short_description := Some "";
     r_genres := Some [];
     r_developers := Some [];
     r_publishers := Some [];
     r_release_date := Some "";
     r_price_overview := None;
     r_metacritic_score := None;
     r_is_free := Some false;
     r_platforms := Some {| windows := true; mac := false; linux := false |};
     r_categories := Some [];
     r_screenshots := Some [];
     r_current_players := None;
     r_peak_players_24h := None;
     r_all_time_peak := None |}.

Definition trending_key (limit : Z) : string :=
  TRENDING_GAMES +:+ "-" +:+ pretty limit.

(** The [try] block of [getTrendingGames]. *)
Definition fetch_trending (cacheKey : string) (limit : Z) : M payload :=
  data ← fetch_json HttpMostPlayed (http_most_played E);
  match data with
  | None => throw "Invalid response format from Steam API"
  | Some ranks =>
      let trendingGames := map trending_game (JS.slice0 limit ranks) in
      games ← enrichGameData trendingGames;
      cacheData cacheKey (PGames games);;
      mret (PGames games)
  end.

(** The [catch] block of [getTrendingGames]. *)
Definition stale_or_empty (cacheKey : string) : M payload :=
  cached ← getCachedData cacheKey Infinity;
  match cached with
  | Some hit => mret hit
  | None => mret (PGames [])
  end.

(** [getTrendingGames] (lines 1118-1180). *)
Definition getTrendingGames (limit : Z) (forceRefresh : bool) : M payload :=
  let cacheKey := trending_key limit in
  cached ← (if negb forceRefresh
            then getCachedData cacheKey (Millis TRENDING)
            else mret None);
  match cached with
  | Some hit => mret hit
  | None => try_catch (fetch_trending cacheKey limit) (λ _, stale_or_empty cacheKey)
  end.

Definition search_key (query : string) (limit page : Z) : string :=
  SEARCH_RESULTS +:+ "-" +:+ query +:+ "-" +:+ pretty limit +:+ "-" +:+ pretty page.

(** [searchGames] (lines 1185-1227). *)
Definition searchGames (query : string) (limit page : Z) : M payload :=
  let cacheKey := search_key query limit page in
  cached ← getCachedData cacheKey (Millis SEARCH);
  match cached with
  | Some hit => mret hit
  | None =>
      try_catch
        (data ← fetch_json (HttpStoreSearch query limit) (http_store_search E query limit);
         match data with
         | None => throw "Invalid response format from Steam Store API"
         | Some body =>
             games ← enrichGameData (items body);
             let result := PSearch games (total body) page limit in
             cacheData cacheKey result;;
             mret result
         end)
        (λ _, mret (PSearch [] 0 page limit))
  end.

End WithEnv.
End GameDatabase.

(** ** More of [SteamAmplifyService] *)

Module SteamService.

Definition steam_data_key (userId : string) : string :=
  "gameshelf-steam-data-" +:+ userId.

(** [formatTimeAgo] (lines 379-389), given what [new Date()] reads. *)
Definition time_ago (now date : Z) : string :=
  let diffInSeconds := (now - date) / 1000 in
  if diffInSeconds <? 60 then "Just now"
  else if diffInSeconds <? 3600 then pretty (diffInSeconds / 60) +:+ "m ago"
  else if diffInSeconds <? 86400 then pretty (diffInSeconds / 3600) +:+ "h ago"
  else if diffInSeconds <? 2592000 then pretty (diffInSeconds / 86400) +:+ "d ago"
  else if diffInSeconds <? 31536000 then pretty (diffInSeconds / 2592000) +:+ "mo ago"
  else pretty (diffInSeconds / 31536000) +:+ "y ago".

Definition formatTimeAgo (date : Z) : M string :=
  now ← Date_now;
  mret (time_ago now date).

(** [isSteamProfilePublic] (lines 394-396). *)
Definition isSteamProfilePublic (communityVisibilityState : Z) : bool :=
  communityVisibilityState =? 3.

(** [getPrivacyStatusMessage] (lines 401-412). *)
Definition getPrivacyStatusMessage (communityVisibilityState : Z) : string :=
  if communityVisibilityState =? 1 then "Profile is private - games are not accessible"
  else if communityVisibilityState =? 2 then
    "Profile is friends only - games are not accessible"
  else if communityVisibilityState =? 3 then
    "Profile is public - games should be accessible"
  else "Unknown privacy status".

(** The two assignments of [syncGameAchievements] to the entry found. *)
Definition with_achievements (achievements : option (list SteamAchievement))
    (now : Z) (e : LibraryEntry) : LibraryEntry :=
  {| le_id := le_id e; le_userId := le_userId e; le_gameId := le_gameId e;
     gameTitle := gameTitle e; gameCover := gameCover e; status := status e;
     rating := rating e; notes := notes e; createdAt := createdAt e;
     updatedAt := updatedAt e; steamPlaytimeTotal := steamPlaytimeTotal e;
     steamPlaytimeRecent := steamPlaytimeRecent e;
     steamLastPlayed := steamLastPlayed e; steamSyncDate := now;
     isFromSteam := isFromSteam e; steamAppId := steamAppId e;
     steamIconUrl := steamIconUrl e; steamHasStats := steamHasStats e;
     hoursPlayed := hoursPlayed e; le_appid := le_appid e; le_name := le_name e;
     le_header_image := le_header_image e; steamAchievements := achievements |}.

(** [entries.findIndex(entry => entry.steamAppId === appId)] *)
Definition findIndex_steamAppId (appId : Z) (entries : list LibraryEntry)
  : option (nat * LibraryEntry) :=
  list_find (λ entry, steamAppId entry = Some appId) entries.

(** [syncGameAchievements] (lines 207-232). The answer of the gateway to
    [syncSteamAchievements] is the argument [response]: [None] when the
    call is rejected or brings no data, else the value of [achievements]
    (which may be null); the request itself is neither logged nor timed
    here. A stored list of raw games has no element with a
    [steamAppId]; a stored cache envelope is no array, so [findIndex]
    throws on it; text that is no JSON makes [JSON.parse] throw. *)
Definition syncGameAchievements (response : option (option (list SteamAchievement)))
    (userId steamId : string) (appId : Z) : M unit :=
  try_catch
    (match response with
     | None => throw "graphql error"
     | Some achievements =>
         libraryEntries ← getItem (Sync.library_entries_key userId);
         match libraryEntries with
         | None => mret ()
         | Some (ILibraryEntries entries) =>
             match findIndex_steamAppId appId entries with
             | Some (entryIndex, entry) =>
                 now ← Date_now;
                 setItem (Sync.library_entries_key userId)
                   (ILibraryEntries
                      (<[entryIndex := with_achievements achievements now entry]> entries))
             | None => mret ()
             end
         | Some (ISteamGames _) => mret ()
         | Some (ICached _ _) => throw "TypeError"
         | Some (IMalformed _) => throw "SyntaxError"
         end
     end)
    (λ _, mret ()).

(** [disconnectSteamProfile] (lines 237-246). *)
Definition disconnectSteamProfile (userId : string) : M unit :=
  try_catch
    (removeItem (steam_data_key userId);;
     removeItem (Sync.steam_games_key userId);;
     removeItem (Sync.library_entries_key userId))
    (λ error, throw error).

End SteamService.

(** ** More of [GameDatabase] *)

Module GameDatabaseGenre.
Section WithEnv.

Variable E : env.

Definition GENRE_GAMES : string := "gameshelf-genre-games".

Definition GENRE : Z := 12 * 60 * 60 * 1000.

Definition genre_key (genre : string) (limit : Z) : string :=
  GENRE_GAMES +:+ "-" +:+ genre +:+ "-" +:+ pretty limit.

(** [getGamesByGenre] (lines 1232-1262): the genre is the search term. *)
Definition getGamesByGenre (genre : string) (limit : Z) : M payload :=
  let cacheKey := genre_key genre limit in
  cached ← GameDatabase.getCachedData cacheKey (GameDatabase.Millis GENRE);
  match cached with
  | Some hit => mret hit
  | None =>
      try_catch
        (data ← GameDatabase.fetch_json E (HttpStoreSearch genre limit)
                  (http_store_search E genre limit);
         match data with
         | None => throw "Invalid response format from Steam Store API"
         | Some body =>
             games ← GameDatabase.enrichGameData E (items body);
             GameDatabase.cacheData cacheKey (PGames games);;
             mret (PGames games)
         end)
        (λ _, mret (PGames []))
  end.

End WithEnv.
End GameDatabaseGenre.

(** ** Session state ([AuthService]) *)

Module AuthService.

(** [User] (lines 559-572). *)
Record User := {
  u_id : string;
  u_email : string;
  u_userHandle : string;
  u_avatarUrl : option string;
  u_bio : option string;
  u_steamId : option string;
  u_steamPersonaName : option string;
  u_steamProfileUrl : option string;
  u_steamAvatarUrl : option string;
  u_steamConnected : bool;
  u_createdAt : Z;
  u_updatedAt : Z
}.

(** [Partial<User>]: [None] is a key that is absent; for a field that is
    itself optional, [Some None] is a key present with no value. *)
Record UserUpdates := {
  up_id : option string;
  up_email : option string;
  up_userHandle : option string;
  up_avatarUrl : option (option string);
  up_bio : option (option string);
  up_steamId : option (option string);
  up_steamPersonaName : option (option string);
  up_steamProfileUrl : option (option string);
  up_steamAvatarUrl : option (option string);
  up_steamConnected : option bool;
  up_createdAt : option Z;
  up_updatedAt : option Z
}.

(** [AuthState] (lines 574-578). *)
Record AuthState := {
  isAuthenticated : bool;
  user : option User;
  loading : bool
}.

(** What the service sends out. *)
Inductive request :=
| SignOut
| UserUpdate (id : string) (updates : UserUpdates).

(** The identity service and the data client: whether [signOut] and
    [User.update] throw. *)
Record backend := {
  signOut_throws : bool;
  user_update_throws : string → UserUpdates → bool
}.

(** The service object: its two fields, and beside them what its
    listeners have been told and what it has sent. A listener is known
    by its identity; it observes and does not throw. *)
Record service := {
  currentUser : option User;
  listeners : list nat;
  heard : list (nat * AuthState);
  sent : list request
}.

(** [getAuthState] (lines 710-716); [!!this.currentUser] holds for every
    user object. *)
Definition getAuthState (s : service) : AuthState :=
  {| isAuthenticated := bool_decide (is_Some (currentUser s));
     user := currentUser s;
     loading := false |}.

(** The state of a service without a current user. *)
Definition signed_out_state : AuthState :=
  {| isAuthenticated := false; user := None; loading := false |}.

(** [getCurrentUser] and [isAuthenticated] (lines 957-966). *)
Definition getCurrentUser (s : service) : option User := currentUser s.

Definition isAuthenticated_now (s : service) : bool :=
  bool_decide (is_Some (currentUser s)).

(** [notifyListeners] (lines 700-705). *)
Definition notifyListeners (s : service) : service :=
  let state := getAuthState s in
  {| currentUser := currentUser s; listeners := listeners s;
     heard := heard s ++ map (λ listener, (listener, state)) (listeners s);
     sent := sent s |}.

(** [addAuthStateListener] (lines 684-688). *)
Definition addAuthStateListener (listener : nat) (s : service) : service :=
  {| currentUser := currentUser s; listeners := listeners s ++ [listener];
     heard := heard s ++ [(listener, getAuthState s)];
     sent := sent s |}.

(** [removeAuthStateListener] (lines 693-695). *)
Definition removeAuthStateListener (listener : nat) (s : service) : service :=
  {| currentUser := currentUser s;
     listeners := List.filter (λ l, negb (l =? listener)%nat) (listeners s);
     heard := heard s; sent := sent s |}.

Definition set_user (u : option User) (s : service) : service :=
  {| currentUser := u; listeners := listeners s; heard := heard s; sent := sent s |}.

Definition send (r : request) (s : service) : service :=
  {| currentUser := currentUser s; listeners := listeners s; heard := heard s;
     sent := sent s ++ [r] |}.

(** [logout] (lines 914-925): the local state is cleared in the [try]
    and in the [catch] alike. *)
Definition logout (B : backend) (s : service) : result unit * service :=
  let s1 := send SignOut s in
  if signOut_throws B
  then (Ok (), notifyListeners (set_user None s1))
  else (Ok (), notifyListeners (set_user None s1)).

(** [{ ...this.currentUser, ...updates, updatedAt: now }] *)
Definition merge (cur : User) (updates : UserUpdates) (now : Z) : User :=
  {| u_id := default (u_id cur) (up_id updates);
     u_email := default (u_email cur) (up_email updates);
     u_userHandle := default (u_userHandle cur) (up_userHandle updates);
     u_avatarUrl := default (u_avatarUrl cur) (up_avatarUrl updates);
     u_bio := default (u_bio cur) (up_bio updates);
     u_steamId := default (u_steamId cur) (up_steamId updates);
     u_steamPersonaName := default (u_steamPersonaName cur) (up_steamPersonaName updates);
     u_steamProfileUrl := default (u_steamProfileUrl cur) (up_steamProfileUrl updates);
     u_steamAvatarUrl := default (u_steamAvatarUrl cur) (up_steamAvatarUrl updates);
     u_steamConnected := default (u_steamConnected cur) (up_steamConnected updates);
     u_createdAt := default (u_createdAt cur) (up_createdAt updates);
     u_updatedAt := now |}.

(** [updateProfile] (lines 930-952); [now] is what [new Date()] reads.
    The request carries [{ id: this.currentUser.id, ...updates }]. *)
Definition updateProfile (B : backend) (now : Z) (updates : UserUpdates) (s : service)
  : result User * service :=
  match currentUser s with
  | None => (Throw "No user logged in", s)
  | Some cur =>
      let id := default (u_id cur) (up_id updates) in
      let s1 := send (UserUpdate id updates) s in
      if user_update_throws B id updates then (Throw "update failed", s1)
      else
        let updatedUser := merge cur updates now in
        (Ok updatedUser, notifyListeners (set_user (Some updatedUser) s1))
  end.

End AuthService.

(** * Vocabulary of the statements *)

(** ** Computations *)

(** A computation that cannot throw, whatever the world. *)
Definition no_throw {A} (m : M A) : Prop :=
  ∀ w, ∃ a, outcome m w = Ok a.

(** A computation that only adds to the log of calls. *)
Definition logs_only_more {A} (m : M A) : Prop :=
  ∀ w, ∃ more, calls (after m w) = calls w ++ more.

(** The ranking did not come: the request failed, the status was not
    ok, the body was no JSON, or it lacked [response.ranks]. *)
Definition ranking_failed (E : env) : bool :=
  match http_most_played E with
  | Body (Some _) => false
  | _ => true
  end.

(** Time passing between two operations. *)
Definition advance (dt : Z) (w : world) : world :=
  {| storage := storage w; clock := clock w + dt; calls := calls w; events := events w |}.

Definition drop_key (key : string) (w : world) : world :=
  {| storage := delete key (storage w); clock := clock w;
     calls := calls w; events := events w |}.

(** ** Library sync *)

(** What happens to the stored entries of a user between two runs: any
    rewriting [f] of the list (ratings, notes, statuses set by hand). *)
Definition edit_entries (userId : string) (f : list LibraryEntry → list LibraryEntry)
    (w : world) : world :=
  match storage w !! Sync.library_entries_key userId with
  | Some (ILibraryEntries entries) =>
      {| storage := <[Sync.library_entries_key userId := ILibraryEntries (f entries)]> (storage w);
         clock := clock w; calls := calls w; events := events w |}
  | _ => w
  end.

(** The last-played time of a game is one a [Date] can hold: there is
    none, or its milliseconds lie within 8.64e15 of the epoch. *)
Definition date_fits (game : SteamGame) : Prop :=
  ∀ t, lastPlayed game = Some t → Z.abs (t * 1000) ≤ 8640000000000000.

(** The last-played time of a game in milliseconds, null when the game
    has none or has 0. *)
Definition last_played_ms (game : SteamGame) : option Z :=
  match lastPlayed game with
  | Some t => if t =? 0 then None else Some (t * 1000)
  | None => None
  end.

(** An entry that mirrors a game for a user, field by field, and
    carries no curation. *)
Definition entry_of_game (userId : string) (game : SteamGame) (entry : LibraryEntry)
  : Prop :=
  le_userId entry = userId ∧
  le_id entry = "steam-" +:+ JS.show_num (appId game) ∧
  le_gameId entry = "steam-game-" +:+ JS.show_num (appId game) ∧
  steamAppId entry = appId game ∧
  gameTitle entry = name game ∧
  gameCover entry = Some (logoUrl game) ∧
  isFromSteam entry = true ∧
  steamPlaytimeTotal entry = Some (playtimeTotal game) ∧
  steamPlaytimeRecent entry = Some (playtimeRecent game) ∧
  steamLastPlayed entry = last_played_ms game ∧
  steamIconUrl entry = iconUrl game ∧
  steamHasStats entry = hasStats game ∧
  hoursPlayed entry = Some ((playtimeTotal game + 30) / 60) ∧
  le_appid entry = appId game ∧
  le_name entry = name game ∧
  le_header_image entry = Some (logoUrl game) ∧
  steamAchievements entry = None ∧
  rating entry = None ∧
  notes entry = "" ∧
  status entry = sync_status (playtimeTotal game) (playtimeRecent game).

(** The argument of a [Game.create] and of a [LibraryEntry.create] that
    mirror a game, field by field. *)
Definition game_fields (game : SteamGame) (input : GameInput) : Prop :=
  gi_id input = "steam-game-" +:+ JS.show_num (appId game) ∧
  gi_title input = name game ∧
  gi_steamAppId input = appId game ∧
  gi_steamIconUrl input = iconUrl game ∧
  gi_steamLogoUrl input = logoUrl game ∧
  gi_steamHasStats input = hasStats game.

Definition entry_fields (userId : string) (game : SteamGame) (input : EntryInput)
  : Prop :=
  ei_userId input = userId ∧
  ei_gameId input = "steam-game-" +:+ JS.show_num (appId game) ∧
  ei_status input = sync_status (playtimeTotal game) (playtimeRecent game) ∧
  ei_gameTitle input = name game ∧
  ei_gameCover input = (if String.eqb (logoUrl game) "" then iconUrl game
                        else logoUrl game) ∧
  ei_steamPlaytimeTotal input = playtimeTotal game ∧
  ei_steamPlaytimeRecent input = playtimeRecent game ∧
  ei_steamLastPlayed input = last_played_ms game.

(** The requests [storeGamesInDatabase] sends for one game: the entry is
    only sent when the creation of the game did not throw and the
    argument of the request could be built. *)
Definition requests_of (E : env) (userId : string) (game : SteamGame) : list call :=
  GameCreate (Sync.game_input_of game)
  :: (if data_game_create E (Sync.game_input_of game)
      then match Sync.entry_input_of userId game with
           | Ok input => [LibraryEntryCreate input]
           | Throw _ => []
           end
      else []).

(** The entries a page reads back for a user. *)
Definition stored_entries (userId : string) (w : world) : list LibraryEntry :=
  match storage w !! Sync.library_entries_key userId with
  | Some (ILibraryEntries entries) => entries
  | _ => []
  end.

(** ** Recent achievements *)







(** ** Sample data *)

Module Samples.
Import GameDatabase.

(** An environment in which every call fails. *)
Definition offline : env :=
  {| gql_syncSteamLibrary := λ _, None;
     gql_getSteamAchievements := λ _ _, AchRejected;
     data_client_init := false;
     data_game_create := λ _, false;
     data_entry_create := λ _, false;
     http_most_played := NetworkError;
     http_app_details := λ _, NetworkError;
     http_store_search := λ _ _, NetworkError;
     mock_player_count := λ _, {| current := 0; peak_24h := 0; all_time_peak := 0 |};
     latency := λ _, 0 |}.

Definition some_game : GameDatabaseEntry :=
  {| appid := 730; gd_name := "Counter-Strike 2"; header_image := "";
     capsule_image := ""; short_description := ""; genres := [];
     developers := []; publishers := []; release_date := "";
     price_overview := None; metacritic_score := None; is_free := true;
     platforms := no_platforms; categories := []; screenshots := [];
     last_updated := 0;
     player_count := {| current := 0; peak_24h := 0; all_time_peak := 0 |} |}.

(** Two owned games: one played lately, one never played. *)
Definition game_A : SteamGame :=
  {| appId := Some 10; name := Some "A"; playtimeTotal := 120; playtimeRecent := 30;
     iconUrl := "a.ico"; logoUrl := "a.png"; hasStats := true; lastPlayed := Some 1700000000 |}.

Definition game_B : SteamGame :=
  {| appId := Some 20; name := Some "B"; playtimeTotal := 0; playtimeRecent := 0;
     iconUrl := "b.ico"; logoUrl := "b.png"; hasStats := false; lastPlayed := None |}.

(** A game whose last play lies beyond the dates of JavaScript: its
    milliseconds exceed 8.64e15. *)
Definition game_far_future : SteamGame :=
  {| appId := Some 30; name := Some "C"; playtimeTotal := 120; playtimeRecent := 30;
     iconUrl := "c.ico"; logoUrl := "c.png"; hasStats := true;
     lastPlayed := Some 8640000000001 |}.

(** The same game as [game_A] when it arrives without an identifier. *)
Definition game_without_id : SteamGame :=
  {| appId := None; name := Some "A"; playtimeTotal := 120; playtimeRecent := 30;
     iconUrl := "a.ico"; logoUrl := "a.png"; hasStats := true; lastPlayed := Some 1700000000 |}.

(** A library entry played lately of which the last play is not known. *)
Definition entry_without_last_played : LibraryEntry :=
  {| le_id := "steam-10"; le_userId := "u"; le_gameId := "steam-game-10";
     gameTitle := Some "A"; gameCover := Some "a.png"; status := playing;
     rating := None; notes := ""; createdAt := 0; updatedAt := 0;
     steamPlaytimeTotal := Some 120; steamPlaytimeRecent := Some 30;
     steamLastPlayed := None; steamSyncDate := 0; isFromSteam := true;
     steamAppId := Some 10; steamIconUrl := "a.ico"; steamHasStats := true;
     hoursPlayed := Some 2; le_appid := Some 10; le_name := Some "A";
   le_header_image := Some "a.png"; steamAchievements := None |}.

Definition empty_world : world :=
  {| storage := ∅; clock := 0; calls := []; events := [] |}.

(** A store holding one trending list captured at time 0, read one
    millisecond after its six hours have passed. *)
Definition stale_trending_world : world :=
  {| storage := {[ trending_key 10 := ICached (PGames [PGame some_game]) 0 ]};
     clock := TRENDING + 1; calls := []; events := [] |}.

Definition rank_of (id : Z) : Rank :=
  {| rk_appid := id; rk_name := None; peak_in_game := None |}.

Definition raw_of (id : Z) : RawGame := trending_game (rank_of id).

(** An environment whose store API answers the ranking with two games
    and every search with one, and fails on details. *)
Definition ranked : env :=
  {| gql_syncSteamLibrary := λ _, None;
     gql_getSteamAchievements := λ _ _, AchRejected;
     data_client_init := false;
     data_game_create := λ _, false;
     data_entry_create := λ _, false;
     http_most_played := Body (Some [rank_of 10; rank_of 20]);
     http_app_details := λ _, NetworkError;
     http_store_search := λ _ _, Body (Some {| items := [raw_of 10]; total := 1 |});
     mock_player_count := λ _, {| current := 0; peak_24h := 0; all_time_peak := 0 |};
     latency := λ _, 0 |}.

(** An environment whose gateway answers the sync with [games] and
    whose data client accepts everything. *)
Definition steam_with (games : list SteamGame) : env :=
  {| gql_syncSteamLibrary := λ _, Some (Some games);
     gql_getSteamAchievements := λ _ _, AchRejected;
     data_client_init := true;
     data_game_create := λ _, true;
     data_entry_create := λ _, true;
     http_most_played := NetworkError;
     http_app_details := λ _, NetworkError;
     http_store_search := λ _ _, NetworkError;
     mock_player_count := λ _, {| current := 0; peak_24h := 0; all_time_peak := 0 |};
     latency := λ _, 0 |}.

(** The user's curation of an entry: five stars, a note, finished. *)
Definition curate (e : LibraryEntry) : LibraryEntry :=
  {| le_id := le_id e; le_userId := le_userId e; le_gameId := le_gameId e;
     gameTitle := gameTitle e; gameCover := gameCover e; status := finished;
     rating := Some 5; notes := "great"; createdAt := createdAt e;
     updatedAt := updatedAt e; steamPlaytimeTotal := steamPlaytimeTotal e;
     steamPlaytimeRecent := steamPlaytimeRecent e;
     steamLastPlayed := steamLastPlayed e; steamSyncDate := steamSyncDate e;
     isFromSteam := isFromSteam e; steamAppId := steamAppId e;
     steamIconUrl := steamIconUrl e; steamHasStats := steamHasStats e;
     hoursPlayed := hoursPlayed e; le_appid := le_appid e; le_name := le_name e;
   le_header_image := le_header_image e; steamAchievements := steamAchievements e |}.

Definition view_of (id : Z) : GameView :=
  {| v_steamHasStats := Some true; v_hasStats := None;
     v_steamAppId := Some id; v_appId := None;
     v_gameTitle := Some "A"; v_name := None; v_gameCover := None;
     v_header_image := None; v_logoUrl := None; v_iconUrl := None |}.

Definition unlocked (t : Z) : SteamAchievement :=
  {| apiName := "ACH"; achieved := true; unlockTime := t;
     ach_name := "Achievement"; ach_description := "" |}.

(** An environment whose gateway rejects the achievements of game 3
    and answers one achievement, unlocked at the time that is the
    game's number, for every other game. *)
Definition achievements_env : env :=
  {| gql_syncSteamLibrary := λ _, None;
     gql_getSteamAchievements :=
       λ _ id, if id =? 3 then AchRejected else AchList [unlocked id];
     data_client_init := false;
     data_game_create := λ _, false;
     data_entry_create := λ _, false;
     http_most_played := NetworkError;
     http_app_details := λ _, NetworkError;
     http_store_search := λ _ _, NetworkError;
     mock_player_count := λ _, {| current := 0; peak_24h := 0; all_time_peak := 0 |};
     latency := λ _, 0 |}.

Definition eleven_games : list GameView :=
  map view_of [1; 2; 3; 4; 5; 6; 7; 8; 9; 10; 11].

(** A game known by its [appId] alone, with a name and an icon, and an
    achievement that is not unlocked. *)
Definition view_by_appId (id : Z) : GameView :=
  {| v_steamHasStats := None; v_hasStats := Some true;
     v_steamAppId := Some 0; v_appId := Some id;
     v_gameTitle := Some ""; v_name := Some "B"; v_gameCover := None;
     v_header_image := Some ""; v_logoUrl := None; v_iconUrl := Some "b.ico" |}.

Definition locked : SteamAchievement :=
  {| apiName := "LOCKED"; achieved := false; unlockTime := 0;
     ach_name := "Locked"; ach_description := "" |}.

Definition achieved_at (api : string) (t : Z) : SteamAchievement :=
  {| apiName := api; achieved := true; unlockTime := t;
     ach_name := api; ach_description := "done" |}.

(** An environment whose gateway answers, for every game, five
    achievements of which four are unlocked. *)
Definition five_achievements_env : env :=
  {| gql_syncSteamLibrary := λ _, None;
     gql_getSteamAchievements :=
       λ _ _, AchList [achieved_at "a" 100; locked; achieved_at "b" 400;
                       achieved_at "c" 200; achieved_at "d" 300];
     data_client_init := false;
     data_game_create := λ _, false;
     data_entry_create := λ _, false;
     http_most_played := NetworkError;
     http_app_details := λ _, NetworkError;
     http_store_search := λ _ _, NetworkError;
     mock_player_count := λ _, {| current := 0; peak_24h := 0; all_time_peak := 0 |};
     latency := λ _, 0 |}.

End Samples.

(** ** More of the catalog *)

(** The key of a game's details and the request for them. *)
Definition details_key (appId : Z) : string :=
  GameDatabase.GAME_DETAILS +:+ "-" +:+ pretty appId.

Definition details_call (game : RawGame) : call := HttpAppDetails (r_appid game).

(** The upstream did not deliver: anything but a body with the data. *)
Definition not_delivered {A} (response : http (option A)) : bool :=
  match response with
  | Body (Some _) => false
  | _ => true
  end.

(** ** More sample data *)

Module MoreSamples.
Import GameDatabase.

Definition details_of (id : Z) : SteamAppDetails :=
  {| d_appid := id; d_name := "Game"; d_header_image := ""; d_capsule_image := "";
     d_short_description := ""; d_genres := None; d_developers := None;
     d_publishers := None; d_release_date := None; d_price_overview := None;
     d_metacritic := None; d_is_free := false; d_platforms := None;
     d_categories := None; d_screenshots := None |}.

(** A store that answers everything: the ranking with two games, the
    details of every game, every search with one item. *)
Definition store_up : env :=
  {| gql_syncSteamLibrary := λ _, None;
     gql_getSteamAchievements := λ _ _, AchRejected;
     data_client_init := false;
     data_game_create := λ _, false;
     data_entry_create := λ _, false;
     http_most_played := Body (Some [Samples.rank_of 10; Samples.rank_of 20]);
     http_app_details := λ id, Body (Some (details_of id));
     http_store_search := λ _ _, Body (Some {| items := [Samples.raw_of 10]; total := 1 |});
     mock_player_count := λ _, {| current := 0; peak_24h := 0; all_time_peak := 0 |};
     latency := λ _, 250 |}.

(** A store holding text that is no JSON under the trending key. *)
Definition corrupt_trending_world : world :=
  {| storage := {[ trending_key 10 := IMalformed "{oops" ]};
     clock := 0; calls := []; events := [] |}.

(** A gateway that sends games while the data client cannot be set up,
    and one whose data client is there but refuses every creation. *)
Definition steam_without_client : env :=
  {| gql_syncSteamLibrary := λ _, Some (Some [Samples.game_A]);
     gql_getSteamAchievements := λ _ _, AchRejected;
     data_client_init := false;
     data_game_create := λ _, true;
     data_entry_create := λ _, true;
     http_most_played := NetworkError;
     http_app_details := λ _, NetworkError;
     http_store_search := λ _ _, NetworkError;
     mock_player_count := λ _, {| current := 0; peak_24h := 0; all_time_peak := 0 |};
     latency := λ _, 0 |}.

Definition steam_rejecting_creates : env :=
  {| gql_syncSteamLibrary := λ _, Some (Some [Samples.game_A; Samples.game_B]);
     gql_getSteamAchievements := λ _ _, AchRejected;
     data_client_init := true;
     data_game_create := λ _, false;
     data_entry_create := λ _, false;
     http_most_played := NetworkError;
     http_app_details := λ _, NetworkError;
     http_store_search := λ _ _, NetworkError;
     mock_player_count := λ _, {| current := 0; peak_24h := 0; all_time_peak := 0 |};
     latency := λ _, 0 |}.

(** A store holding one curated entry of user [u]. *)
Definition curated_world : world :=
  {| storage := {[ Sync.library_entries_key "u" :=
                     ILibraryEntries [Samples.curate Samples.entry_without_last_played] ]};
     clock := 0; calls := []; events := [] |}.

(** An entry of game [id] last played at [t], with recent playtime. *)
Definition played_at (id t : Z) : LibraryEntry :=
  {| le_id := "steam-" +:+ pretty id; le_userId := "u";
     le_gameId := "steam-game-" +:+ pretty id;
     gameTitle := Some "A"; gameCover := None; status := playing;
     rating := None; notes := ""; createdAt := 0; updatedAt := 0;
     steamPlaytimeTotal := Some 120; steamPlaytimeRecent := Some 30;
     steamLastPlayed := Some t; steamSyncDate := 0; isFromSteam := true;
     steamAppId := Some id; steamIconUrl := ""; steamHasStats := false;
     hoursPlayed := Some 2; le_appid := Some id; le_name := Some "A";
     le_header_image := None; steamAchievements := None |}.

Definition played_old : LibraryEntry := played_at 1 100.

(** Seven entries played lately, the oldest first. *)
Definition seven_played : list LibraryEntry :=
  [played_old; played_at 2 200; played_at 3 300; played_at 4 400;
   played_at 5 500; played_at 6 600; played_at 7 700].

Definition alice : AuthService.User :=
  {| AuthService.u_id := "u"; AuthService.u_email := "alice@example.org";
     AuthService.u_userHandle := "alice"; AuthService.u_avatarUrl := None;
     AuthService.u_bio := None; AuthService.u_steamId := None;
     AuthService.u_steamPersonaName := None; AuthService.u_steamProfileUrl := None;
     AuthService.u_steamAvatarUrl := None; AuthService.u_steamConnected := false;
     AuthService.u_createdAt := 0; AuthService.u_updatedAt := 0 |}.

(** An update of the bio alone. *)
Definition new_bio : AuthService.UserUpdates :=
  {| AuthService.up_id := None; AuthService.up_email := None;
     AuthService.up_userHandle := None; AuthService.up_avatarUrl := None;
     AuthService.up_bio := Some (Some "plays at night"); AuthService.up_steamId := None;
     AuthService.up_steamPersonaName := None; AuthService.up_steamProfileUrl := None;
     AuthService.up_steamAvatarUrl := None; AuthService.up_steamConnected := None;
     AuthService.up_createdAt := None; AuthService.up_updatedAt := None |}.

Definition signed_in : AuthService.service :=
  {| AuthService.currentUser := Some alice; AuthService.listeners := [1%nat; 2%nat];
     AuthService.heard := []; AuthService.sent := [] |}.

Definition signed_out : AuthService.service :=
  {| AuthService.currentUser := None; AuthService.listeners := [1%nat; 2%nat];
     AuthService.heard := []; AuthService.sent := [] |}.

Definition backend_up : AuthService.backend :=
  {| AuthService.signOut_throws := false; AuthService.user_update_throws := λ _ _, false |}.

Definition backend_down : AuthService.backend :=
  {| AuthService.signOut_throws := true; AuthService.user_update_throws := λ _ _, true |}.

End MoreSamples.

(** * Properties *)

(** ** The monad *)

Ltac unfold_M :=
  unfold outcome, after, mbind, mret, M_bind, M_ret, bind, ret, try_catch, throw, lift,
    Date_now, getItem, setItem, removeItem, dispatchEvent, perform in *.

Lemma no_throw_ret {A} (a : A) : no_throw (mret a).
Proof. intros w. by exists a. Qed.

Lemma no_throw_bind {A B} (m : M A) (k : A → M B) :
  no_throw m → (∀ a, no_throw (k a)) → no_throw (m ≫= k).
Proof.
  intros Hm Hk w. destruct (Hm w) as [a Ha]. unfold_M.
  destruct (m w) as [[a'|e] w'] eqn:Hmw; simpl in Ha; [|discriminate].
  apply (Hk a' w').
Qed.

Lemma no_throw_catch {A} (body : M A) (handler : string → M A) :
  (∀ e, no_throw (handler e)) → no_throw (try_catch body handler).
Proof.
  intros Hh w. unfold_M. destruct (body w) as [[a|e] w'].
  - by exists a.
  - apply (Hh e w').
Qed.

Lemma logs_ret {A} (a : A) : logs_only_more (mret a).
Proof. intros w. exists []. by rewrite app_nil_r. Qed.

Lemma logs_bind {A B} (m : M A) (k : A → M B) :
  logs_only_more m → (∀ a, logs_only_more (k a)) → logs_only_more (m ≫= k).
Proof.
  intros Hm Hk w. destruct (Hm w) as [l1 H1]. unfold_M.
  destruct (m w) as [[a|e] w'] eqn:Hmw; simpl in H1.
  - destruct (Hk a w') as [l2 H2]. unfold_M. exists (l1 ++ l2).
    by rewrite H2, H1, app_assoc.
  - by exists l1.
Qed.

Lemma logs_catch {A} (body : M A) (handler : string → M A) :
  logs_only_more body → (∀ e, logs_only_more (handler e)) →
  logs_only_more (try_catch body handler).
Proof.
  intros Hm Hk w. destruct (Hm w) as [l1 H1]. unfold_M.
  destruct (body w) as [[a|e] w'] eqn:Hmw; simpl in H1.
  - by exists l1.
  - destruct (Hk e w') as [l2 H2]. unfold_M. exists (l1 ++ l2).
    by rewrite H2, H1, app_assoc.
Qed.

Lemma bind_assoc {A B C} (m : M A) (k1 : A → M B) (k2 : B → M C) w :
  ((m ≫= k1) ≫= k2) w = (m ≫= (λ a, k1 a ≫= k2)) w.
Proof. unfold_M. by destruct (m w) as [[a|e] w']. Qed.

Lemma no_throw_Date_now : no_throw Date_now.
Proof. intros w. by eexists. Qed.

Lemma no_throw_perform E c : no_throw (perform E c).
Proof. intros w. by eexists. Qed.

Lemma no_throw_setItem key v : no_throw (setItem key v).
Proof. intros w. by eexists. Qed.

Lemma no_throw_dispatchEvent e : no_throw (dispatchEvent e).
Proof. intros w. by eexists. Qed.

Lemma logs_Date_now : logs_only_more Date_now.
Proof. intros w. exists []. by rewrite app_nil_r. Qed.

Lemma logs_perform E c : logs_only_more (perform E c).
Proof. intros w. by exists [c]. Qed.

Lemma logs_setItem key v : logs_only_more (setItem key v).
Proof. intros w. exists []. by rewrite app_nil_r. Qed.

Lemma logs_dispatchEvent e : logs_only_more (dispatchEvent e).
Proof. intros w. exists []. by rewrite app_nil_r. Qed.

Lemma logs_throw {A} msg : logs_only_more (@throw A msg).
Proof. intros w. exists []. by rewrite app_nil_r. Qed.

(** A logged call comes first in what a guarded block adds to the log. *)
Lemma logs_call_first {A} E c (k : M A) (handler : string → M A) w :
  logs_only_more k → (∀ e, logs_only_more (handler e)) →
  ∃ more, calls (after (try_catch (perform E c ;; k) handler) w) = calls w ++ c :: more.
Proof.
  intros Hk Hh. unfold_M.
  match goal with
  | |- context [k ?w1] =>
      destruct (Hk w1) as [l1 H1]; unfold after in H1;
      destruct (k w1) as [[a|e] w2]; simpl in *
  end.
  - exists l1. by rewrite H1, <- app_assoc.
  - destruct (Hh e w2) as [l2 H2]. unfold after in H2.
    exists (l1 ++ l2). by rewrite H2, H1, <- !app_assoc.
Qed.

Create HintDb mon.

#[local] Hint Resolve no_throw_Date_now no_throw_perform no_throw_setItem
  no_throw_dispatchEvent logs_Date_now logs_perform logs_setItem
  logs_dispatchEvent : mon.

Ltac mon_step :=
  first
    [ solve [eauto with mon]
    | apply no_throw_ret | apply logs_ret | apply logs_throw
    | apply no_throw_catch; intros | apply logs_catch; [|intros]
    | apply no_throw_bind; [|intros] | apply logs_bind; [|intros]
    | match goal with
      | |- no_throw (match ?x with _ => _ end) => destruct x
      | |- logs_only_more (match ?x with _ => _ end) => destruct x
      | |- no_throw (if ?x then _ else _) => destruct x
      | |- logs_only_more (if ?x then _ else _) => destruct x
      end ].

Ltac mon := repeat mon_step.

(** ** The cache *)

Module CacheFacts.
Import GameDatabase.

(** What [getCachedData] does, case by case on the stored document. *)
Lemma getCachedData_eq key maxAge w :
  getCachedData key maxAge w =
  match storage w !! key with
  | Some (ICached data ts) =>
      if older_than (clock w - ts) maxAge
      then (Ok None, drop_key key w)
      else (Ok (Some data), w)
  | _ => (Ok None, w)
  end.
Proof.
  unfold getCachedData, parse_envelope. unfold_M.
  destruct (storage w !! key) as [[data ts| | |]|]; try reflexivity.
  by destruct (older_than _ _).
Qed.

Lemma cacheData_eq key data w :
  cacheData key data w =
  (Ok (), {| storage := <[key := ICached data (clock w)]> (storage w);
             clock := clock w; calls := calls w; events := events w |}).
Proof. reflexivity. Qed.

Lemma getCachedData_no_throw key maxAge : no_throw (getCachedData key maxAge).
Proof. apply no_throw_catch. intros e. apply no_throw_ret. Qed.

Lemma cacheData_no_throw key data : no_throw (cacheData key data).
Proof. intros w. exists (). unfold outcome. by rewrite cacheData_eq. Qed.

Lemma getCachedData_logs key maxAge : logs_only_more (getCachedData key maxAge).
Proof.
  intros w. exists []. unfold after. rewrite getCachedData_eq, app_nil_r.
  destruct (storage w !! key) as [[data ts| | |]|]; try reflexivity.
  by destruct (older_than _ _).
Qed.

Lemma cacheData_logs key data : logs_only_more (cacheData key data).
Proof. intros w. exists []. unfold after. by rewrite cacheData_eq, app_nil_r. Qed.

#[export] Hint Resolve getCachedData_no_throw cacheData_no_throw
  getCachedData_logs cacheData_logs : mon.

(** A read of a key that holds nothing changes nothing. *)
Lemma getCachedData_miss key maxAge w :
  storage w !! key = None → getCachedData key maxAge w = (Ok None, w).
Proof. intros H. by rewrite getCachedData_eq, H. Qed.

Lemma fetch_json_logs {A} E c (r : http A) : logs_only_more (fetch_json E c r).
Proof. unfold fetch_json. mon. Qed.

Lemma getGameDetails_no_throw E appId : no_throw (getGameDetails E appId).
Proof. unfold getGameDetails. mon. Qed.

Lemma getGameDetails_logs E appId : logs_only_more (getGameDetails E appId).
Proof. unfold getGameDetails, fetch_json. mon. Qed.

#[export] Hint Resolve getGameDetails_no_throw getGameDetails_logs : mon.

Lemma enrich_one_no_throw E game :
  no_throw
    (try_catch
       (details ← getGameDetails E (r_appid game);
        match details with
        | Some d => mret d
        | None => now ← Date_now; mret (PGame (transformBasicGameInfo now game))
        end)
       (λ _, now ← Date_now; mret (PGame (transformBasicGameInfo now game)))).
Proof. mon. Qed.

(** [enrichGameData] processes the whole list: it cannot throw and it
    returns one document per game it was given. *)
Lemma enrichGameData_total E games w :
  ∃ enriched w', enrichGameData E games w = (Ok enriched, w') ∧
                 length enriched = length games.
Proof.
  revert w. induction games as [|game rest IH]; intros w.
  - by exists [], w.
  - cbn [enrichGameData]. unfold mbind at 1, M_bind at 1, bind at 1.
    destruct (enrich_one_no_throw E game w) as [one Hone]. unfold outcome in Hone.
    destruct (try_catch _ _ w) as [r w1]. simpl in Hone. subst r.
    unfold mbind at 1, M_bind at 1, bind at 1.
    destruct (IH w1) as (others & w2 & -> & Hlen).
    exists (one :: others), w2. split; [reflexivity|]. simpl. by rewrite Hlen.
Qed.

Lemma enrichGameData_no_throw E games : no_throw (enrichGameData E games).
Proof.
  intros w. destruct (enrichGameData_total E games w) as (l & w' & H & _).
  exists l. unfold outcome. by rewrite H.
Qed.

Lemma enrichGameData_logs E games : logs_only_more (enrichGameData E games).
Proof. induction games; cbn [enrichGameData]; mon. Qed.

#[export] Hint Resolve enrichGameData_no_throw enrichGameData_logs : mon.

Lemma stale_or_empty_no_throw key : no_throw (stale_or_empty key).
Proof. unfold stale_or_empty. mon. Qed.

Lemma stale_or_empty_logs key : logs_only_more (stale_or_empty key).
Proof. unfold stale_or_empty. mon. Qed.

(** Neither catalog operation can throw, whatever its arguments. *)
Lemma getTrendingGames_no_throw E limit forceRefresh :
  no_throw (getTrendingGames E limit forceRefresh).
Proof.
  unfold getTrendingGames. apply no_throw_bind.
  - destruct forceRefresh; cbn [negb]; mon.
  - intros [hit|]; mon.
Qed.

(** When the ranking does not come, the guarded block throws and the
    store is as it was. *)
Lemma fetch_trending_fails E key limit w :
  ranking_failed E = true →
  ∃ msg w', fetch_trending E key limit w = (Throw msg, w') ∧ storage w' = storage w.
Proof.
  unfold ranking_failed, fetch_trending, fetch_json. unfold_M.
  destruct (http_most_played E) as [| | |[ranks|]]; intros Hfail;
    try discriminate; by eexists _, _.
Qed.

(** The fallback as the source intends it: on a forced refresh, a
    failed fetch gives back the stored list however old it is. *)
Lemma getTrendingGames_forced_returns_stale E limit w data ts :
  ranking_failed E = true →
  storage w !! trending_key limit = Some (ICached data ts) →
  outcome (getTrendingGames E limit true) w = Ok data.
Proof.
  intros Hfail Hrec. unfold outcome, getTrendingGames. cbn [negb]. unfold_M.
  destruct (fetch_trending_fails E (trending_key limit) limit w Hfail)
    as (msg & w' & -> & Hs).
  unfold stale_or_empty. unfold_M. rewrite getCachedData_eq, Hs, Hrec. reflexivity.
Qed.

(** The same fallback on the default path: the first read has deleted
    the stale list, and the caller gets an empty one. *)
Lemma getTrendingGames_default_loses_stale E limit w data ts :
  ranking_failed E = true →
  storage w !! trending_key limit = Some (ICached data ts) →
  TRENDING < clock w - ts →
  outcome (getTrendingGames E limit false) w = Ok (PGames []) ∧
  storage (after (getTrendingGames E limit false) w) !! trending_key limit = None.
Proof.
  intros Hfail Hrec Hold. unfold outcome, after, getTrendingGames. cbn [negb]. unfold_M.
  rewrite getCachedData_eq, Hrec. cbn [older_than].
  destruct (Z.ltb_spec TRENDING (clock w - ts)); [|lia].
  destruct (fetch_trending_fails E (trending_key limit) limit
              (drop_key (trending_key limit) w) Hfail) as (msg & w' & -> & Hs).
  assert (Hgone : storage w' !! trending_key limit = None).
  { rewrite Hs. apply lookup_delete_eq. }
  unfold stale_or_empty. unfold_M. rewrite getCachedData_eq, Hgone. by cbn.
Qed.

Lemma searchGames_no_throw E query limit page :
  no_throw (searchGames E query limit page).
Proof. unfold searchGames. mon. Qed.

End CacheFacts.

Module CacheProps.
Import GameDatabase CacheFacts Samples.

(** C5, as the specification states it, fails: reading the stale record
    of [stale_trending_world] with the six-hour limit reports it absent
    and the record is no longer in the store afterwards. *)
Lemma getCachedData_keeps_stale_counterexample :
  let key := trending_key 10 in
  let w := stale_trending_world in
  storage w !! key = Some (ICached (PGames [PGame some_game]) 0) ∧
  older_than (clock w - 0) (Millis TRENDING) = true ∧
  outcome (getCachedData key (Millis TRENDING)) w = Ok None ∧
  storage (after (getCachedData key (Millis TRENDING)) w) !! key = None.
Proof.
  cbv zeta. unfold outcome, after. rewrite getCachedData_eq.
  unfold stale_trending_world; cbn [storage clock].
  rewrite lookup_singleton_eq. repeat split.
Qed.

(** C5, amended: a get whose record is older than the given limit
    reports the record absent and deletes it from the store, leaving
    every other key as it was; a get whose record is not older returns
    the payload and leaves the whole world as it was. *)
Theorem getCachedData_evicts_stale key maxAge w data ts :
  storage w !! key = Some (ICached data ts) →
  (older_than (clock w - ts) maxAge = true →
     outcome (getCachedData key maxAge) w = Ok None ∧
     storage (after (getCachedData key maxAge) w) = delete key (storage w)) ∧
  (older_than (clock w - ts) maxAge = false →
     outcome (getCachedData key maxAge) w = Ok (Some data) ∧
     after (getCachedData key maxAge) w = w).
Proof.
  intros Hrec. unfold outcome, after. rewrite getCachedData_eq, Hrec.
  split; intros ->; by split.
Qed.

Lemma getCachedData_evicts_stale_witness :
  storage (after (getCachedData (trending_key 10) (Millis TRENDING)) stale_trending_world)
  = delete (trending_key 10) (storage stale_trending_world).
Proof.
  refine (proj2 (proj1 (getCachedData_evicts_stale (trending_key 10) (Millis TRENDING)
                stale_trending_world (PGames [PGame some_game]) 0 _) _)).
  - apply lookup_singleton_eq.
  - reflexivity.
Defined.

(** C6: a set followed at once by a get with a positive limit returns
    the value that was set; so does a get after any delay up to the
    limit; a get after a longer delay reports the record absent. *)
Theorem cache_round_trip key v ttl w :
  0 < ttl →
  outcome (getCachedData key (Millis ttl)) (after (cacheData key v) w) = Ok (Some v) ∧
  (∀ dt, 0 ≤ dt ≤ ttl →
     outcome (getCachedData key (Millis ttl)) (advance dt (after (cacheData key v) w))
     = Ok (Some v)) ∧
  (∀ dt, ttl < dt →
     outcome (getCachedData key (Millis ttl)) (advance dt (after (cacheData key v) w))
     = Ok None).
Proof.
  intros Httl. unfold outcome, after. rewrite cacheData_eq. cbn [snd].
  repeat split; [|intros dt Hdt..]; rewrite getCachedData_eq;
    cbn [advance storage clock]; rewrite lookup_insert_eq; cbn [older_than].
  - replace (clock w - clock w) with 0 by lia.
    by destruct (Z.ltb_spec ttl 0); [lia|].
  - by destruct (Z.ltb_spec ttl (clock w + dt - clock w)); [lia|].
  - by destruct (Z.ltb_spec ttl (clock w + dt - clock w)); [|lia].
Qed.

Lemma cache_round_trip_witness :
  outcome (getCachedData "k" (Millis 1000))
          (after (cacheData "k" (PGames [])) empty_world) = Ok (Some (PGames [])).
Proof.
  refine (proj1 (cache_round_trip "k" (PGames []) 1000 empty_world _)). lia.
Defined.

(** C4 fails on the default path ([forceRefresh = false]): the first
    read, with the six-hour limit, deletes the stale record, and the
    fallback that follows the failed fetch finds nothing. The stale
    list is lost and the caller gets an empty list. *)
Theorem getTrendingGames_loses_stale_fallback :
  let w := stale_trending_world in
  storage w !! trending_key 10 = Some (ICached (PGames [PGame some_game]) 0) ∧
  http_most_played offline = NetworkError ∧
  outcome (getTrendingGames offline 10 false) w = Ok (PGames []) ∧
  storage (after (getTrendingGames offline 10 false) w) !! trending_key 10 = None.
Proof.
  cbv zeta. split; [apply lookup_singleton_eq|]. split; [reflexivity|].
  unfold outcome, after, getTrendingGames. cbn [negb]. unfold_M.
  rewrite getCachedData_eq. unfold stale_trending_world at 1 3; cbn [storage clock].
  rewrite lookup_singleton_eq. cbn.
  split; [reflexivity|]. apply lookup_delete_eq.
Qed.

(** C8, as the specification states it, fails. With nothing cached,
    [getTrendingGames] with limit 0 calls the ranking endpoint; with
    limit -1 it calls it too and returns one of the two ranked games
    ([slice(0, -1)] drops the last one); [searchGames] with limit 0
    calls the search endpoint and returns what it is sent. *)
Lemma nonpositive_limit_counterexample :
  calls (after (getTrendingGames ranked 0 false) empty_world) = [HttpMostPlayed] ∧
  outcome (getTrendingGames ranked (-1) false) empty_world
    = Ok (PGames [PGame (transformBasicGameInfo 0 (raw_of 10))]) ∧
  calls (after (getTrendingGames ranked (-1) false) empty_world)
    = [HttpMostPlayed; HttpAppDetails 10] ∧
  outcome (searchGames ranked "q" 0 1) empty_world
    = Ok (PSearch [PGame (transformBasicGameInfo 0 (raw_of 10))] 1 1 0) ∧
  calls (after (searchGames ranked "q" 0 1) empty_world)
    = [HttpStoreSearch "q" 0; HttpAppDetails 10].
Proof. repeat split; vm_compute; reflexivity. Qed.

(** C8, amended: for every negative or zero limit, [getTrendingGames]
    and [searchGames] do not throw. When nothing is stored under their
    cache key they do call the network, first of all the ranking
    endpoint, respectively the search endpoint with the limit as count.
    With nothing cached, [getTrendingGames] returns an empty list for
    limit 0, and for a negative limit and a ranking that arrives it
    returns one entry for each ranked game but the last [-limit]. *)
Theorem nonpositive_limit_behaviour E limit w :
  limit ≤ 0 →
  (∀ forceRefresh, ∃ r, outcome (getTrendingGames E limit forceRefresh) w = Ok r) ∧
  (∀ query page, ∃ r, outcome (searchGames E query limit page) w = Ok r) ∧
  (∀ forceRefresh, storage w !! trending_key limit = None →
     ∃ more, calls (after (getTrendingGames E limit forceRefresh) w)
             = calls w ++ HttpMostPlayed :: more) ∧
  (∀ query page, storage w !! search_key query limit page = None →
     ∃ more, calls (after (searchGames E query limit page) w)
             = calls w ++ HttpStoreSearch query limit :: more) ∧
  (∀ forceRefresh, limit = 0 → storage w !! trending_key limit = None →
     outcome (getTrendingGames E limit forceRefresh) w = Ok (PGames [])) ∧
  (∀ forceRefresh ranks, limit < 0 → storage w !! trending_key limit = None →
     http_most_played E = Body (Some ranks) →
     ∃ games, outcome (getTrendingGames E limit forceRefresh) w = Ok (PGames games) ∧
              Z.of_nat (length games) = Z.max (Z.of_nat (length ranks) + limit) 0).
Proof.
  intros Hlimit.
  assert (Hmiss : ∀ forceRefresh, storage w !! trending_key limit = None →
            getTrendingGames E limit forceRefresh w
            = try_catch (fetch_trending E (trending_key limit) limit)
                        (λ _, stale_or_empty (trending_key limit)) w).
  { intros force Hnone. unfold getTrendingGames.
    unfold mbind at 1, M_bind at 1, bind at 1.
    destruct force; cbn [negb]; [reflexivity|].
    by rewrite (getCachedData_miss _ _ _ Hnone). }
  split; [|split; [|split; [|split; [|split]]]].
  - intros force. apply getTrendingGames_no_throw.
  - intros query page. apply searchGames_no_throw.
  - intros force Hnone. unfold after. rewrite (Hmiss force Hnone).
    unfold fetch_trending, fetch_json.
    match goal with
    | |- context [try_catch ?blk ?h w] =>
        replace (try_catch blk h w) with
          (try_catch (perform E HttpMostPlayed ;;
                      (match http_most_played E with
                       | NetworkError => throw "Failed to fetch"
                       | HttpStatus code => throw ("HTTP error! status: " +:+ pretty code)
                       | InvalidJson => throw "SyntaxError"
                       | Body data => mret data
                       end ≫= λ data,
                       match data with
                       | None => throw "Invalid response format from Steam API"
                       | Some ranks =>
                           games ← enrichGameData E (map trending_game (JS.slice0 limit ranks));
                           cacheData (trending_key limit) (PGames games);;
                           mret (PGames games)
                       end)) h w)
          by (unfold try_catch; by rewrite bind_assoc)
    end.
    apply logs_call_first; [mon|]. intros e. apply stale_or_empty_logs.
  - intros query page Hnone. unfold after, searchGames.
    unfold mbind at 1, M_bind at 1, bind at 1.
    rewrite (getCachedData_miss _ _ _ Hnone). unfold fetch_json.
    match goal with
    | |- context [try_catch ?blk ?h w] =>
        replace (try_catch blk h w) with
          (try_catch (perform E (HttpStoreSearch query limit) ;;
                      (match http_store_search E query limit with
                       | NetworkError => throw "Failed to fetch"
                       | HttpStatus code => throw ("HTTP error! status: " +:+ pretty code)
                       | InvalidJson => throw "SyntaxError"
                       | Body data => mret data
                       end ≫= λ data,
                       match data with
                       | None => throw "Invalid response format from Steam Store API"
                       | Some body =>
                           games ← enrichGameData E (items body);
                           let result := PSearch games (total body) page limit in
                           cacheData (search_key query limit page) result;;
                           mret result
                       end)) h w)
          by (unfold try_catch; by rewrite bind_assoc)
    end.
    apply logs_call_first; [mon|]. intros e. mon.
  - intros force -> Hnone. unfold outcome. rewrite (Hmiss force Hnone).
    unfold fetch_trending, fetch_json, stale_or_empty. unfold_M.
    destruct (http_most_played E) as [| | |[ranks|]]; cbn;
      rewrite ?getCachedData_eq; cbn [storage]; rewrite ?Hnone; reflexivity.
  - intros force ranks Hneg Hnone Hbody. unfold outcome. rewrite (Hmiss force Hnone).
    unfold fetch_trending, fetch_json. rewrite Hbody. unfold_M.
    match goal with
    | |- context [enrichGameData E ?l ?w1] =>
        destruct (enrichGameData_total E l w1) as (games & w2 & -> & Hlen)
    end.
    exists games. split; [reflexivity|].
    rewrite Hlen, length_map. unfold JS.slice0.
    destruct (Z.ltb_spec limit 0); rewrite length_take; lia.
Qed.

Lemma nonpositive_limit_behaviour_witness :
  outcome (getTrendingGames ranked 0 false) empty_world = Ok (PGames []).
Proof.
  refine (proj1 (proj2 (proj2 (proj2 (proj2
            (nonpositive_limit_behaviour ranked 0 empty_world _))))) false _ _).
  - lia.
  - reflexivity.
  - reflexivity.
Defined.

End CacheProps.

(** ** Sorting and slicing *)

Module SortFacts.
Section Sorting.

Context {A : Type} (cmp : A → A → Z).

Local Abbreviation before := (JS.before cmp).

Lemma insert_by_perm x l : Permutation (JS.insert_by cmp x l) (x :: l).
Proof.
  induction l as [|y ys IH]; simpl; [done|].
  destruct (cmp x y <=? 0); [done|].
  rewrite IH. apply perm_swap.
Qed.

Lemma sort_perm l : Permutation (JS.sort cmp l) l.
Proof.
  induction l as [|x xs IH]; simpl; [done|].
  rewrite insert_by_perm. by constructor.
Qed.

Lemma elem_of_sort x l : x ∈ JS.sort cmp l ↔ x ∈ l.
Proof. by rewrite sort_perm. Qed.

Lemma length_sort l : length (JS.sort cmp l) = length l.
Proof. by rewrite sort_perm. Qed.

Hypothesis cmp_total : ∀ x y, 0 < cmp x y → cmp y x ≤ 0.

Lemma insert_by_hd x y l :
  before y x → HdRel before y l → HdRel before y (JS.insert_by cmp x l).
Proof.
  intros Hyx Hl. destruct l as [|z zs]; simpl; [by constructor|].
  destruct (cmp x z <=? 0); constructor; [done|].
  by inversion Hl.
Qed.

Lemma insert_by_sorted x l :
  Sorted before l → Sorted before (JS.insert_by cmp x l).
Proof.
  induction 1 as [|y ys Hs IH Hhd]; simpl; [by repeat constructor|].
  destruct (Z.leb_spec (cmp x y) 0) as [Hle|Hgt].
  - constructor; [by constructor|]. by constructor.
  - constructor; [done|]. apply insert_by_hd; [|done]. by apply cmp_total.
Qed.

Lemma sort_sorted l : Sorted before (JS.sort cmp l).
Proof.
  induction l as [|x xs IH]; simpl; [constructor|]. by apply insert_by_sorted.
Qed.

End Sorting.

Section Slicing.

Context {A : Type}.

Lemma elem_of_slice0 (x : A) n l : x ∈ JS.slice0 n l → x ∈ l.
Proof.
  unfold JS.slice0. destruct (n <? 0); intros H;
    apply elem_of_take in H as (i & Hi & _); by eapply list_elem_of_lookup_2.
Qed.

Lemma length_slice0 n (l : list A) :
  0 ≤ n → (length (JS.slice0 n l) ≤ Z.to_nat n)%nat.
Proof.
  intros Hn. unfold JS.slice0. destruct (Z.ltb_spec n 0); [lia|].
  rewrite length_take. lia.
Qed.

Lemma take_sorted (R : A → A → Prop) n l : Sorted R l → Sorted R (take n l).
Proof.
  intros Hs. revert n. induction Hs as [|x xs Hs IH Hhd]; intros [|n]; simpl;
    try constructor; [apply IH|].
  destruct Hhd, n; simpl; by constructor.
Qed.

Lemma Sorted_weaken (R R' : A → A → Prop) l :
  (∀ a b, R a b → R' a b) → Sorted R l → Sorted R' l.
Proof.
  intros HR. induction 1 as [|x xs Hs IH Hhd]; constructor; [done|].
  destruct Hhd; constructor. by apply HR.
Qed.

Lemma slice0_sorted (R : A → A → Prop) n l : Sorted R l → Sorted R (JS.slice0 n l).
Proof. unfold JS.slice0. destruct (n <? 0); apply take_sorted. Qed.

End Slicing.
End SortFacts.

(** ** The pure helpers *)

Module HelperProps.
Import Samples SortFacts.

Lemma formatPlaytime_one : formatPlaytime 1 = "1 minute".
Proof. reflexivity. Qed.

Lemma formatPlaytime_two_hours : formatPlaytime 120 = "2 hours".
Proof. reflexivity. Qed.

(** C9: [formatPlaytime] on the five minute counts of the
    specification, and on every count that is not negative: the minutes
    with their singular or plural under an hour, the hours with their
    singular or plural on a whole number of hours, and hours and minutes
    in short form otherwise. *)
Theorem formatPlaytime_correct :
  formatPlaytime 0 = "0 minutes" ∧
  formatPlaytime 59 = "59 minutes" ∧
  formatPlaytime 60 = "1 hour" ∧
  formatPlaytime 90 = "1h 30m" ∧
  formatPlaytime 125 = "2h 5m" ∧
  ∀ minutes, 0 ≤ minutes →
    (minutes < 60 →
       formatPlaytime minutes
       = pretty minutes +:+ (if decide (minutes = 1) then " minute" else " minutes")) ∧
    (60 ≤ minutes → minutes `mod` 60 = 0 →
       formatPlaytime minutes
       = pretty (minutes / 60) +:+ (if decide (minutes / 60 = 1) then " hour" else " hours")) ∧
    (60 ≤ minutes → minutes `mod` 60 ≠ 0 →
       formatPlaytime minutes
       = pretty (minutes / 60) +:+ "h " +:+ pretty (minutes `mod` 60) +:+ "m").
Proof.
  do 5 (split; [reflexivity|]).
  intros m Hm. unfold formatPlaytime.
  rewrite (Z.rem_mod_nonneg m 60) by lia.
  split; [|split].
  - intros Hlt. destruct (Z.eqb_spec m 0) as [->|Hne]; [reflexivity|].
    rewrite (Z.div_small m 60), (Z.mod_small m 60) by lia. cbn [Z.eqb].
    destruct (Z.eqb_spec m 1), (decide (m = 1)); try lia; reflexivity.
  - intros Hge Hmod. assert (1 ≤ m / 60) by (apply Z.div_le_lower_bound; lia).
    destruct (Z.eqb_spec m 0); [lia|].
    destruct (Z.eqb_spec (m / 60) 0); [lia|]. rewrite Hmod. cbn [Z.eqb].
    destruct (Z.eqb_spec (m / 60) 1), (decide (m / 60 = 1)); try lia; reflexivity.
  - intros Hge Hmod. assert (1 ≤ m / 60) by (apply Z.div_le_lower_bound; lia).
    destruct (Z.eqb_spec m 0); [lia|].
    destruct (Z.eqb_spec (m / 60) 0); [lia|].
    destruct (Z.eqb_spec (m `mod` 60) 0); [lia|]. reflexivity.
Qed.

Lemma formatPlaytime_correct_witness : formatPlaytime 125 = "2h 5m".
Proof.
  pose proof (proj2 (proj2 (proj2 (proj2 (proj2 formatPlaytime_correct))))) as H.
  refine (proj2 (proj2 (H 125 _)) _ _); [lia | lia | by vm_compute].
Defined.

(** Where the items of the feed come from. *)
Lemma elem_of_recentlyPlayed a steamGames :
  a ∈ recentlyPlayed steamGames →
  ∃ g, g ∈ steamGames ∧ a = played_item g ∧ is_recently_played g = true.
Proof.
  unfold recentlyPlayed. intros (g & -> & Hg)%list_elem_of_fmap.
  apply elem_of_slice0, elem_of_sort, list_elem_of_In, filter_In in Hg as [Hin Hp].
  exists g. by rewrite list_elem_of_In.
Qed.

Lemma elem_of_finishedGames a steamGames :
  a ∈ finishedGames steamGames →
  ∃ g, g ∈ steamGames ∧ a = finished_item g ∧ is_finished_heuristic g = true.
Proof.
  unfold finishedGames. intros (g & -> & Hg)%list_elem_of_fmap.
  apply elem_of_slice0, elem_of_sort, list_elem_of_In, filter_In in Hg as [Hin Hp].
  exists g. by rewrite list_elem_of_In.
Qed.

Lemma elem_of_getRecentActivity a steamGames :
  a ∈ getRecentActivity steamGames →
  a ∈ recentlyPlayed steamGames ∨ a ∈ finishedGames steamGames.
Proof.
  unfold getRecentActivity. destruct (length steamGames =? 0)%nat.
  - by intros ?%elem_of_nil.
  - intros H. by apply elem_of_slice0, elem_of_sort, elem_of_app in H.
Qed.

(** C10: every [played] item of the feed comes from an entry that has a
    last-played time and recent playtime; so an entry without a
    last-played time gives no [played] item, even with recent playtime.
    An item without a time is a [finished] item, of an entry with some
    total and no recent playtime, and the feed is ordered newest first
    with a missing time counted as time 0. *)
Theorem getRecentActivity_played_has_time (steamGames : list LibraryEntry) :
  (∀ a, a ∈ getRecentActivity steamGames → action a = act_played →
     ∃ g, g ∈ steamGames ∧ a = played_item g ∧
          is_Some (steamLastPlayed g) ∧ JS.gt0 (steamPlaytimeRecent g) = true) ∧
  (∀ g, steamLastPlayed g = None → played_item g ∉ getRecentActivity steamGames) ∧
  (∀ a, a ∈ getRecentActivity steamGames → timestamp a = None →
     action a = act_finished ∧
     ∃ g, g ∈ steamGames ∧ a = finished_item g ∧ steamLastPlayed g = None ∧
          JS.gt0 (steamPlaytimeTotal g) = true ∧ steamPlaytimeRecent g = Some 0) ∧
  Sorted (λ a b, JS.time_of (timestamp b) ≤ JS.time_of (timestamp a))
         (getRecentActivity steamGames).
Proof.
  assert (Hplayed : ∀ a, a ∈ getRecentActivity steamGames → action a = act_played →
     ∃ g, g ∈ steamGames ∧ a = played_item g ∧
          is_Some (steamLastPlayed g) ∧ JS.gt0 (steamPlaytimeRecent g) = true).
  { intros a [H|H]%elem_of_getRecentActivity Hact.
    - apply elem_of_recentlyPlayed in H as (g & Hin & -> & Hp).
      apply andb_prop in Hp as [Hlast Hrecent].
      exists g. by apply bool_decide_eq_true in Hlast.
    - apply elem_of_finishedGames in H as (g & _ & -> & _). discriminate. }
  split; [exact Hplayed|]. split; [|split].
  - intros g Hnone Hin.
    destruct (Hplayed _ Hin eq_refl) as (g' & _ & Heq & [t Ht] & _).
    apply (f_equal timestamp) in Heq. simpl in Heq. congruence.
  - intros a Hin Hts.
    destruct (action a) eqn:Hact.
    + destruct (Hplayed _ Hin Hact) as (g & _ & -> & [t Ht] & _).
      simpl in Hts. congruence.
    + split; [done|].
      apply elem_of_getRecentActivity in Hin as [H|H].
      * apply elem_of_recentlyPlayed in H as (g & _ & -> & _). discriminate.
      * apply elem_of_finishedGames in H as (g & Hin & -> & Hp).
        apply andb_prop in Hp as [Htotal Hrecent].
        exists g. repeat split; try done.
        unfold JS.is0 in Hrecent. destruct (steamPlaytimeRecent g); [|done].
        apply Z.eqb_eq in Hrecent. by subst.
  - unfold getRecentActivity. destruct (length steamGames =? 0)%nat; [constructor|].
    apply slice0_sorted.
    eapply Sorted_weaken; [|apply (sort_sorted by_timestamp)].
    + intros a b. unfold JS.before, by_timestamp. lia.
    + intros x y. unfold by_timestamp. lia.
Qed.

Lemma getRecentActivity_played_has_time_witness :
  played_item entry_without_last_played ∉ getRecentActivity [entry_without_last_played].
Proof.
  refine (proj1 (proj2 (getRecentActivity_played_has_time [entry_without_last_played]))
                entry_without_last_played _).
  reflexivity.
Defined.

End HelperProps.

(** ** Library sync *)

Module SyncFacts.
Import Sync.

Lemma keys_differ userId : steam_games_key userId ≠ library_entries_key userId.
Proof. unfold steam_games_key, library_entries_key. intros H. cbv [String.append] in H. discriminate H. Qed.

(** *** The conversion of the last-played time *)

Lemma date_fits_dec game : date_fits game ∨ ¬ date_fits game.
Proof.
  unfold date_fits. destruct (lastPlayed game) as [t|]; [|by left].
  destruct (Z_le_dec (Z.abs (t * 1000)) 8640000000000000) as [Hle|Hgt].
  - left. by intros t' [= <-].
  - right. intros Hfit. by apply Hgt, Hfit.
Qed.

Lemma iso_of_lastPlayed_Ok game iso :
  iso_of_lastPlayed (lastPlayed game) = Ok iso →
  date_fits game ∧ iso = last_played_ms game.
Proof.
  unfold date_fits, last_played_ms, iso_of_lastPlayed, toISOString, MAX_TIME_VALUE,
    JS.truthy_num.
  destruct (lastPlayed game) as [t|]; [|by intros [= <-]].
  destruct (Z.eqb_spec t 0) as [->|Hne]; cbn [negb].
  - intros [= <-]. split; [|done]. intros t [= <-]. lia.
  - destruct (Z.leb_spec (Z.abs (t * 1000)) 8640000000000000) as [Hle|Hgt]; [|done].
    intros [= <-]. split; [|done]. by intros t' [= <-].
Qed.

Lemma iso_of_lastPlayed_fits game :
  date_fits game → iso_of_lastPlayed (lastPlayed game) = Ok (last_played_ms game).
Proof.
  unfold date_fits, last_played_ms, iso_of_lastPlayed, toISOString, MAX_TIME_VALUE,
    JS.truthy_num.
  intros Hfit. destruct (lastPlayed game) as [t|]; [|done].
  destruct (Z.eqb_spec t 0) as [->|Hne]; cbn [negb]; [done|].
  specialize (Hfit t eq_refl).
  by destruct (Z.leb_spec (Z.abs (t * 1000)) 8640000000000000) as [Hle|Hgt]; [|lia].
Qed.

Lemma iso_of_lastPlayed_unfit game :
  ¬ date_fits game → iso_of_lastPlayed (lastPlayed game) = Throw "RangeError: Invalid time value".
Proof.
  intros Hunfit. destruct (iso_of_lastPlayed (lastPlayed game)) as [iso|msg] eqn:Hiso.
  - by apply iso_of_lastPlayed_Ok in Hiso as [Hfit _].
  - revert Hiso. unfold iso_of_lastPlayed, toISOString.
    destruct (lastPlayed game) as [t|]; [|done].
    destruct (JS.truthy_num (Some t)); [|done].
    by destruct (Z.abs (t * 1000) <=? MAX_TIME_VALUE); intros [= <-].
Qed.

Lemma library_entry_of_Ok userId now game entry :
  library_entry_of userId now game = Ok entry →
  date_fits game ∧ entry = library_entry_with (last_played_ms game) userId now game.
Proof.
  unfold library_entry_of.
  destruct (iso_of_lastPlayed (lastPlayed game)) as [iso|msg] eqn:Hiso; [|done].
  apply iso_of_lastPlayed_Ok in Hiso as [Hfit ->]. by intros [= <-].
Qed.

Lemma library_entry_of_fits userId now game :
  date_fits game →
  library_entry_of userId now game
  = Ok (library_entry_with (last_played_ms game) userId now game).
Proof. intros Hfit. unfold library_entry_of. by rewrite iso_of_lastPlayed_fits. Qed.

Lemma library_entry_of_unfit userId now game :
  ¬ date_fits game →
  library_entry_of userId now game = Throw "RangeError: Invalid time value".
Proof. intros Hunfit. unfold library_entry_of. by rewrite iso_of_lastPlayed_unfit. Qed.

Lemma entry_input_of_Ok userId game input :
  entry_input_of userId game = Ok input →
  date_fits game ∧ input = entry_input_with (last_played_ms game) userId game.
Proof.
  unfold entry_input_of.
  destruct (iso_of_lastPlayed (lastPlayed game)) as [iso|msg] eqn:Hiso; [|done].
  apply iso_of_lastPlayed_Ok in Hiso as [Hfit ->]. by intros [= <-].
Qed.

Lemma entry_input_of_fits userId game :
  date_fits game →
  entry_input_of userId game = Ok (entry_input_with (last_played_ms game) userId game).
Proof. intros Hfit. unfold entry_input_of. by rewrite iso_of_lastPlayed_fits. Qed.

Lemma entry_input_of_unfit userId game :
  ¬ date_fits game → entry_input_of userId game = Throw "RangeError: Invalid time value".
Proof. intros Hunfit. unfold entry_input_of. by rewrite iso_of_lastPlayed_unfit. Qed.

(** The entry made for a game, field by field. *)
Lemma library_entry_of_mirrors userId now game entry :
  library_entry_of userId now game = Ok entry → entry_of_game userId game entry.
Proof. intros [_ ->]%library_entry_of_Ok. unfold entry_of_game. by cbn. Qed.

(** *** Mapping with a callback that may throw *)

Lemma map_result_Ok {A B} (f : A → result B) l ys :
  map_result f l = Ok ys ↔ Forall2 (λ x y, f x = Ok y) l ys.
Proof.
  revert ys. induction l as [|x rest IH]; intros ys; cbn.
  - split; [intros [= <-]; constructor|by intros ->%Forall2_nil_inv_l].
  - destruct (f x) as [y|msg] eqn:Hfx.
    + destruct (map_result f rest) as [ys'|msg] eqn:Hrest.
      * split.
        -- intros [= <-]. constructor; [done|]. by apply IH.
        -- intros (y' & ys'' & Hy & Hys & ->)%Forall2_cons_inv_l.
           apply IH in Hys. congruence.
      * split; [done|].
        intros (y' & ys'' & Hy & Hys & ->)%Forall2_cons_inv_l.
        by apply IH in Hys.
    + split; [done|].
      intros (y' & ys'' & Hy & Hys & ->)%Forall2_cons_inv_l. congruence.
Qed.

Lemma map_result_Throw {A B} (f : A → result B) l :
  Exists (λ x, ∃ msg, f x = Throw msg) l → ∃ msg, map_result f l = Throw msg.
Proof.
  induction 1 as [x rest [msg Hx]|x rest _ [msg IH]]; cbn.
  - rewrite Hx. by exists msg.
  - rewrite IH. destruct (f x); by eexists.
Qed.

Lemma all_fit_or_not games :
  Forall date_fits games ∨ Exists (λ game, ¬ date_fits game) games.
Proof.
  induction games as [|game rest [IH|IH]].
  - left. constructor.
  - destruct (date_fits_dec game); [left|right]; by constructor.
  - right. by constructor.
Qed.

Lemma entries_made userId now games :
  Forall date_fits games →
  ∃ entries, map_result (library_entry_of userId now) games = Ok entries.
Proof.
  intros Hfit.
  exists (map (λ game, library_entry_with (last_played_ms game) userId now game) games).
  apply map_result_Ok, Forall2_fmap_r, Forall_Forall2_diag.
  eapply Forall_impl; [exact Hfit|]. intros game. apply library_entry_of_fits.
Qed.

Lemma entries_not_made userId now games :
  ¬ Forall date_fits games →
  ∃ msg, map_result (library_entry_of userId now) games = Throw msg.
Proof.
  intros Hunfit. destruct (all_fit_or_not games) as [|Hex]; [done|].
  apply map_result_Throw. eapply Exists_impl; [exact Hex|].
  intros game Hgame. eexists. by apply library_entry_of_unfit.
Qed.

(** *** The requests to the data client *)

Lemma requests_of_spec E userId game :
  game_fields game (game_input_of game) ∧
  (data_game_create E (game_input_of game) = false →
     requests_of E userId game = [GameCreate (game_input_of game)]) ∧
  (¬ date_fits game → requests_of E userId game = [GameCreate (game_input_of game)]) ∧
  (data_game_create E (game_input_of game) = true → date_fits game →
     ∃ input, entry_fields userId game input ∧
              requests_of E userId game
              = [GameCreate (game_input_of game); LibraryEntryCreate input]).
Proof.
  unfold requests_of. split; [by unfold game_fields|]. split; [by intros ->|]. split.
  - intros Hunfit. rewrite entry_input_of_unfit by done. by destruct (data_game_create E _).
  - intros -> Hfit. rewrite entry_input_of_fits by done. eexists. split; [|done].
    unfold entry_fields, cover_of. by cbn.
Qed.

Lemma store_one_game_run E userId game w :
  ∃ w', store_one_game E userId game w = (Ok (), w') ∧
        storage w' = storage w ∧ events w' = events w ∧
        calls w' = calls w ++ requests_of E userId game.
Proof.
  unfold store_one_game, data_call, requests_of. unfold_M.
  destruct (data_game_create E _);
    [destruct (entry_input_of userId game) as [input|msg];
       [destruct (data_entry_create E input)|]|];
    eexists; (split; [reflexivity|]); cbn; by rewrite <- ?app_assoc.
Qed.

Lemma store_games_loop_run E userId games w :
  ∃ w', store_games_loop E userId games w = (Ok (), w') ∧
        storage w' = storage w ∧ events w' = events w ∧
        calls w' = calls w ++ flat_map (requests_of E userId) games.
Proof.
  revert w. induction games as [|game rest IH]; intros w.
  - exists w. by rewrite app_nil_r.
  - cbn [store_games_loop flat_map]. unfold mbind, M_bind, bind.
    destruct (store_one_game_run E userId game w) as (w1 & -> & Hs1 & He1 & Hc1).
    destruct (IH w1) as (w2 & -> & Hs2 & He2 & Hc2).
    exists w2. rewrite Hs2, He2, Hc2, Hs1, He1, Hc1. by rewrite app_assoc.
Qed.

(** *** The runs of [syncGameLibrary] *)

(** A run on an answer with at least one valid game, the data client
    being there: the raw games are stored and the requests sent, then
    the entries are made; the run ends as their making does. *)
Lemma syncGameLibrary_eq E userId steamId games w :
  gql_syncSteamLibrary E steamId = Some (Some games) →
  List.filter is_valid_game games ≠ [] →
  data_client_init E = true →
  let validGames := List.filter is_valid_game games in
  ∃ w1, storage w1 = <[steam_games_key userId := ISteamGames validGames]> (storage w) ∧
        events w1 = events w ∧
        calls w1 = calls w ++ [GqlSyncSteamLibrary steamId; DataClientInit]
                           ++ flat_map (requests_of E userId) validGames ∧
        syncGameLibrary E userId steamId w =
        match map_result (library_entry_of userId (clock w1)) validGames with
        | Ok entries =>
            (Ok (), {| storage := <[library_entries_key userId := ILibraryEntries entries]>
                                    (storage w1);
                       clock := clock w1; calls := calls w1;
                       events := events w1 ++ [steamLibrarySynced userId (length validGames)] |})
        | Throw e => (Throw e, w1)
        end.
Proof.
  intros Hgql Hvalid Hinit validGames.
  unfold syncGameLibrary, storeGamesInDatabase, data_call. rewrite Hgql, Hinit.
  fold validGames. destruct (Nat.eqb_spec (length validGames) 0) as [Hlen|_].
  { exfalso. apply Hvalid. by apply nil_length_inv. }
  unfold_M.
  match goal with
  | |- context [store_games_loop E userId validGames ?w1] =>
      destruct (store_games_loop_run E userId validGames w1) as (w2 & -> & Hs & He & Hc)
  end.
  exists w2. cbn in Hs, He, Hc. rewrite Hs, He, Hc.
  split; [done|]. split; [done|]. split; [by rewrite <- !app_assoc|].
  by destruct (map_result (library_entry_of userId (clock w2)) validGames).
Qed.

(** The same run when every last-played time can be converted. *)
Lemma syncGameLibrary_run E userId steamId games w :
  gql_syncSteamLibrary E steamId = Some (Some games) →
  List.filter is_valid_game games ≠ [] →
  data_client_init E = true →
  Forall date_fits (List.filter is_valid_game games) →
  let validGames := List.filter is_valid_game games in
  ∃ w' entries,
    syncGameLibrary E userId steamId w = (Ok (), w') ∧
    Forall2 (λ game entry, library_entry_of userId (clock w') game = Ok entry)
            validGames entries ∧
    storage w' =
      <[library_entries_key userId := ILibraryEntries entries]>
        (<[steam_games_key userId := ISteamGames validGames]> (storage w)) ∧
    events w' = events w ++ [steamLibrarySynced userId (length validGames)] ∧
    calls w' = calls w ++ [GqlSyncSteamLibrary steamId; DataClientInit]
                       ++ flat_map (requests_of E userId) validGames.
Proof.
  intros Hgql Hvalid Hinit Hfit validGames.
  destruct (syncGameLibrary_eq E userId steamId games w Hgql Hvalid Hinit)
    as (w1 & Hs & He & Hc & ->).
  destruct (entries_made userId (clock w1) _ Hfit) as [entries Hmap].
  fold validGames in Hmap |- *. rewrite Hmap.
  eexists _, entries. split; [reflexivity|]. cbn [storage clock calls events].
  rewrite Hs, He, Hc. split; [by apply map_result_Ok|done].
Qed.

(** The same run when some last-played time cannot: it throws once the
    raw games are stored and the requests sent, before any entry is
    stored or any event sent. *)
Lemma syncGameLibrary_date_failure E userId steamId games w :
  gql_syncSteamLibrary E steamId = Some (Some games) →
  List.filter is_valid_game games ≠ [] →
  data_client_init E = true →
  ¬ Forall date_fits (List.filter is_valid_game games) →
  let validGames := List.filter is_valid_game games in
  ∃ msg w',
    syncGameLibrary E userId steamId w = (Throw msg, w') ∧
    storage w' = <[steam_games_key userId := ISteamGames validGames]> (storage w) ∧
    events w' = events w ∧
    calls w' = calls w ++ [GqlSyncSteamLibrary steamId; DataClientInit]
                       ++ flat_map (requests_of E userId) validGames.
Proof.
  intros Hgql Hvalid Hinit Hunfit validGames.
  destruct (syncGameLibrary_eq E userId steamId games w Hgql Hvalid Hinit)
    as (w1 & Hs & He & Hc & ->).
  destruct (entries_not_made userId (clock w1) _ Hunfit) as [msg Hmap].
  fold validGames in Hmap |- *. rewrite Hmap. by exists msg, w1.
Qed.

(** The run when the data client cannot be set up. *)
Lemma syncGameLibrary_no_client E userId steamId games w :
  gql_syncSteamLibrary E steamId = Some (Some games) →
  List.filter is_valid_game games ≠ [] →
  data_client_init E = false →
  ∃ msg w',
    syncGameLibrary E userId steamId w = (Throw msg, w') ∧
    storage w' = <[steam_games_key userId :=
                     ISteamGames (List.filter is_valid_game games)]> (storage w) ∧
    events w' = events w ∧
    calls w' = calls w ++ [GqlSyncSteamLibrary steamId; DataClientInit].
Proof.
  intros Hgql Hvalid Hinit.
  unfold syncGameLibrary, storeGamesInDatabase, data_call. rewrite Hgql, Hinit.
  destruct (Nat.eqb_spec (length (List.filter is_valid_game games)) 0) as [Hlen|_].
  { exfalso. apply Hvalid. by apply nil_length_inv. }
  eexists _, _. split; [reflexivity|]. cbn. by rewrite <- app_assoc.
Qed.

(** When a run with valid games returns normally. *)
Lemma syncGameLibrary_Ok_iff E userId steamId games w :
  gql_syncSteamLibrary E steamId = Some (Some games) →
  List.filter is_valid_game games ≠ [] →
  outcome (syncGameLibrary E userId steamId) w = Ok () ↔
  data_client_init E = true ∧ Forall date_fits (List.filter is_valid_game games).
Proof.
  intros Hgql Hvalid. unfold outcome. split.
  - intros Hok. destruct (data_client_init E) eqn:Hinit.
    + split; [done|].
      destruct (all_fit_or_not (List.filter is_valid_game games)) as [|Hex]; [done|].
      assert (Hunfit : ¬ Forall date_fits (List.filter is_valid_game games)).
      { intros Hall. apply Exists_exists in Hex as (game & Hin & Hgame).
        by apply Hgame, (proj1 (Forall_forall _ _) Hall). }
      destruct (syncGameLibrary_date_failure E userId steamId games w Hgql Hvalid Hinit Hunfit)
        as (msg & w' & Hrun & _).
      by rewrite Hrun in Hok.
    + destruct (syncGameLibrary_no_client E userId steamId games w Hgql Hvalid Hinit)
        as (msg & w' & Hrun & _).
      by rewrite Hrun in Hok.
  - intros [Hinit Hfit].
    destruct (syncGameLibrary_run E userId steamId games w Hgql Hvalid Hinit Hfit)
      as (w' & entries & -> & _).
    done.
Qed.

(** A run on an answer without any valid game. *)
Lemma syncGameLibrary_nothing E userId steamId games w :
  gql_syncSteamLibrary E steamId = Some (Some games) →
  List.filter is_valid_game games = [] →
  ∃ w', syncGameLibrary E userId steamId w = (Ok (), w') ∧
        storage w' =
          <[library_entries_key userId := ILibraryEntries []]>
            (<[steam_games_key userId := ISteamGames []]> (storage w)) ∧
        events w' = events w ∧
        calls w' = calls w ++ [GqlSyncSteamLibrary steamId].
Proof.
  intros Hgql Hvalid. unfold syncGameLibrary. rewrite Hgql, Hvalid.
  eexists. split; reflexivity || (repeat split).
Qed.

(** What a run that returned normally has stored, with or without valid
    games. *)
Lemma syncGameLibrary_stored E userId steamId games w :
  gql_syncSteamLibrary E steamId = Some (Some games) →
  outcome (syncGameLibrary E userId steamId) w = Ok () →
  let validGames := List.filter is_valid_game games in
  let w' := after (syncGameLibrary E userId steamId) w in
  Forall2 (λ game entry, library_entry_of userId (clock w') game = Ok entry)
          validGames (stored_entries userId w') ∧
  storage w' !! steam_games_key userId = Some (ISteamGames validGames) ∧
  (validGames ≠ [] →
     events w' = events w ++ [steamLibrarySynced userId (length validGames)] ∧
     calls w' = calls w ++ [GqlSyncSteamLibrary steamId; DataClientInit]
                        ++ flat_map (requests_of E userId) validGames) ∧
  (validGames = [] →
     events w' = events w ∧ calls w' = calls w ++ [GqlSyncSteamLibrary steamId]).
Proof.
  intros Hgql Hok validGames w'.
  destruct (decide (validGames = [])) as [Hnone|Hsome].
  - destruct (syncGameLibrary_nothing E userId steamId games w Hgql Hnone)
      as (wa & Hrun & Hs & He & Hc).
    assert (Hw' : w' = wa) by (unfold w', after; by rewrite Hrun).
    unfold stored_entries. rewrite Hw', Hs, lookup_insert_eq, Hnone.
    split; [constructor|]. split; [|done].
    rewrite lookup_insert_ne by (apply not_eq_sym, keys_differ).
    apply lookup_insert_eq.
  - apply (syncGameLibrary_Ok_iff E userId steamId games w Hgql Hsome) in Hok
      as [Hinit Hfit].
    destruct (syncGameLibrary_run E userId steamId games w Hgql Hsome Hinit Hfit)
      as (wa & entries & Hrun & Hmade & Hs & He & Hc).
    assert (Hw' : w' = wa) by (unfold w', after; by rewrite Hrun).
    unfold stored_entries. rewrite Hw', Hs, lookup_insert_eq.
    split; [done|]. split; [|done].
    rewrite lookup_insert_ne by (apply not_eq_sym, keys_differ).
    apply lookup_insert_eq.
Qed.

Lemma is_valid_game_spec game :
  is_valid_game game = true ↔
  (∃ id, appId game = Some id ∧ id ≠ 0) ∧ (∃ n, name game = Some n ∧ n ≠ "").
Proof.
  unfold is_valid_game, JS.truthy_num, JS.truthy_str.
  rewrite andb_true_iff. split.
  - intros [Hid Hname].
    destruct (appId game) as [id|]; [|done]. destruct (name game) as [n|]; [|done].
    apply negb_true_iff in Hid, Hname.
    apply Z.eqb_neq in Hid. apply String.eqb_neq in Hname. split; eauto.
  - intros [(id & -> & Hid) (n & -> & Hname)].
    by rewrite negb_true_iff, negb_true_iff, Z.eqb_neq, String.eqb_neq.
Qed.

(** The filter keeps a sublist and drops the rest. *)
Lemma valid_games_sublist {A} (f : A → bool) l : List.filter f l `sublist_of` l.
Proof.
  induction l as [|x l IH]; cbn; [constructor|].
  destruct (f x); by constructor.
Qed.

Lemma filter_partition {A} (f : A → bool) l :
  Permutation l (List.filter f l ++ List.filter (λ x, negb (f x)) l).
Proof.
  induction l as [|x l IH]; cbn; [done|].
  destruct (f x); cbn.
  - by constructor.
  - by apply Permutation_cons_app.
Qed.

Lemma invalid_game_spec game :
  negb (is_valid_game game) = true →
  appId game = None ∨ appId game = Some 0 ∨ name game = None ∨ name game = Some "".
Proof.
  unfold is_valid_game, JS.truthy_num, JS.truthy_str.
  destruct (appId game) as [id|]; [|by left].
  destruct (Z.eqb_spec id 0) as [->|_]; [by right; left|].
  destruct (name game) as [n|]; [|by right; right; left].
  destruct (String.eqb_spec n "") as [->|_]; [by right; right; right|done].
Qed.

(** Two lists related element by element have related images. *)
Lemma Forall2_fmap_eq {A B C} (R : A → B → Prop) (f : B → C) (h : A → C) l k :
  Forall2 R l k → (∀ a b, R a b → f b = h a) → map f k = map h l.
Proof.
  intros HR Hfh. induction HR as [|a b l k Hab _ IH]; [done|].
  cbn. rewrite IH. f_equal. by apply Hfh.
Qed.

(** Games with distinct app ids give entries with distinct app ids. *)
Lemma entries_app_ids userId games entries :
  Forall2 (entry_of_game userId) games entries →
  map steamAppId entries = map appId games.
Proof.
  intros Hmirror. apply (Forall2_fmap_eq _ _ _ _ _ Hmirror).
  intros game entry Hentry. apply Hentry.
Qed.

End SyncFacts.

Module SyncProps.
Import Sync SyncFacts Samples.

(** C2: the status of the entry made for an owned game, in the local
    collection and in the request to the data client alike, is
    [planning] when the total playtime is 0, [playing] when total and
    recent playtime are positive, [paused] when the total is positive
    and the recent playtime is 0, however large the values and whatever
    the last-played date [iso]; it is never [finished] nor [dropped].
    Every entry the sync makes, and every request it builds, has that
    status. *)
Theorem sync_status_policy (userId : string) (now : Z) (game : SteamGame)
    (iso : option Z) :
  let entry := library_entry_with iso userId now game in
  ei_status (entry_input_with iso userId game) = status entry ∧
  (playtimeTotal game = 0 → status entry = planning) ∧
  (0 < playtimeTotal game → 0 < playtimeRecent game → status entry = playing) ∧
  (0 < playtimeTotal game → playtimeRecent game = 0 → status entry = paused) ∧
  status entry ≠ finished ∧ status entry ≠ dropped ∧
  (∀ made, library_entry_of userId now game = Ok made → status made = status entry) ∧
  (∀ input, entry_input_of userId game = Ok input → ei_status input = status entry).
Proof.
  cbn. split; [done|].
  assert (Hmade : ∀ made, library_entry_of userId now game = Ok made →
            status made = sync_status (playtimeTotal game) (playtimeRecent game)).
  { by intros made [_ ->]%library_entry_of_Ok. }
  assert (Hinput : ∀ input, entry_input_of userId game = Ok input →
            ei_status input = sync_status (playtimeTotal game) (playtimeRecent game)).
  { by intros input [_ ->]%entry_input_of_Ok. }
  revert Hmade Hinput. unfold sync_status.
  destruct (Z.ltb_spec 0 (playtimeTotal game)), (Z.ltb_spec 0 (playtimeRecent game));
    repeat split; intros; (done || lia || eauto).
Qed.

Lemma sync_status_policy_witness :
  status (library_entry_with (Some 1700000000000) "u" 0 game_A) = playing ∧
  status (library_entry_with None "u" 0 game_B) = planning ∧
  (∀ made, library_entry_of "u" 0 game_A = Ok made → status made = playing).
Proof.
  split; [|split].
  - refine (proj1 (proj2 (proj2 (sync_status_policy "u" 0 game_A
                                   (Some 1700000000000)))) _ _);
      cbn; lia.
  - refine (proj1 (proj2 (sync_status_policy "u" 0 game_B None)) _). reflexivity.
  - exact (proj1 (proj2 (proj2 (proj2 (proj2 (proj2 (proj2
             (sync_status_policy "u" 0 game_A (Some 1700000000000))))))))).
Defined.

(** C3, as the specification states it, fails: a valid game is not
    always persisted. A game with an identifier and a name whose last
    play lies beyond the dates of JavaScript makes the sync throw, with
    the gateway and the data client working: the game was asked to be
    created, but no library entry was, and none is stored. So does a
    data client that cannot be set up, for an everyday game. *)
Lemma syncGameLibrary_valid_game_lost_counterexample :
  let run := syncGameLibrary (steam_with [game_far_future]) "u" "s" in
  let run' := syncGameLibrary MoreSamples.steam_without_client "u" "s" in
  List.filter is_valid_game [game_far_future] = [game_far_future] ∧
  outcome run empty_world = Throw "RangeError: Invalid time value" ∧
  storage (after run empty_world) !! library_entries_key "u" = None ∧
  calls (after run empty_world)
    = [GqlSyncSteamLibrary "s"; DataClientInit; GameCreate (game_input_of game_far_future)] ∧
  List.filter is_valid_game [game_A] = [game_A] ∧
  outcome run' empty_world = Throw "data client error" ∧
  storage (after run' empty_world) !! library_entries_key "u" = None ∧
  calls (after run' empty_world) = [GqlSyncSteamLibrary "s"; DataClientInit].
Proof. repeat split; vm_compute; reflexivity. Qed.

(** C3, amended. Of the games the gateway sends, the sync keeps exactly
    those that have an identifier and a name, in order (an identifier
    that is null or 0, a name that is null or empty, count as missing).
    Without any such game it writes two empty collections and returns
    normally, without a word to the data client. With some, it returns
    normally exactly when the data client can be set up and the
    last-played time of every valid game is a date JavaScript can hold.
    Then the raw games stored are the valid ones, the stored collection
    holds one entry for each of them, in order, mirroring the game and
    without rating or notes, and the data client has been asked to
    create every valid game, and the entry of each game whose creation
    did not throw. Otherwise it throws and the stored entries are those
    of before. *)
Theorem syncGameLibrary_drops_invalid E userId steamId games w :
  gql_syncSteamLibrary E steamId = Some (Some games) →
  let validGames := List.filter is_valid_game games in
  let run := syncGameLibrary E userId steamId in
  (∀ g, g ∈ validGames ↔
        g ∈ games ∧ (∃ id, appId g = Some id ∧ id ≠ 0)
                  ∧ (∃ n, name g = Some n ∧ n ≠ "")) ∧
  (validGames `sublist_of` games) ∧
  (∃ dropped, Permutation games (validGames ++ dropped) ∧
     Forall (λ g, appId g = None ∨ appId g = Some 0 ∨
                  name g = None ∨ name g = Some "") dropped) ∧
  (validGames = [] →
     outcome run w = Ok () ∧
     storage (after run w) !! steam_games_key userId = Some (ISteamGames []) ∧
     storage (after run w) !! library_entries_key userId = Some (ILibraryEntries []) ∧
     calls (after run w) = calls w ++ [GqlSyncSteamLibrary steamId]) ∧
  (validGames ≠ [] →
     (outcome run w = Ok () ↔ data_client_init E = true ∧ Forall date_fits validGames) ∧
     (outcome run w = Ok () →
        storage (after run w) !! steam_games_key userId = Some (ISteamGames validGames) ∧
        Forall2 (entry_of_game userId) validGames (stored_entries userId (after run w)) ∧
        calls (after run w)
        = calls w ++ [GqlSyncSteamLibrary steamId; DataClientInit]
                  ++ flat_map (requests_of E userId) validGames ∧
        Forall (λ game, ∃ gi, game_fields game gi ∧
                  (data_game_create E gi = false →
                     requests_of E userId game = [GameCreate gi]) ∧
                  (data_game_create E gi = true →
                     ∃ ei, entry_fields userId game ei ∧
                           requests_of E userId game
                           = [GameCreate gi; LibraryEntryCreate ei]))
               validGames) ∧
     (outcome run w ≠ Ok () →
        (∃ msg, outcome run w = Throw msg) ∧
        storage (after run w) !! library_entries_key userId
        = storage w !! library_entries_key userId)).
Proof.
  intros Hgql validGames run. split; [|split; [|split; [|split]]].
  - intros g. unfold validGames.
    by rewrite !list_elem_of_In, filter_In, is_valid_game_spec.
  - apply valid_games_sublist.
  - exists (List.filter (λ g, negb (is_valid_game g)) games).
    split; [apply filter_partition|].
    apply Forall_forall. intros g [_ Hg]%list_elem_of_In%filter_In.
    by apply invalid_game_spec.
  - intros Hnone.
    destruct (syncGameLibrary_nothing E userId steamId games w Hgql Hnone)
      as (w' & Hrun & Hs & _ & Hc).
    unfold outcome, after, run. rewrite Hrun. cbn [fst snd]. rewrite Hs.
    split; [done|]. split; [|split; [apply lookup_insert_eq|done]].
    rewrite lookup_insert_ne by (apply not_eq_sym, keys_differ).
    apply lookup_insert_eq.
  - intros Hsome.
    pose proof (syncGameLibrary_Ok_iff E userId steamId games w Hgql Hsome) as Hiff.
    split; [exact Hiff|]. split.
    + intros Hok. pose proof Hok as [_ Hfit]%Hiff.
      destruct (syncGameLibrary_stored E userId steamId games w Hgql Hok)
        as (Hmade & Hgames & Hrest & _).
      destruct (Hrest Hsome) as [_ Hc].
      split; [done|]. split; [|split; [done|]].
      * eapply Forall2_impl; [exact Hmade|].
        intros game entry. apply library_entry_of_mirrors.
      * eapply Forall_impl; [exact Hfit|]. intros game Hgame.
        exists (game_input_of game).
        destruct (requests_of_spec E userId game) as (Hgi & Hno & _ & Hyes).
        split; [done|]. split; [done|]. intros Hcreate. by apply Hyes.
    + intros Hfail.
      assert (Hrun : ∃ msg w', run w = (Throw msg, w') ∧
                storage w' = <[steam_games_key userId := ISteamGames validGames]> (storage w)).
      { destruct (data_client_init E) eqn:Hinit.
        - assert (Hunfit : ¬ Forall date_fits validGames).
          { intros Hfit. by apply Hfail, Hiff. }
          destruct (syncGameLibrary_date_failure E userId steamId games w
                      Hgql Hsome Hinit Hunfit) as (msg & w' & Hrun & Hs & _).
          by exists msg, w'.
        - destruct (syncGameLibrary_no_client E userId steamId games w Hgql Hsome Hinit)
            as (msg & w' & Hrun & Hs & _).
          by exists msg, w'. }
      destruct Hrun as (msg & w' & Hrun & Hs).
      unfold outcome, after. rewrite Hrun. cbn [fst snd]. rewrite Hs.
      split; [by exists msg|]. apply lookup_insert_ne, keys_differ.
Qed.

Lemma syncGameLibrary_drops_invalid_witness :
  outcome (syncGameLibrary (steam_with [game_without_id; game_A]) "u" "s") empty_world
  = Ok ().
Proof.
  refine (proj2 (proj1 (proj2 (proj2 (proj2 (proj2
            (syncGameLibrary_drops_invalid (steam_with [game_without_id; game_A])
               "u" "s" [game_without_id; game_A] empty_world _)))) _)) _).
  - reflexivity.
  - discriminate.
  - split; [reflexivity|]. repeat constructor. intros t [= <-]. lia.
Defined.

(** C1, as the specification states it, fails. After a first run the
    user rates both games five stars, notes them and marks them
    finished; after a second run on the same upstream data the two
    entries are there once each, but their ratings are null, their
    notes empty and their statuses those the playtimes give. *)
Lemma sync_preserves_curation_counterexample :
  let run := syncGameLibrary (steam_with [game_A; game_B]) "u" "s" in
  let w1 := edit_entries "u" (map curate) (after run empty_world) in
  let w2 := after run w1 in
  map (λ e, (steamAppId e, rating e, notes e, status e)) (stored_entries "u" w1)
    = [(Some 10, Some 5, "great", finished); (Some 20, Some 5, "great", finished)] ∧
  map (λ e, (steamAppId e, rating e, notes e, status e)) (stored_entries "u" w2)
    = [(Some 10, None, "", playing); (Some 20, None, "", planning)].
Proof. split; vm_compute; reflexivity. Qed.

(** C1, amended. Take a run of [syncGameLibrary] that returns normally
    (with valid games this means that the data client can be set up and
    that the last-played time of every valid game is a date JavaScript
    can hold). A second run on the same upstream data, after any edits
    of the stored entries, returns normally too, and leaves one stored
    entry for each valid upstream game, as the first run does: the
    second run adds none, and the entries have distinct app ids when the
    upstream games have. The second run writes every entry anew from the
    upstream data: it mirrors its game, its rating is null, its notes
    are empty and its status is the one the playtimes give, whatever
    they were before. With valid games, the second run asks the data
    client again to create every valid game, and the entry of each game
    whose creation did not throw. *)
Theorem syncGameLibrary_twice_rewrites E userId steamId games f w :
  gql_syncSteamLibrary E steamId = Some (Some games) →
  let validGames := List.filter is_valid_game games in
  let run := syncGameLibrary E userId steamId in
  let w1 := edit_entries userId f (after run w) in
  let w2 := after run w1 in
  outcome run w = Ok () →
  outcome run w1 = Ok () ∧
  (validGames ≠ [] → data_client_init E = true ∧ Forall date_fits validGames) ∧
  length (stored_entries userId (after run w)) = length validGames ∧
  length (stored_entries userId w2) = length validGames ∧
  Forall2 (entry_of_game userId) validGames (stored_entries userId w2) ∧
  (NoDup (map appId validGames) → NoDup (map steamAppId (stored_entries userId w2))) ∧
  Forall (λ e, rating e = None ∧ notes e = "" ∧
               status e = sync_status (default 0 (steamPlaytimeTotal e))
                                      (default 0 (steamPlaytimeRecent e)))
         (stored_entries userId w2) ∧
  (validGames ≠ [] →
     calls w2 = calls w1 ++ [GqlSyncSteamLibrary steamId; DataClientInit]
                         ++ flat_map (requests_of E userId) validGames ∧
     Forall (λ game, ∃ gi, game_fields game gi ∧
               (data_game_create E gi = false →
                  requests_of E userId game = [GameCreate gi]) ∧
               (data_game_create E gi = true →
                  ∃ ei, entry_fields userId game ei ∧
                        requests_of E userId game
                        = [GameCreate gi; LibraryEntryCreate ei]))
            validGames).
Proof.
  intros Hgql validGames run w1 w2 Hok.
  assert (Hwhy : validGames ≠ [] → data_client_init E = true ∧ Forall date_fits validGames).
  { intros Hsome. by apply (syncGameLibrary_Ok_iff E userId steamId games w Hgql Hsome). }
  assert (Hok1 : outcome run w1 = Ok ()).
  { destruct (decide (validGames = [])) as [Hnone|Hsome].
    - destruct (syncGameLibrary_nothing E userId steamId games w1 Hgql Hnone)
        as (w' & Hrun & _).
      unfold outcome, run. by rewrite Hrun.
    - by apply (syncGameLibrary_Ok_iff E userId steamId games w1 Hgql Hsome), Hwhy. }
  destruct (syncGameLibrary_stored E userId steamId games w Hgql Hok) as (Hmade0 & _).
  destruct (syncGameLibrary_stored E userId steamId games w1 Hgql Hok1)
    as (Hmade & _ & Hrest & _).
  fold run validGames in Hmade0, Hmade, Hrest. fold w2 in Hmade, Hrest.
  assert (Hmirror : Forall2 (entry_of_game userId) validGames (stored_entries userId w2)).
  { eapply Forall2_impl; [exact Hmade|].
    intros game entry. apply library_entry_of_mirrors. }
  split; [done|]. split; [done|].
  split; [symmetry; by eapply Forall2_length|].
  split; [symmetry; by eapply Forall2_length|].
  split; [done|]. split; [|split].
  - intros Hnodup. by rewrite (entries_app_ids _ _ _ Hmirror).
  - eapply Forall2_Forall_r; [exact Hmirror|]. apply Forall_forall.
    intros game _ entry (_ & _ & _ & _ & _ & _ & _ & Htotal & Hrecent & _ & _ & _ & _
                         & _ & _ & _ & _ & Hr & Hn & Hst).
    by rewrite Htotal, Hrecent.
  - intros Hsome. destruct (Hrest Hsome) as [_ Hc]. split; [done|].
    destruct (Hwhy Hsome) as [_ Hfit].
    eapply Forall_impl; [exact Hfit|]. intros game Hgame.
    exists (game_input_of game).
    destruct (requests_of_spec E userId game) as (Hgi & Hno & _ & Hyes).
    split; [done|]. split; [done|]. intros Hcreate. by apply Hyes.
Qed.

Lemma syncGameLibrary_twice_rewrites_witness :
  let run := syncGameLibrary (steam_with [game_A; game_B]) "u" "s" in
  length (stored_entries "u"
            (after run (edit_entries "u" (map curate) (after run empty_world)))) = 2%nat.
Proof.
  refine (proj1 (proj2 (proj2 (proj2
            (syncGameLibrary_twice_rewrites (steam_with [game_A; game_B]) "u" "s"
               [game_A; game_B] (map curate) empty_world _ _))))).
  - reflexivity.
  - vm_compute. reflexivity.
Defined.

End SyncProps.

(** ** Recent achievements *)

Module AchievementFacts.
Import Sync SortFacts.

















End AchievementFacts.

Module AchievementProps.
Import Sync SortFacts AchievementFacts Samples.



(** Eleven eligible games, the request of the third failing: ten
    requests are made, and the nine answers that came are returned,
    newest first. *)
Lemma eleven_games_ten_requests :
  let run := getRecentAchievements achievements_env "s" eleven_games in
  calls (after run empty_world)
    = map (λ id, GqlGetSteamAchievements "s" id) [1; 2; 3; 4; 5; 6; 7; 8; 9; 10] ∧
  (gameAppId <$> outcome_value run empty_world) = [10; 9; 8; 7; 6; 5; 4; 2; 1].
Proof. split; vm_compute; reflexivity. Qed.

(** A game known by its [appId] alone, of whose five achievements four
    are unlocked: the three newest are returned, newest first, under the
    name and the icon of the game. *)
Lemma three_newest_unlocks :
  outcome (getRecentAchievements five_achievements_env "s" [view_by_appId 7]) empty_world
  = Ok [ {| ra_id := "achievement-7-b"; ra_game := "B"; ra_gameCover := "b.ico";
            achievement := "b"; description := "done"; unlockedAt := 400000;
            gameAppId := 7 |};
         {| ra_id := "achievement-7-d"; ra_game := "B"; ra_gameCover := "b.ico";
            achievement := "d"; description := "done"; unlockedAt := 300000;
            gameAppId := 7 |};
         {| ra_id := "achievement-7-c"; ra_game := "B"; ra_gameCover := "b.ico";
            achievement := "c"; description := "done"; unlockedAt := 200000;
            gameAppId := 7 |} ].
Proof. vm_compute. reflexivity. Qed.

End AchievementProps.


(** ** More on the catalog client *)

Module CatalogFacts.
Import GameDatabase GameDatabaseGenre CacheFacts.

(** One call of [getGameDetails]: it returns normally, having made no
    request or the one request for its game. *)
Lemma getGameDetails_run E appId w :
  ∃ r w' more,
    getGameDetails E appId w = (Ok r, w') ∧
    calls w' = calls w ++ more ∧
    (more = [] ∨ more = [HttpAppDetails appId]).
Proof.
  unfold getGameDetails. unfold mbind at 1, M_bind at 1, bind at 1.
  rewrite getCachedData_eq.
  assert (Hfetch : ∀ w0, calls w0 = calls w →
    ∃ r w' more,
      try_catch
        (data ← fetch_json E (HttpAppDetails appId) (http_app_details E appId);
         match data with
         | None => mret None
         | Some details =>
             now ← Date_now;
             let game := PGame (transformSteamAppDetails E now details) in
             cacheData (GAME_DETAILS +:+ "-" +:+ pretty appId) game;;
             mret (Some game)
         end)
        (λ _, mret None) w0 = (Ok r, w') ∧
      calls w' = calls w ++ more ∧ (more = [] ∨ more = [HttpAppDetails appId])).
  { intros w0 Hw0. unfold fetch_json, cacheData. unfold_M.
    destruct (http_app_details E appId) as [| | |[details|]];
      eexists _, _, [HttpAppDetails appId]; cbn; rewrite Hw0; eauto. }
  destruct (storage w !! _) as [[data ts| | |]|]; try (apply Hfetch; reflexivity).
  destruct (older_than _ _); [apply Hfetch; reflexivity|].
  exists (Some data), w, []. by rewrite app_nil_r; eauto.
Qed.

Lemma enrich_one_run E game w :
  ∃ one w' more,
    try_catch
      (details ← getGameDetails E (r_appid game);
       match details with
       | Some d => mret d
       | None => now ← Date_now; mret (PGame (transformBasicGameInfo now game))
       end)
      (λ _, now ← Date_now; mret (PGame (transformBasicGameInfo now game))) w
    = (Ok one, w') ∧
    calls w' = calls w ++ more ∧ (more = [] ∨ more = [details_call game]).
Proof.
  destruct (getGameDetails_run E (r_appid game) w) as (r & w' & more & Hrun & Hc & Hmore).
  unfold_M. rewrite Hrun. destruct r as [d|]; by eexists _, w', more.
Qed.

(** The whole batch: one document per game, and the requests made are
    some of the games' detail requests, in the order of the games. *)
Lemma enrichGameData_run E games w :
  ∃ enriched w' more,
    enrichGameData E games w = (Ok enriched, w') ∧
    length enriched = length games ∧
    calls w' = calls w ++ more ∧
    more `sublist_of` map details_call games.
Proof.
  revert w. induction games as [|game rest IH]; intros w.
  - exists [], w, []. by rewrite app_nil_r.
  - cbn [enrichGameData]. unfold mbind at 1, M_bind at 1, bind at 1.
    destruct (enrich_one_run E game w) as (one & w1 & m1 & -> & Hc1 & Hm1).
    unfold mbind at 1, M_bind at 1, bind at 1.
    destruct (IH w1) as (others & w2 & m2 & -> & Hlen & Hc2 & Hm2).
    exists (one :: others), w2, (m1 ++ m2). split; [reflexivity|].
    split; [simpl; by rewrite Hlen|]. split; [by rewrite Hc2, Hc1, app_assoc|].
    cbn [map]. destruct Hm1 as [->| ->]; simpl.
    + by apply sublist_cons.
    + by apply sublist_skip.
Qed.

Lemma not_most_played_in_details games more :
  more `sublist_of` map details_call games → HttpMostPlayed ∉ more.
Proof.
  intros Hsub Hin. apply (elem_of_sublist _ _ _ Hin) in Hsub.
  apply list_elem_of_fmap in Hsub as (game & Heq & _). discriminate.
Qed.

(** The guarded block of [getTrendingGames] when the ranking arrives. *)
Lemma fetch_trending_success E key limit ranks w :
  http_most_played E = Body (Some ranks) →
  ∃ games w' more,
    fetch_trending E key limit w = (Ok (PGames games), w') ∧
    length games = length (JS.slice0 limit ranks) ∧
    storage w' !! key = Some (ICached (PGames games) (clock w')) ∧
    calls w' = calls w ++ HttpMostPlayed :: more ∧
    more `sublist_of` map details_call (map trending_game (JS.slice0 limit ranks)).
Proof.
  intros Hbody. unfold fetch_trending, fetch_json. rewrite Hbody. unfold_M.
  match goal with
  | |- context [enrichGameData E ?l ?w1] =>
      destruct (enrichGameData_run E l w1) as (games & w2 & more & -> & Hlen & Hc & Hsub)
  end.
  exists games, (after (cacheData key (PGames games)) w2), more.
  rewrite cacheData_eq. unfold after. rewrite cacheData_eq. cbn.
  split; [reflexivity|]. split; [by rewrite Hlen, length_map|].
  split; [apply lookup_insert_eq|]. split; [|done].
  rewrite Hc. cbn. by rewrite <- app_assoc.
Qed.

Lemma cached_hit key ttl w data ts :
  storage w !! key = Some (ICached data ts) → clock w - ts ≤ ttl →
  getCachedData key (Millis ttl) w = (Ok (Some data), w).
Proof.
  intros Hrec Hage. rewrite getCachedData_eq, Hrec. cbn [older_than].
  by destruct (Z.ltb_spec ttl (clock w - ts)); [lia|].
Qed.

(** [getGameDetails] when nothing is stored under its key. *)
Lemma getGameDetails_fetch_eq E appId w :
  storage w !! details_key appId = None →
  getGameDetails E appId w =
  let w1 := after (perform E (HttpAppDetails appId)) w in
  match http_app_details E appId with
  | Body (Some details) =>
      let game := PGame (transformSteamAppDetails E (clock w1) details) in
      (Ok (Some game), after (cacheData (details_key appId) game) w1)
  | _ => (Ok None, w1)
  end.
Proof.
  intros Hnone. unfold getGameDetails. unfold mbind at 1, M_bind at 1, bind at 1.
  fold (details_key appId). rewrite (getCachedData_miss _ _ _ Hnone).
  unfold fetch_json, cacheData. unfold_M.
  by destruct (http_app_details E appId) as [| | |[details|]].
Qed.

(** The ranking request comes first in what the guarded block of
    [getTrendingGames] adds to the log, whatever follows. *)
Lemma fetch_trending_call_first E key limit (handler : string → M payload) w :
  (∀ e, logs_only_more (handler e)) →
  ∃ more, calls (after (try_catch (fetch_trending E key limit) handler) w)
          = calls w ++ HttpMostPlayed :: more.
Proof.
  intros Hh. unfold after, fetch_trending, fetch_json.
  match goal with
  | |- context [try_catch ?blk handler w] =>
      replace (try_catch blk handler w) with
        (try_catch (perform E HttpMostPlayed ;;
                    (match http_most_played E with
                     | NetworkError => throw "Failed to fetch"
                     | HttpStatus code => throw ("HTTP error! status: " +:+ pretty code)
                     | InvalidJson => throw "SyntaxError"
                     | Body data => mret data
                     end ≫= λ data,
                     match data with
                     | None => throw "Invalid response format from Steam API"
                     | Some ranks =>
                         games ← enrichGameData E (map trending_game (JS.slice0 limit ranks));
                         cacheData key (PGames games);;
                         mret (PGames games)
                     end)) handler w)
        by (unfold try_catch; by rewrite bind_assoc)
  end.
  apply logs_call_first; [mon|done].
Qed.

End CatalogFacts.

Module CatalogProps.
Import GameDatabase GameDatabaseGenre CacheFacts CatalogFacts.

(** X1: details that arrive are cached. When nothing is stored for a
    game and the store delivers its details, [getGameDetails] makes one
    request and returns the game; a second call within 24 hours returns
    the same document without any request and changes nothing. *)
Theorem getGameDetails_caches_success E appId details w dt :
  storage w !! details_key appId = None →
  http_app_details E appId = Body (Some details) →
  0 ≤ dt ≤ GAME_DETAILS_DURATION →
  let first := getGameDetails E appId in
  let w1 := advance dt (after first w) in
  (∃ game, outcome first w = Ok (Some (PGame game)) ∧ appid game = d_appid details) ∧
  calls (after first w) = calls w ++ [HttpAppDetails appId] ∧
  outcome first w1 = outcome first w ∧
  after first w1 = w1.
Proof.
  intros Hnone Hbody Hdt first w1.
  assert (Hfirst : first w = getGameDetails E appId w) by reflexivity.
  rewrite (getGameDetails_fetch_eq _ _ _ Hnone), Hbody in Hfirst. cbv zeta in Hfirst.
  unfold after at 2 in Hfirst. rewrite cacheData_eq in Hfirst. cbn [snd] in Hfirst.
  assert (Hsecond : first w1 = (fst (first w), w1)).
  { unfold w1, after. rewrite Hfirst. cbn [fst snd].
    unfold first at 1, getGameDetails. unfold mbind at 1, M_bind at 1, bind at 1.
    erewrite cached_hit; [reflexivity| |].
    - cbn [advance storage]. apply lookup_insert_eq.
    - cbn. lia. }
  unfold outcome, after. rewrite Hsecond, Hfirst. cbn [fst snd].
  split; [by eexists|]. by repeat split.
Qed.

Lemma getGameDetails_caches_success_witness :
  calls (after (getGameDetails MoreSamples.store_up 10) Samples.empty_world)
  = [HttpAppDetails 10].
Proof.
  refine (proj1 (proj2 (getGameDetails_caches_success MoreSamples.store_up 10
            (MoreSamples.details_of 10) Samples.empty_world 0 _ _ _))).
  - reflexivity.
  - reflexivity.
  - unfold GAME_DETAILS_DURATION. lia.
Defined.

(** X2: details that do not arrive are not cached. When nothing is
    stored for a game and the request fails in any way (network, status,
    body, or the store reporting no such game), [getGameDetails] returns
    null after its one request and the store is as it was, so that the
    next call asks again. *)
Theorem getGameDetails_failure_not_cached E appId w :
  storage w !! details_key appId = None →
  not_delivered (http_app_details E appId) = true →
  outcome (getGameDetails E appId) w = Ok None ∧
  storage (after (getGameDetails E appId) w) = storage w ∧
  calls (after (getGameDetails E appId) w) = calls w ++ [HttpAppDetails appId].
Proof.
  intros Hnone Hfail. unfold outcome, after.
  rewrite (getGameDetails_fetch_eq _ _ _ Hnone).
  by destruct (http_app_details E appId) as [| | |[details|]].
Qed.

Lemma getGameDetails_failure_not_cached_witness :
  outcome (getGameDetails Samples.offline 10) Samples.empty_world = Ok None.
Proof.
  refine (proj1 (getGameDetails_failure_not_cached Samples.offline 10
                   Samples.empty_world _ _)); reflexivity.
Defined.

(** X3: two calls within the six hours cost one ranking request. When
    the first call of [getTrendingGames] goes to the network (forced, or
    nothing stored under its key) and the ranking arrives, it makes
    exactly one ranking request; a later unforced call with the same
    limit, up to six hours after, returns the same list without any
    request and changes nothing. *)
Theorem getTrendingGames_one_fetch_within_ttl E limit forceRefresh ranks w dt :
  http_most_played E = Body (Some ranks) →
  forceRefresh = true ∨ storage w !! trending_key limit = None →
  0 ≤ dt ≤ TRENDING →
  let first := getTrendingGames E limit forceRefresh in
  let second := getTrendingGames E limit false in
  let w1 := advance dt (after first w) in
  (∃ more, calls (after first w) = calls w ++ HttpMostPlayed :: more ∧
           HttpMostPlayed ∉ more) ∧
  (∃ games, outcome first w = Ok (PGames games) ∧ outcome second w1 = Ok (PGames games)) ∧
  after second w1 = w1.
Proof.
  intros Hbody Hpre Hdt first second w1.
  destruct (fetch_trending_success E (trending_key limit) limit ranks w Hbody)
    as (games & w' & more & Hrun & _ & Hstore & Hcalls & Hsub).
  assert (Hfirst : first w = (Ok (PGames games), w')).
  { unfold first, getTrendingGames. unfold mbind at 1, M_bind at 1, bind at 1.
    destruct Hpre as [-> | Hnone]; cbn [negb].
    - unfold_M. by rewrite Hrun.
    - destruct forceRefresh; cbn [negb]; unfold_M;
        rewrite ?(getCachedData_miss _ _ _ Hnone); by rewrite Hrun. }
  assert (Hsecond : second w1 = (Ok (PGames games), w1)).
  { unfold w1, after. rewrite Hfirst. cbn [snd].
    unfold second, getTrendingGames. unfold mbind at 1, M_bind at 1, bind at 1.
    cbn [negb]. erewrite cached_hit; [reflexivity| |].
    - exact Hstore.
    - cbn. lia. }
  assert (Ha : after first w = w') by (unfold after; by rewrite Hfirst).
  assert (Ho : outcome first w = Ok (PGames games)) by (unfold outcome; by rewrite Hfirst).
  assert (Ha2 : after second w1 = w1) by (unfold after; by rewrite Hsecond).
  assert (Ho2 : outcome second w1 = Ok (PGames games))
    by (unfold outcome; by rewrite Hsecond).
  rewrite Ha, Ho, Ho2, Ha2.
  split; [|split; [by exists games|reflexivity]].
  exists more. split; [done|]. eapply not_most_played_in_details, Hsub.
Qed.

Lemma getTrendingGames_one_fetch_within_ttl_witness :
  let first := getTrendingGames MoreSamples.store_up 5 false in
  after (getTrendingGames MoreSamples.store_up 5 false)
        (advance 1000 (after first Samples.empty_world))
  = advance 1000 (after first Samples.empty_world).
Proof.
  refine (proj2 (proj2 (getTrendingGames_one_fetch_within_ttl MoreSamples.store_up 5 false
            [Samples.rank_of 10; Samples.rank_of 20] Samples.empty_world 1000 _ _ _))).
  - reflexivity.
  - right. reflexivity.
  - unfold TRENDING. lia.
Defined.

(** X4: a forced refresh always asks. With [forceRefresh] set,
    [getTrendingGames] sends the ranking request first of all, whatever
    is stored; when the ranking arrives and the limit is not negative,
    it returns at most [limit] entries, one for each of the first ranked
    games, and stores that list under its key with the time of the
    store. *)
Theorem getTrendingGames_forced_refetches E limit w :
  let run := getTrendingGames E limit true in
  (∃ more, calls (after run w) = calls w ++ HttpMostPlayed :: more) ∧
  (∀ ranks, http_most_played E = Body (Some ranks) → 0 ≤ limit →
     ∃ games, outcome run w = Ok (PGames games) ∧
              Z.of_nat (length games) = Z.min limit (Z.of_nat (length ranks)) ∧
              storage (after run w) !! trending_key limit
              = Some (ICached (PGames games) (clock (after run w)))).
Proof.
  intros run.
  assert (Hrun : run w = try_catch (fetch_trending E (trending_key limit) limit)
                                   (λ _, stale_or_empty (trending_key limit)) w)
    by reflexivity.
  split.
  - unfold after. rewrite Hrun.
    apply fetch_trending_call_first. intros e. apply stale_or_empty_logs.
  - intros ranks Hbody Hlimit.
    destruct (fetch_trending_success E (trending_key limit) limit ranks w Hbody)
      as (games & w' & more & Hok & Hlen & Hstore & _).
    unfold try_catch in Hrun. rewrite Hok in Hrun.
    exists games. unfold outcome, after. rewrite Hrun. cbn [fst snd].
    split; [done|]. split; [|done].
    rewrite Hlen. unfold JS.slice0.
    destruct (Z.ltb_spec limit 0); [lia|]. rewrite length_take. lia.
Qed.

Lemma getTrendingGames_forced_refetches_witness :
  ∃ games,
    outcome (getTrendingGames MoreSamples.store_up 1 true) Samples.stale_trending_world
      = Ok (PGames games) ∧
    Z.of_nat (length games) = Z.min 1 2.
Proof.
  destruct (proj2 (getTrendingGames_forced_refetches MoreSamples.store_up 1
                     Samples.stale_trending_world)
              [Samples.rank_of 10; Samples.rank_of 20] eq_refl ltac:(lia))
    as (games & Hok & Hlen & _).
  exists games. split; assumption.
Defined.

(** X5: the enrichment never aborts. Whatever the detail requests do,
    [enrichGameData] returns normally with one document for each game it
    was given; it makes at most one request per game, each for the
    details of a game of the list, in the order of the list. *)
Theorem enrichGameData_never_aborts E games w :
  ∃ enriched more,
    outcome (enrichGameData E games) w = Ok enriched ∧
    length enriched = length games ∧
    calls (after (enrichGameData E games) w) = calls w ++ more ∧
    more `sublist_of` map details_call games ∧
    (length more ≤ length games)%nat.
Proof.
  destruct (enrichGameData_run E games w) as (enriched & w' & more & Hrun & Hlen & Hc & Hsub).
  exists enriched, more. unfold outcome, after. rewrite Hrun. cbn [fst snd].
  repeat split; try done.
  apply sublist_length in Hsub. by rewrite length_map in Hsub.
Qed.

(** X6: a failed search is an empty page. When nothing is stored under
    its key and the search request fails in any way, [searchGames]
    returns [{games: [], total: 0, page, limit}] with the page and limit
    it was given, after its one request, and stores nothing. *)
Theorem searchGames_failure_is_empty_page E query limit page w :
  storage w !! search_key query limit page = None →
  not_delivered (http_store_search E query limit) = true →
  let run := searchGames E query limit page in
  outcome run w = Ok (PSearch [] 0 page limit) ∧
  storage (after run w) = storage w ∧
  calls (after run w) = calls w ++ [HttpStoreSearch query limit].
Proof.
  intros Hnone Hfail run.
  assert (Hrun : run w = (Ok (PSearch [] 0 page limit),
                          after (perform E (HttpStoreSearch query limit)) w)).
  { unfold run, searchGames. unfold mbind at 1, M_bind at 1, bind at 1.
    rewrite (getCachedData_miss _ _ _ Hnone). unfold fetch_json. unfold_M.
    by destruct (http_store_search E query limit) as [| | |[body|]]. }
  unfold outcome, after. by rewrite Hrun.
Qed.

Lemma searchGames_failure_is_empty_page_witness :
  outcome (searchGames Samples.offline "doom" 20 1) Samples.empty_world
  = Ok (PSearch [] 0 1 20).
Proof.
  refine (proj1 (searchGames_failure_is_empty_page Samples.offline "doom" 20 1
                   Samples.empty_world _ _)); reflexivity.
Defined.

(** X7: a search that succeeds is cached. When nothing is stored under
    its key and the search answers with items, [searchGames] returns one
    entry per item with the total of the answer and the page and limit
    it was given; the same search up to one hour later returns the same
    result without any request and changes nothing. *)
Theorem searchGames_caches_success E query limit page (body : SearchBody) w dt :
  storage w !! search_key query limit page = None →
  http_store_search E query limit = Body (Some body) →
  0 ≤ dt ≤ SEARCH →
  let run := searchGames E query limit page in
  let w1 := advance dt (after run w) in
  (∃ games, outcome run w = Ok (PSearch games (total body) page limit) ∧
            length games = length (items body)) ∧
  outcome run w1 = outcome run w ∧
  after run w1 = w1.
Proof.
  intros Hnone Hbody Hdt run w1.
  assert (Hfirst : ∃ games w',
            run w = (Ok (PSearch games (total body) page limit), w') ∧
            length games = length (items body) ∧
            storage w' !! search_key query limit page
            = Some (ICached (PSearch games (total body) page limit) (clock w'))).
  { unfold run, searchGames. unfold mbind at 1, M_bind at 1, bind at 1.
    rewrite (getCachedData_miss _ _ _ Hnone). unfold fetch_json. rewrite Hbody. unfold_M.
    match goal with
    | |- context [enrichGameData E ?l ?w0] =>
        destruct (enrichGameData_run E l w0) as (games & w2 & more & -> & Hlen & _)
    end.
    rewrite cacheData_eq. eexists _, _. split; [reflexivity|]. split; [done|].
    cbn. apply lookup_insert_eq. }
  destruct Hfirst as (games & w' & Hfirst & Hlen & Hstore).
  assert (Hsecond : run w1 = (Ok (PSearch games (total body) page limit), w1)).
  { unfold w1, after. rewrite Hfirst. cbn [snd].
    unfold run, searchGames. unfold mbind at 1, M_bind at 1, bind at 1.
    erewrite cached_hit; [reflexivity|exact Hstore|cbn; lia]. }
  unfold outcome, after. rewrite Hsecond, Hfirst. cbn [fst snd].
  split; [by exists games|done].
Qed.

Lemma searchGames_caches_success_witness :
  let run := searchGames MoreSamples.store_up "doom" 20 1 in
  after run (advance 0 (after run Samples.empty_world))
  = advance 0 (after run Samples.empty_world).
Proof.
  refine (proj2 (proj2 (searchGames_caches_success MoreSamples.store_up "doom" 20 1
            {| items := [Samples.raw_of 10]; total := 1 |} Samples.empty_world 0 _ _ _))).
  - reflexivity.
  - reflexivity.
  - unfold SEARCH. lia.
Defined.

(** X8: browsing by genre. [getGamesByGenre] sends the genre as the
    search term. With nothing stored under its key: when the request
    fails in any way it returns an empty list and stores nothing; when it
    answers with items it returns one entry per item, and the same call
    up to twelve hours later returns the same list without any request. *)
Theorem getGamesByGenre_behaviour E genre limit w :
  storage w !! genre_key genre limit = None →
  let run := getGamesByGenre E genre limit in
  (not_delivered (http_store_search E genre limit) = true →
     outcome run w = Ok (PGames []) ∧
     storage (after run w) = storage w ∧
     calls (after run w) = calls w ++ [HttpStoreSearch genre limit]) ∧
  (∀ (body : SearchBody) dt,
     http_store_search E genre limit = Body (Some body) → 0 ≤ dt ≤ GENRE →
     let w1 := advance dt (after run w) in
     (∃ games, outcome run w = Ok (PGames games) ∧
               length games = length (items body)) ∧
     outcome run w1 = outcome run w ∧
     after run w1 = w1).
Proof.
  intros Hnone run. split.
  - intros Hfail.
    assert (Hrun : run w = (Ok (PGames []),
                            after (perform E (HttpStoreSearch genre limit)) w)).
    { unfold run, getGamesByGenre. unfold mbind at 1, M_bind at 1, bind at 1.
      rewrite (getCachedData_miss _ _ _ Hnone). unfold fetch_json. unfold_M.
      by destruct (http_store_search E genre limit) as [| | |[body|]]. }
    unfold outcome, after. by rewrite Hrun.
  - intros body dt Hbody Hdt w1.
    assert (Hfirst : ∃ games w',
              run w = (Ok (PGames games), w') ∧
              length games = length (items body) ∧
              storage w' !! genre_key genre limit
              = Some (ICached (PGames games) (clock w'))).
    { unfold run, getGamesByGenre. unfold mbind at 1, M_bind at 1, bind at 1.
      rewrite (getCachedData_miss _ _ _ Hnone). unfold fetch_json. rewrite Hbody. unfold_M.
      match goal with
      | |- context [enrichGameData E ?l ?w0] =>
          destruct (enrichGameData_run E l w0) as (games & w2 & more & -> & Hlen & _)
      end.
      rewrite cacheData_eq. eexists _, _. split; [reflexivity|]. split; [done|].
      cbn. apply lookup_insert_eq. }
    destruct Hfirst as (games & w' & Hfirst & Hlen & Hstore).
    assert (Hsecond : run w1 = (Ok (PGames games), w1)).
    { unfold w1, after. rewrite Hfirst. cbn [snd].
      unfold run, getGamesByGenre. unfold mbind at 1, M_bind at 1, bind at 1.
      erewrite cached_hit; [reflexivity|exact Hstore|cbn; lia]. }
    unfold outcome, after. rewrite Hsecond, Hfirst. cbn [fst snd].
    split; [by exists games|done].
Qed.

Lemma getGamesByGenre_behaviour_witness :
  outcome (getGamesByGenre Samples.offline "rpg" 20) Samples.empty_world = Ok (PGames []).
Proof.
  refine (proj1 (proj1 (getGamesByGenre_behaviour Samples.offline "rpg" 20
                          Samples.empty_world _) _)); reflexivity.
Defined.

(** X9: a stored record that does not decode is a miss, never an
    error, and is left where it is. [getCachedData] reports it absent
    and changes nothing; [getTrendingGames] then goes to the network:
    when the ranking does not come it returns an empty list and the
    record is still there, when it comes the record is replaced by the
    new list. *)
Theorem corrupt_record_is_a_miss E limit text maxAge w :
  storage w !! trending_key limit = Some (IMalformed text) →
  let run := getTrendingGames E limit false in
  getCachedData (trending_key limit) maxAge w = (Ok None, w) ∧
  (ranking_failed E = true →
     outcome run w = Ok (PGames []) ∧ storage (after run w) = storage w) ∧
  (∀ ranks, http_most_played E = Body (Some ranks) →
     ∃ games, outcome run w = Ok (PGames games) ∧
              storage (after run w) !! trending_key limit
              = Some (ICached (PGames games) (clock (after run w)))).
Proof.
  intros Hrec run.
  assert (Hmiss : ∀ maxAge' w0, storage w0 = storage w →
            getCachedData (trending_key limit) maxAge' w0 = (Ok None, w0)).
  { intros maxAge' w0 Hs. by rewrite getCachedData_eq, Hs, Hrec. }
  assert (Hrun : run w = try_catch (fetch_trending E (trending_key limit) limit)
                                   (λ _, stale_or_empty (trending_key limit)) w).
  { unfold run, getTrendingGames. unfold mbind at 1, M_bind at 1, bind at 1.
    cbn [negb]. by rewrite Hmiss. }
  split; [by apply Hmiss|]. split.
  - intros Hfail.
    destruct (fetch_trending_fails E (trending_key limit) limit w Hfail)
      as (msg & w' & Hthrow & Hs).
    unfold try_catch in Hrun. rewrite Hthrow in Hrun.
    unfold stale_or_empty in Hrun. unfold mbind, M_bind, bind in Hrun.
    rewrite (Hmiss _ _ Hs) in Hrun.
    unfold outcome, after. by rewrite Hrun.
  - intros ranks Hbody.
    destruct (fetch_trending_success E (trending_key limit) limit ranks w Hbody)
      as (games & w' & more & Hok & _ & Hstore & _).
    unfold try_catch in Hrun. rewrite Hok in Hrun.
    exists games. unfold outcome, after. by rewrite Hrun.
Qed.

Lemma corrupt_record_is_a_miss_witness :
  outcome (getTrendingGames Samples.offline 10 false) MoreSamples.corrupt_trending_world
  = Ok (PGames []).
Proof.
  refine (proj1 (proj1 (proj2 (corrupt_record_is_a_miss Samples.offline 10 "{oops"
            Infinity MoreSamples.corrupt_trending_world _)) _)).
  - apply lookup_singleton_eq.
  - reflexivity.
Defined.

(** X10: the cache operations touch one key. A set replaces the record
    of its key wholesale (of two sets in a row only the second is seen),
    and neither a set nor a get changes what is stored under any other
    key, nor the log of calls or events. *)
Theorem cache_touches_only_its_key key key' v v' maxAge w :
  key ≠ key' →
  after (cacheData key v') (after (cacheData key v) w) = after (cacheData key v') w ∧
  storage (after (cacheData key v) w) !! key' = storage w !! key' ∧
  storage (after (getCachedData key maxAge) w) !! key' = storage w !! key' ∧
  calls (after (cacheData key v) w) = calls w ∧
  calls (after (getCachedData key maxAge) w) = calls w ∧
  events (after (cacheData key v) w) = events w ∧
  events (after (getCachedData key maxAge) w) = events w.
Proof.
  intros Hne. unfold after. rewrite !cacheData_eq, getCachedData_eq. cbn [snd storage clock calls events].
  split; [by rewrite insert_insert_eq|].
  split; [by apply lookup_insert_ne|].
  destruct (storage w !! key) as [[data ts| | |]|]; try done.
  destruct (older_than _ _); cbn; [|done].
  by rewrite lookup_delete_ne.
Qed.

Lemma cache_touches_only_its_key_witness :
  storage (after (cacheData "a" (PGames [])) Samples.empty_world) !! "b" = None.
Proof.
  refine (proj1 (proj2 (cache_touches_only_its_key "a" "b" (PGames []) (PGames [])
                          Infinity Samples.empty_world _))).
  discriminate.
Defined.

End CatalogProps.


(** ** More on the library sync *)

Module SyncMoreFacts.
Import Sync SyncFacts SteamService.

(** [storeGamesInDatabase] with the data client there. *)
Lemma storeGamesInDatabase_run E games userId w :
  data_client_init E = true →
  ∃ w', storeGamesInDatabase E games userId w = (Ok (), w') ∧
        storage w' = storage w ∧ events w' = events w ∧
        calls w' = calls w ++ DataClientInit :: flat_map (requests_of E userId) games.
Proof.
  intros Hinit. unfold storeGamesInDatabase, data_call. rewrite Hinit. unfold_M.
  match goal with
  | |- context [store_games_loop E userId games ?w1] =>
      destruct (store_games_loop_run E userId games w1) as (w2 & -> & Hs & He & Hc)
  end.
  exists w2. rewrite Hs, He, Hc. cbn. by rewrite <- app_assoc.
Qed.

(** The keys of two users differ, and so do the three keys of one. *)
Lemma library_entries_key_inj u1 u2 :
  library_entries_key u1 = library_entries_key u2 → u1 = u2.
Proof. unfold library_entries_key. apply String.app_inj. Qed.

Lemma steam_games_key_inj u1 u2 : steam_games_key u1 = steam_games_key u2 → u1 = u2.
Proof. unfold steam_games_key. apply String.app_inj. Qed.

Lemma steam_data_key_inj u1 u2 : steam_data_key u1 = steam_data_key u2 → u1 = u2.
Proof. unfold steam_data_key. apply String.app_inj. Qed.

Lemma data_key_not_games u1 u2 : steam_data_key u1 ≠ steam_games_key u2.
Proof.
  unfold steam_data_key, steam_games_key. intros H.
  cbv [String.append] in H. discriminate H.
Qed.

Lemma data_key_not_entries u1 u2 : steam_data_key u1 ≠ library_entries_key u2.
Proof.
  unfold steam_data_key, library_entries_key. intros H.
  cbv [String.append] in H. discriminate H.
Qed.

Lemma games_key_not_entries u1 u2 : steam_games_key u1 ≠ library_entries_key u2.
Proof.
  unfold steam_games_key, library_entries_key. intros H.
  cbv [String.append] in H. discriminate H.
Qed.

(** [syncGameAchievements] never throws; what it leaves, case by case. *)
Lemma syncGameAchievements_eq response userId steamId appId w :
  syncGameAchievements response userId steamId appId w =
  (Ok (),
   match response, storage w !! library_entries_key userId with
   | Some achievements, Some (ILibraryEntries entries) =>
       match findIndex_steamAppId appId entries with
       | Some (entryIndex, entry) =>
           {| storage := <[library_entries_key userId :=
                             ILibraryEntries
                               (<[entryIndex := with_achievements achievements (clock w) entry]>
                                  entries)]> (storage w);
              clock := clock w; calls := calls w; events := events w |}
       | None => w
       end
   | _, _ => w
   end).
Proof.
  unfold syncGameAchievements. unfold_M. destruct response as [achievements|]; [|done].
  destruct (storage w !! library_entries_key userId) as [[| |entries|]|]; try done.
  by destruct (findIndex_steamAppId appId entries) as [[i entry]|].
Qed.

Lemma disconnectSteamProfile_eq userId w :
  disconnectSteamProfile userId w =
  (Ok (), {| storage := delete (library_entries_key userId)
                          (delete (steam_games_key userId)
                             (delete (steam_data_key userId) (storage w)));
             clock := clock w; calls := calls w; events := events w |}).
Proof. reflexivity. Qed.

End SyncMoreFacts.

Module SyncMoreProps.
Import Sync SyncFacts SteamService SyncMoreFacts.

(** X11: what a sync does when the gateway fails. When the request is
    rejected, [syncGameLibrary] throws after that one request and leaves
    the store and the events as they were. When the answer has no array
    of games, it returns normally, writes two empty collections, sends
    no event and never calls the data client. *)
Theorem syncGameLibrary_gateway_failures E userId steamId w :
  let run := syncGameLibrary E userId steamId in
  (gql_syncSteamLibrary E steamId = None →
     (∃ msg, outcome run w = Throw msg) ∧
     storage (after run w) = storage w ∧
     events (after run w) = events w ∧
     calls (after run w) = calls w ++ [GqlSyncSteamLibrary steamId]) ∧
  (gql_syncSteamLibrary E steamId = Some None →
     outcome run w = Ok () ∧
     storage (after run w) !! steam_games_key userId = Some (ISteamGames []) ∧
     storage (after run w) !! library_entries_key userId = Some (ILibraryEntries []) ∧
     events (after run w) = events w ∧
     calls (after run w) = calls w ++ [GqlSyncSteamLibrary steamId]).
Proof.
  intros run. split; intros Hgql.
  - assert (Hrun : run w = (Throw "graphql error",
                            after (perform E (GqlSyncSteamLibrary steamId)) w)).
    { unfold run, syncGameLibrary. by rewrite Hgql. }
    unfold outcome, after. rewrite Hrun. split; [by eexists|done].
  - assert (Hrun : run w =
              (Ok (), {| storage := <[library_entries_key userId := ILibraryEntries []]>
                                      (<[steam_games_key userId := ISteamGames []]> (storage w));
                         clock := clock w + Z.max 0 (latency E (GqlSyncSteamLibrary steamId));
                         calls := calls w ++ [GqlSyncSteamLibrary steamId];
                         events := events w |})).
    { unfold run, syncGameLibrary. by rewrite Hgql. }
    unfold outcome, after. rewrite Hrun. cbn [fst snd storage calls events].
    split; [done|]. split; [|split; [apply lookup_insert_eq|done]].
    rewrite lookup_insert_ne by (apply not_eq_sym, keys_differ).
    apply lookup_insert_eq.
Qed.

Lemma syncGameLibrary_gateway_failures_witness :
  storage (after (syncGameLibrary Samples.offline "u" "s") Samples.empty_world)
  = storage Samples.empty_world.
Proof.
  refine (proj1 (proj2 (proj1 (syncGameLibrary_gateway_failures Samples.offline "u" "s"
                                 Samples.empty_world) _))).
  reflexivity.
Defined.

(** X12: a sync that fails at the data client leaves half its work.
    When the gateway sends valid games but the data client cannot be
    set up, [syncGameLibrary] throws; by then the raw games of the user
    have been replaced by the new valid games, while the library entries
    are still those of before, and no event is sent. *)
Theorem syncGameLibrary_client_unavailable E userId steamId games w :
  gql_syncSteamLibrary E steamId = Some (Some games) →
  List.filter is_valid_game games ≠ [] →
  data_client_init E = false →
  let run := syncGameLibrary E userId steamId in
  (∃ msg, outcome run w = Throw msg) ∧
  storage (after run w)
  = <[steam_games_key userId := ISteamGames (List.filter is_valid_game games)]> (storage w) ∧
  storage (after run w) !! library_entries_key userId
  = storage w !! library_entries_key userId ∧
  events (after run w) = events w.
Proof.
  intros Hgql Hvalid Hinit run.
  assert (Hrun : ∃ msg w', run w = (Throw msg, w') ∧
            storage w' = <[steam_games_key userId :=
                             ISteamGames (List.filter is_valid_game games)]> (storage w) ∧
            events w' = events w).
  { unfold run, syncGameLibrary, storeGamesInDatabase, data_call. rewrite Hgql, Hinit.
    destruct (Nat.eqb_spec (length (List.filter is_valid_game games)) 0) as [Hlen|_].
    { exfalso. apply Hvalid. by apply nil_length_inv. }
    by eexists _, _. }
  destruct Hrun as (msg & w' & Hrun & Hs & He).
  unfold outcome, after. rewrite Hrun. cbn [fst snd]. rewrite Hs.
  split; [by exists msg|]. split; [done|]. split; [|done].
  apply lookup_insert_ne, keys_differ.
Qed.

Lemma syncGameLibrary_client_unavailable_witness :
  events (after (syncGameLibrary MoreSamples.steam_without_client "u" "s")
                Samples.empty_world) = [].
Proof.
  refine (proj2 (proj2 (proj2 (syncGameLibrary_client_unavailable
            MoreSamples.steam_without_client "u" "s" [Samples.game_A]
            Samples.empty_world _ _ _)))).
  - reflexivity.
  - discriminate.
  - reflexivity.
Defined.

(** X13: what a sync that returns normally reports. When
    [syncGameLibrary] returns normally on an answer with valid games, it
    sends exactly one event, which carries the user and the number of
    entries it stored; on an answer without any valid game it sends no
    event. Either way the raw games stored are the valid games, there is
    one stored entry for each of them, and every stored entry belongs to
    the user and is marked as coming from Steam. *)
Theorem syncGameLibrary_success_report E userId steamId games w :
  gql_syncSteamLibrary E steamId = Some (Some games) →
  let validGames := List.filter is_valid_game games in
  let run := syncGameLibrary E userId steamId in
  outcome run w = Ok () →
  (validGames ≠ [] →
     events (after run w)
     = events w ++ [steamLibrarySynced userId
                      (length (stored_entries userId (after run w)))]) ∧
  (validGames = [] → events (after run w) = events w) ∧
  storage (after run w) !! steam_games_key userId = Some (ISteamGames validGames) ∧
  length (stored_entries userId (after run w)) = length validGames ∧
  Forall (λ e, le_userId e = userId ∧ isFromSteam e = true)
         (stored_entries userId (after run w)).
Proof.
  intros Hgql validGames run Hok.
  destruct (syncGameLibrary_stored E userId steamId games w Hgql Hok)
    as (Hmade & Hgames & Hsome & Hnone).
  fold run validGames in Hmade, Hgames, Hsome, Hnone.
  assert (Hlen : length (stored_entries userId (after run w)) = length validGames).
  { symmetry. by eapply Forall2_length. }
  split; [|split; [|split; [done|split; [done|]]]].
  - intros Hvalid. rewrite Hlen. by apply Hsome.
  - intros Hvalid. by apply Hnone.
  - eapply Forall2_Forall_r; [exact Hmade|]. apply Forall_forall.
    intros game _ entry Hentry%library_entry_of_mirrors.
    split; apply Hentry.
Qed.

Lemma syncGameLibrary_success_report_witness :
  storage (after (syncGameLibrary (Samples.steam_with [Samples.game_A]) "u" "s")
                 Samples.empty_world) !! steam_games_key "u"
  = Some (ISteamGames [Samples.game_A]).
Proof.
  refine (proj1 (proj2 (proj2 (syncGameLibrary_success_report
            (Samples.steam_with [Samples.game_A])
            "u" "s" [Samples.game_A] Samples.empty_world _ _)))).
  - reflexivity.
  - vm_compute. reflexivity.
Defined.

(** X14: one game that cannot be stored does not stop the others. With
    the data client there, [storeGamesInDatabase] returns normally
    whatever the single creations do, leaves the local store alone, and
    asks for the creation of every game of the list, in order. The entry
    of a game is asked for, right after its game, exactly when the
    creation of the game did not throw and the last-played time of the
    game is a date JavaScript can hold. Without the data client it
    throws before any creation. *)
Theorem storeGamesInDatabase_continues_past_failures E games userId w :
  let run := storeGamesInDatabase E games userId in
  (data_client_init E = true →
     outcome run w = Ok () ∧
     storage (after run w) = storage w ∧
     calls (after run w)
     = calls w ++ DataClientInit :: flat_map (requests_of E userId) games ∧
     Forall (λ game, GameCreate (game_input_of game) ∈ calls (after run w)) games) ∧
  (data_client_init E = false →
     (∃ msg, outcome run w = Throw msg) ∧
     calls (after run w) = calls w ++ [DataClientInit]) ∧
  (∀ game, ∃ gi,
     game_input_of game = gi ∧ game_fields game gi ∧
     (data_game_create E gi = true → date_fits game →
        ∃ ei, entry_fields userId game ei ∧
              requests_of E userId game = [GameCreate gi; LibraryEntryCreate ei]) ∧
     (data_game_create E gi = false ∨ ¬ date_fits game →
        requests_of E userId game = [GameCreate gi])).
Proof.
  intros run. split; [|split].
  - intros Hinit.
    destruct (storeGamesInDatabase_run E games userId w Hinit) as (w' & Hrun & Hs & _ & Hc).
    unfold outcome, after, run. rewrite Hrun. cbn [fst snd].
    repeat split; try done.
    rewrite Hc. apply Forall_forall. intros game Hin.
    apply elem_of_app. right. apply list_elem_of_further.
    apply list_elem_of_In, in_flat_map. exists game.
    split; [by apply list_elem_of_In|]. unfold requests_of. by left.
  - intros Hinit.
    unfold outcome, after, run, storeGamesInDatabase, data_call. rewrite Hinit. cbn.
    split; [by eexists|done].
  - intros game. exists (game_input_of game).
    destruct (requests_of_spec E userId game) as (Hgi & Hno & Hunfit & Hyes).
    split; [done|]. split; [done|]. split; [done|]. by intros [?|?]; auto.
Qed.

Lemma storeGamesInDatabase_continues_past_failures_witness :
  outcome (storeGamesInDatabase MoreSamples.steam_rejecting_creates
             [Samples.game_A; Samples.game_B] "u") Samples.empty_world = Ok ().
Proof.
  refine (proj1 (proj1 (storeGamesInDatabase_continues_past_failures
            MoreSamples.steam_rejecting_creates [Samples.game_A; Samples.game_B] "u"
            Samples.empty_world) _)).
  reflexivity.
Defined.

(** X15: entries can be told apart by their identifiers. After a sync
    that returned normally on games with pairwise distinct app ids, the
    stored entries have pairwise distinct [id]s and pairwise distinct
    [gameId]s. *)
Theorem syncGameLibrary_entry_ids_distinct E userId steamId games w :
  gql_syncSteamLibrary E steamId = Some (Some games) →
  outcome (syncGameLibrary E userId steamId) w = Ok () →
  NoDup (map appId (List.filter is_valid_game games)) →
  let entries := stored_entries userId (after (syncGameLibrary E userId steamId) w) in
  NoDup (map le_id entries) ∧ NoDup (map le_gameId entries).
Proof.
  intros Hgql Hok Hnodup entries.
  destruct (syncGameLibrary_stored E userId steamId games w Hgql Hok) as (Hmade & _).
  fold entries in Hmade.
  assert (Hmirror : Forall2 (entry_of_game userId) (List.filter is_valid_game games) entries).
  { eapply Forall2_impl; [exact Hmade|].
    intros game entry. apply library_entry_of_mirrors. }
  assert (Hinj : ∀ prefix (x y : option Z),
            x ∈ map appId (List.filter is_valid_game games) →
            y ∈ map appId (List.filter is_valid_game games) →
            prefix +:+ JS.show_num x = prefix +:+ JS.show_num y → x = y).
  { intros prefix x y Hx Hy Heq.
    apply list_elem_of_fmap in Hx as (gx & -> & Hgx).
    apply list_elem_of_fmap in Hy as (gy & -> & Hgy).
    apply list_elem_of_In, filter_In in Hgx as [_ Hvx].
    apply list_elem_of_In, filter_In in Hgy as [_ Hvy].
    apply is_valid_game_spec in Hvx as [(a & Ha & _) _].
    apply is_valid_game_spec in Hvy as [(b & Hb & _) _].
    rewrite Ha, Hb in *. cbn in Heq.
    apply String.app_inj in Heq. by apply (inj pretty) in Heq as ->. }
  split.
  - rewrite (Forall2_fmap_eq _ le_id (λ g, "steam-" +:+ JS.show_num (appId g)) _ _ Hmirror)
      by (intros g e He; apply He).
    change (NoDup ((λ v, "steam-" +:+ JS.show_num v) ∘ appId
                     <$> List.filter is_valid_game games)).
    rewrite list_fmap_compose. apply NoDup_fmap_2_strong; [|done].
    intros x y. apply Hinj.
  - rewrite (Forall2_fmap_eq _ le_gameId (λ g, "steam-game-" +:+ JS.show_num (appId g))
               _ _ Hmirror) by (intros g e He; apply He).
    change (NoDup ((λ v, "steam-game-" +:+ JS.show_num v) ∘ appId
                     <$> List.filter is_valid_game games)).
    rewrite list_fmap_compose. apply NoDup_fmap_2_strong; [|done].
    intros x y. apply Hinj.
Qed.

Lemma syncGameLibrary_entry_ids_distinct_witness :
  NoDup (map le_id (stored_entries "u"
           (after (syncGameLibrary (Samples.steam_with [Samples.game_A; Samples.game_B])
                     "u" "s") Samples.empty_world))).
Proof.
  refine (proj1 (syncGameLibrary_entry_ids_distinct
            (Samples.steam_with [Samples.game_A; Samples.game_B]) "u" "s"
            [Samples.game_A; Samples.game_B] Samples.empty_world _ _ _)).
  - reflexivity.
  - vm_compute. reflexivity.
  - cbn. apply NoDup_cons. split; [|apply NoDup_singleton].
    intros Hin. apply list_elem_of_singleton in Hin. discriminate.
Defined.

(** X16: the hours and the last play of an entry. An entry is made for
    a game exactly when the last-played time of the game is a date
    JavaScript can hold (none, 0, or at most 8.64e15 milliseconds from
    the epoch); otherwise making it throws. The entry made keeps the
    playtimes of the game; its [hoursPlayed] is the total playtime in
    hours rounded to the nearest hour, so never more than half an hour
    off and never negative for a playtime that is not; its last-played
    time is the game's Unix time in milliseconds, and null exactly when
    the game has none or has 0. *)
Theorem library_entry_mirrors_playtime userId now game :
  ((∀ t, lastPlayed game = Some t → Z.abs (t * 1000) ≤ 8640000000000000) →
   ∃ entry, library_entry_of userId now game = Ok entry) ∧
  (∀ t, lastPlayed game = Some t → 8640000000000000 < Z.abs (t * 1000) →
        ∃ msg, library_entry_of userId now game = Throw msg) ∧
  (∀ entry, library_entry_of userId now game = Ok entry →
     steamPlaytimeTotal entry = Some (playtimeTotal game) ∧
     steamPlaytimeRecent entry = Some (playtimeRecent game) ∧
     (∃ hours, hoursPlayed entry = Some hours ∧
               60 * hours - 30 ≤ playtimeTotal game ≤ 60 * hours + 29 ∧
               (0 ≤ playtimeTotal game → 0 ≤ hours)) ∧
     (steamLastPlayed entry = None ↔ lastPlayed game = None ∨ lastPlayed game = Some 0) ∧
     (∀ t, lastPlayed game = Some t → t ≠ 0 →
           steamLastPlayed entry = Some (t * 1000) ∧
           Z.abs (t * 1000) ≤ 8640000000000000)).
Proof.
  split; [|split].
  - intros Hfit. eexists. by apply library_entry_of_fits.
  - intros t Ht Hfar. eexists. apply library_entry_of_unfit.
    intros Hfit. specialize (Hfit t Ht). lia.
  - intros entry [Hfit ->]%library_entry_of_Ok. cbn.
    split; [done|]. split; [done|]. split; [|split].
    + exists (JS.round_div60 (playtimeTotal game)). unfold JS.round_div60.
      split; [done|].
      pose proof (Z.div_mod (playtimeTotal game + 30) 60 ltac:(lia)) as Hdm.
      pose proof (Z.mod_pos_bound (playtimeTotal game + 30) 60 ltac:(lia)) as Hb.
      split; [lia|]. intros Hpos. apply Z.div_pos; lia.
    + unfold last_played_ms. destruct (lastPlayed game) as [t|]; cbn.
      * destruct (Z.eqb_spec t 0) as [->|Hne]; cbn; split; try done.
        -- intros _. by right.
        -- intros [H|H]; [done|]. by injection H.
      * split; [|done]. intros _. by left.
    + intros t Ht Hne. split; [|by apply Hfit].
      unfold last_played_ms. rewrite Ht. by destruct (Z.eqb_spec t 0).
Qed.

Lemma library_entry_mirrors_playtime_witness :
  ∃ entry, library_entry_of "u" 0 Samples.game_A = Ok entry.
Proof.
  refine (proj1 (library_entry_mirrors_playtime "u" 0 Samples.game_A) _).
  intros t [= <-]. lia.
Defined.

(** X17: the achievement sync is best effort and local. Whatever the
    gateway answers and whatever is stored, [syncGameAchievements]
    returns normally and sends no event; in the store it changes nothing
    but the library entries of its user, whose number stays the same; a
    rejected request, or a list in which no entry has the app id, leaves
    the store as it was. *)
Theorem syncGameAchievements_best_effort response userId steamId appId w :
  let run := syncGameAchievements response userId steamId appId in
  outcome run w = Ok () ∧
  (∀ key, key ≠ library_entries_key userId →
     storage (after run w) !! key = storage w !! key) ∧
  events (after run w) = events w ∧
  length (stored_entries userId (after run w)) = length (stored_entries userId w) ∧
  (response = None → storage (after run w) = storage w) ∧
  (Forall (λ e, steamAppId e ≠ Some appId) (stored_entries userId w) →
   storage (after run w) = storage w).
Proof.
  intros run. unfold outcome, after, run. rewrite syncGameAchievements_eq. cbn [fst snd].
  split; [done|]. unfold stored_entries.
  destruct response as [achievements|];
    destruct (storage w !! library_entries_key userId) as [[| |entries|]|] eqn:Hstore;
    try (repeat split; try done; by rewrite ?Hstore).
  destruct (findIndex_steamAppId appId entries) as [[i entry]|] eqn:Hfind.
  - cbn [storage calls events]. rewrite lookup_insert_eq, length_insert.
    split; [intros key Hkey; by apply lookup_insert_ne|].
    repeat split; try done.
    intros Hnone. exfalso.
    apply list_find_Some in Hfind as (Hi & Hp & _).
    apply (Forall_lookup_1 _ _ _ _ Hnone) in Hi. done.
  - rewrite Hstore. by repeat split.
Qed.

Lemma syncGameAchievements_best_effort_witness :
  storage (after (syncGameAchievements None "u" "s" 10) Samples.empty_world)
  = storage Samples.empty_world.
Proof.
  refine (proj1 (proj2 (proj2 (proj2 (proj2
            (syncGameAchievements_best_effort None "u" "s" 10 Samples.empty_world)))))
            _).
  reflexivity.
Defined.

(** X18: the achievement sync updates one entry and keeps the user's
    curation. When the stored list has an entry with the app id, the
    first such entry receives the achievements and the time of the sync;
    its rating, notes, status and playtimes stay as they were, and every
    other entry of the list stays as it was. *)
Theorem syncGameAchievements_updates_first_match
    achievements userId steamId appId entries i entry w :
  storage w !! library_entries_key userId = Some (ILibraryEntries entries) →
  entries !! i = Some entry →
  steamAppId entry = Some appId →
  (∀ j e, entries !! j = Some e → (j < i)%nat → steamAppId e ≠ Some appId) →
  let after_sync :=
    stored_entries userId
      (after (syncGameAchievements (Some achievements) userId steamId appId) w) in
  after_sync = <[i := with_achievements achievements (clock w) entry]> entries ∧
  (∃ updated, after_sync !! i = Some updated ∧
     steamAchievements updated = achievements ∧ steamSyncDate updated = clock w ∧
     rating updated = rating entry ∧ notes updated = notes entry ∧
     status updated = status entry ∧
     steamPlaytimeTotal updated = steamPlaytimeTotal entry ∧
     steamPlaytimeRecent updated = steamPlaytimeRecent entry) ∧
  (∀ j, j ≠ i → after_sync !! j = entries !! j).
Proof.
  intros Hstore Hi Hid Hfirst after_sync.
  assert (Hfind : findIndex_steamAppId appId entries = Some (i, entry)).
  { unfold findIndex_steamAppId. apply list_find_Some. split; [done|]. split; [done|].
    intros j e Hj Hlt. by apply (Hfirst j e). }
  assert (Heq : after_sync = <[i := with_achievements achievements (clock w) entry]> entries).
  { unfold after_sync, after, stored_entries. rewrite syncGameAchievements_eq. cbn [snd].
    rewrite Hstore, Hfind. cbn [storage]. by rewrite lookup_insert_eq. }
  rewrite Heq. split; [done|]. split.
  - exists (with_achievements achievements (clock w) entry). split; [|done].
    apply list_lookup_insert_eq. by eapply lookup_lt_Some.
  - intros j Hj. by apply list_lookup_insert_ne.
Qed.

Lemma syncGameAchievements_updates_first_match_witness :
  stored_entries "u"
    (after (syncGameAchievements (Some (Some [Samples.unlocked 5])) "u" "s" 10)
           MoreSamples.curated_world)
  = [SteamService.with_achievements (Some [Samples.unlocked 5]) 0
       (Samples.curate Samples.entry_without_last_played)].
Proof.
  refine (proj1 (syncGameAchievements_updates_first_match (Some [Samples.unlocked 5])
            "u" "s" 10 [Samples.curate Samples.entry_without_last_played] 0
            (Samples.curate Samples.entry_without_last_played)
            MoreSamples.curated_world _ _ _ _)).
  - apply lookup_singleton_eq.
  - reflexivity.
  - reflexivity.
  - intros j e _ Hlt. lia.
Defined.

(** X19: achievements attach to what a sync stored. After a sync that
    returned normally, an achievement sync that arrives for the app id
    of any valid game leaves a stored entry with that app id carrying
    the achievements, and as many entries as there are valid games. *)
Theorem syncGameAchievements_after_sync E userId steamId games achievements game id w :
  gql_syncSteamLibrary E steamId = Some (Some games) →
  outcome (syncGameLibrary E userId steamId) w = Ok () →
  game ∈ List.filter is_valid_game games →
  appId game = Some id →
  let w1 := after (syncGameLibrary E userId steamId) w in
  let w2 := after (syncGameAchievements (Some achievements) userId steamId id) w1 in
  ∃ entry, entry ∈ stored_entries userId w2 ∧
           steamAppId entry = Some id ∧ steamAchievements entry = achievements ∧
           length (stored_entries userId w2) = length (List.filter is_valid_game games).
Proof.
  intros Hgql Hok Hgame Hid w1 w2.
  destruct (syncGameLibrary_stored E userId steamId games w Hgql Hok) as (Hmade & _).
  fold w1 in Hmade.
  assert (Hmirror : Forall2 (entry_of_game userId) (List.filter is_valid_game games)
                            (stored_entries userId w1)).
  { eapply Forall2_impl; [exact Hmade|].
    intros g e. apply library_entry_of_mirrors. }
  apply list_elem_of_lookup in Hgame as [k Hk].
  destruct (Forall2_lookup_l _ _ _ _ _ Hmirror Hk) as (made & Hmadek & Hfields).
  assert (Hmade_id : steamAppId made = Some id).
  { rewrite <- Hid. apply Hfields. }
  set (entries := stored_entries userId w1) in *.
  assert (Hstore : storage w1 !! library_entries_key userId = Some (ILibraryEntries entries)).
  { unfold entries, stored_entries in Hmadek |- *.
    destruct (storage w1 !! library_entries_key userId) as [[| |stored|]|]; try done. }
  assert (Hfind : is_Some (findIndex_steamAppId id entries)).
  { unfold findIndex_steamAppId.
    apply (list_find_elem_of _ _ made); [|done].
    by eapply list_elem_of_lookup_2. }
  destruct Hfind as [[i entry] Hfind].
  pose proof Hfind as Hspec. apply list_find_Some in Hspec as (Hi & Hp & _).
  assert (Hw2 : stored_entries userId w2
                = <[i := with_achievements achievements (clock w1) entry]> entries).
  { unfold w2, after, stored_entries. rewrite syncGameAchievements_eq. cbn [snd].
    rewrite Hstore, Hfind. cbn [storage]. by rewrite lookup_insert_eq. }
  exists (with_achievements achievements (clock w1) entry). rewrite Hw2.
  split; [|split; [done|split; [done|]]].
  - apply list_elem_of_lookup. exists i. apply list_lookup_insert_eq.
    by eapply lookup_lt_Some.
  - rewrite length_insert. symmetry. by eapply Forall2_length.
Qed.

Lemma syncGameAchievements_after_sync_witness :
  ∃ entry,
    entry ∈ stored_entries "u"
      (after (syncGameAchievements (Some (Some [Samples.unlocked 5])) "u" "s" 10)
             (after (syncGameLibrary (Samples.steam_with [Samples.game_A]) "u" "s")
                    Samples.empty_world)) ∧
    steamAppId entry = Some 10.
Proof.
  destruct (syncGameAchievements_after_sync (Samples.steam_with [Samples.game_A]) "u" "s"
              [Samples.game_A] (Some [Samples.unlocked 5]) Samples.game_A 10
              Samples.empty_world eq_refl eq_refl
              ltac:(apply list_elem_of_singleton; reflexivity) eq_refl)
    as (entry & Hin & Hid & _).
  exists entry. split; assumption.
Defined.

(** X20: disconnecting clears one user and only that user.
    [disconnectSteamProfile] returns normally; afterwards the profile,
    the raw games and the library entries of the user are gone;
    disconnecting again changes nothing more; and whatever is stored
    under any other key, such as the three keys of another user, is as
    it was. *)
Theorem disconnectSteamProfile_clears_one_user userId w :
  let run := disconnectSteamProfile userId in
  outcome run w = Ok () ∧
  storage (after run w) !! steam_data_key userId = None ∧
  storage (after run w) !! steam_games_key userId = None ∧
  storage (after run w) !! library_entries_key userId = None ∧
  stored_entries userId (after run w) = [] ∧
  after run (after run w) = after run w ∧
  (∀ key, key ≠ steam_data_key userId → key ≠ steam_games_key userId →
          key ≠ library_entries_key userId →
          storage (after run w) !! key = storage w !! key) ∧
  (∀ other, other ≠ userId →
     storage (after run w) !! steam_data_key other = storage w !! steam_data_key other ∧
     storage (after run w) !! steam_games_key other = storage w !! steam_games_key other ∧
     stored_entries other (after run w) = stored_entries other w).
Proof.
  intros run. unfold outcome, after, run, stored_entries.
  rewrite !disconnectSteamProfile_eq. cbn [fst snd storage clock calls events].
  assert (Hframe : ∀ key, key ≠ steam_data_key userId → key ≠ steam_games_key userId →
            key ≠ library_entries_key userId →
            delete (library_entries_key userId)
              (delete (steam_games_key userId)
                 (delete (steam_data_key userId) (storage w))) !! key = storage w !! key).
  { intros key H1 H2 H3. by rewrite !lookup_delete_ne. }
  split; [done|]. split.
  { rewrite lookup_delete_ne by (apply not_eq_sym, data_key_not_entries).
    rewrite lookup_delete_ne by (apply not_eq_sym, data_key_not_games).
    apply lookup_delete_eq. }
  split.
  { rewrite lookup_delete_ne by (apply not_eq_sym, games_key_not_entries).
    apply lookup_delete_eq. }
  split; [apply lookup_delete_eq|]. split; [by rewrite lookup_delete_eq|].
  split.
  { f_equal. apply map_eq. intros key. rewrite !lookup_delete.
    by repeat case_decide. }
  split; [exact Hframe|].
  intros other Hother.
  assert (Hd : steam_data_key other ≠ steam_data_key userId)
    by (intros H%steam_data_key_inj; done).
  assert (Hg : steam_games_key other ≠ steam_games_key userId)
    by (intros H%steam_games_key_inj; done).
  assert (He : library_entries_key other ≠ library_entries_key userId)
    by (intros H%library_entries_key_inj; done).
  rewrite !Hframe; try done;
    first [ apply not_eq_sym, data_key_not_entries
          | apply not_eq_sym, games_key_not_entries
          | apply not_eq_sym, data_key_not_games
          | apply games_key_not_entries
          | apply data_key_not_games
          | apply data_key_not_entries ].
Qed.

Lemma disconnectSteamProfile_clears_one_user_witness :
  stored_entries "v" (after (disconnectSteamProfile "u") MoreSamples.curated_world)
  = stored_entries "v" MoreSamples.curated_world.
Proof.
  refine (proj2 (proj2 (proj2 (proj2 (proj2 (proj2 (proj2 (proj2 (proj2
            (disconnectSteamProfile_clears_one_user "u" MoreSamples.curated_world)))))))
            "v" _))).
  discriminate.
Defined.

End SyncMoreProps.


(** ** More on the derived views *)

Module ViewProps.
Import SortFacts SteamService.

(** In a list that is sorted newest first, whatever stands in a front
    part is at least as new as whatever stands behind it. *)
Lemma sorted_front_newer {A} (key : A → Z) l1 l2 x y :
  Sorted (λ a b, key b ≤ key a) (l1 ++ l2) → x ∈ l1 → y ∈ l2 → key y ≤ key x.
Proof.
  intros Hs. apply Sorted_StronglySorted in Hs; [|intros a b c; lia].
  induction l1 as [|z l1 IH]; intros Hx Hy; [by apply elem_of_nil in Hx|].
  simpl in Hs. apply StronglySorted_inv in Hs as [Hs Hall].
  apply elem_of_cons in Hx as [->|Hx]; [|by apply IH].
  rewrite Forall_forall in Hall. apply Hall. apply elem_of_app. by right.
Qed.

(** X21: the size of the activity feed. [getRecentActivity] shows at
    most five played and at most three finished items, so at most eight
    in all: its final cut to ten never removes anything, and the feed is
    a rearrangement of the two lists. No entry is in both lists, as the
    first asks for recent playtime and the second for none. *)
Theorem getRecentActivity_size (steamGames : list LibraryEntry) :
  (length (recentlyPlayed steamGames) ≤ 5)%nat ∧
  (length (finishedGames steamGames) ≤ 3)%nat ∧
  (length (getRecentActivity steamGames) ≤ 8)%nat ∧
  Permutation (getRecentActivity steamGames)
              (recentlyPlayed steamGames ++ finishedGames steamGames) ∧
  (∀ game, is_recently_played game && is_finished_heuristic game = false).
Proof.
  assert (Hp : (length (recentlyPlayed steamGames) ≤ 5)%nat).
  { unfold recentlyPlayed. rewrite length_map. apply (length_slice0 5). lia. }
  assert (Hf : (length (finishedGames steamGames) ≤ 3)%nat).
  { unfold finishedGames. rewrite length_map. apply (length_slice0 3). lia. }
  assert (Hperm : Permutation (getRecentActivity steamGames)
                    (recentlyPlayed steamGames ++ finishedGames steamGames)).
  { unfold getRecentActivity.
    destruct (Nat.eqb_spec (length steamGames) 0) as [Hlen|_].
    - by apply nil_length_inv in Hlen as ->.
    - rewrite <- (sort_perm by_timestamp
                    (recentlyPlayed steamGames ++ finishedGames steamGames)) at 2.
      unfold JS.slice0. cbn [Z.ltb Z.compare].
      rewrite take_ge; [done|]. rewrite length_sort, length_app. lia. }
  split; [done|]. split; [done|]. split; [|split; [done|]].
  - rewrite Hperm, length_app. lia.
  - intros game. unfold is_recently_played, is_finished_heuristic, JS.gt0, JS.is0.
    destruct (steamPlaytimeRecent game) as [r|]; [|by rewrite !andb_false_r].
    destruct (Z.ltb_spec 0 r), (Z.eqb_spec r 0); try lia;
      by rewrite ?andb_false_r, ?andb_false_l.
Qed.

(** X22: the played items of the feed are the newest ones. An entry
    that qualifies as recently played but whose item is not among the
    played items was last played no later than every entry that is
    shown. *)
Theorem recentlyPlayed_are_newest (steamGames : list LibraryEntry) shown left_out :
  shown ∈ recentlyPlayed steamGames →
  left_out ∈ steamGames →
  is_recently_played left_out = true →
  played_item left_out ∉ recentlyPlayed steamGames →
  JS.time_of (steamLastPlayed left_out) ≤ JS.time_of (timestamp shown).
Proof.
  intros Hshown Hin Hok Hout. unfold recentlyPlayed in *.
  set (sorted := JS.sort by_last_played (List.filter is_recently_played steamGames)) in *.
  assert (Hslice : JS.slice0 5 sorted = take 5 sorted) by reflexivity.
  rewrite Hslice in *.
  apply list_elem_of_fmap in Hshown as (x & -> & Hx). cbn [timestamp played_item].
  assert (Hsorted : Sorted (λ a b, JS.time_of (steamLastPlayed b)
                                   ≤ JS.time_of (steamLastPlayed a)) sorted).
  { eapply Sorted_weaken; [|apply (sort_sorted by_last_played)].
    - intros a b. unfold JS.before, by_last_played. lia.
    - intros a b. unfold by_last_played. lia. }
  assert (Hmem : left_out ∈ sorted).
  { apply elem_of_sort, list_elem_of_In, filter_In. by rewrite <- list_elem_of_In. }
  rewrite <- (take_drop 5 sorted) in Hmem, Hsorted.
  apply elem_of_app in Hmem as [Hfront|Hback].
  - exfalso. apply Hout. apply list_elem_of_fmap. by exists left_out.
  - by apply (sorted_front_newer (λ e, JS.time_of (steamLastPlayed e)) _ _ x left_out Hsorted).
Qed.

Lemma recentlyPlayed_are_newest_witness :
  JS.time_of (steamLastPlayed MoreSamples.played_old)
  ≤ JS.time_of (timestamp (played_item (MoreSamples.played_at 6 600))).
Proof.
  refine (recentlyPlayed_are_newest MoreSamples.seven_played
            (played_item (MoreSamples.played_at 6 600)) MoreSamples.played_old _ _ _ _).
  - vm_compute. repeat (first [apply list_elem_of_here | apply list_elem_of_further]).
  - vm_compute. repeat (first [apply list_elem_of_here | apply list_elem_of_further]).
  - reflexivity.
  - vm_compute. intros Hin.
    repeat (apply elem_of_cons in Hin as [Hin|Hin]; [discriminate Hin|]).
    by apply elem_of_nil in Hin.
Defined.

(** X23: what [formatTimeAgo] shows. A date less than a minute back, or
    ahead of the clock, reads "Just now". Otherwise the text is a count
    and a unit, the count being at least 1 and staying below the next
    unit: 1 to 59 minutes, 1 to 23 hours, 1 to 29 days, 1 to 12 months,
    and from 1 year up. The clock is only read. *)
Theorem formatTimeAgo_ranges date w :
  let seconds := (clock w - date) / 1000 in
  after (formatTimeAgo date) w = w ∧
  ∃ text, outcome (formatTimeAgo date) w = Ok text ∧
    (clock w - date < 60000 → text = "Just now") ∧
    (60 ≤ seconds →
       ∃ count unit, text = pretty count +:+ unit ∧ 1 ≤ count ∧
         ((seconds < 3600 ∧ unit = "m ago" ∧ count = seconds / 60 ∧ count ≤ 59) ∨
          (3600 ≤ seconds < 86400 ∧ unit = "h ago" ∧ count = seconds / 3600 ∧ count ≤ 23) ∨
          (86400 ≤ seconds < 2592000 ∧ unit = "d ago" ∧ count = seconds / 86400 ∧ count ≤ 29) ∨
          (2592000 ≤ seconds < 31536000 ∧ unit = "mo ago" ∧ count = seconds / 2592000
             ∧ count ≤ 12) ∨
          (31536000 ≤ seconds ∧ unit = "y ago" ∧ count = seconds / 31536000))).
Proof.
  intros seconds. split; [reflexivity|].
  exists (time_ago (clock w) date). split; [reflexivity|].
  unfold time_ago. fold seconds. split.
  - intros Hlt. assert (seconds < 60) by (apply Z.div_lt_upper_bound; lia).
    by destruct (Z.ltb_spec seconds 60); [|lia].
  - intros Hge. destruct (Z.ltb_spec seconds 60); [lia|].
    destruct (Z.ltb_spec seconds 3600).
    { exists (seconds / 60), "m ago". split; [done|].
      split; [apply Z.div_le_lower_bound; lia|]. left.
      repeat split; try done. apply Z.lt_succ_r, Z.div_lt_upper_bound; lia. }
    destruct (Z.ltb_spec seconds 86400).
    { exists (seconds / 3600), "h ago". split; [done|].
      split; [apply Z.div_le_lower_bound; lia|]. right; left.
      repeat split; try done. apply Z.lt_succ_r, Z.div_lt_upper_bound; lia. }
    destruct (Z.ltb_spec seconds 2592000).
    { exists (seconds / 86400), "d ago". split; [done|].
      split; [apply Z.div_le_lower_bound; lia|]. right; right; left.
      repeat split; try done. apply Z.lt_succ_r, Z.div_lt_upper_bound; lia. }
    destruct (Z.ltb_spec seconds 31536000).
    { exists (seconds / 2592000), "mo ago". split; [done|].
      split; [apply Z.div_le_lower_bound; lia|]. right; right; right; left.
      repeat split; try done. apply Z.lt_succ_r, Z.div_lt_upper_bound; lia. }
    exists (seconds / 31536000), "y ago". split; [done|].
    split; [apply Z.div_le_lower_bound; lia|]. by repeat right.
Qed.

Lemma formatTimeAgo_ranges_witness :
  ∃ text, outcome (formatTimeAgo 5000) Samples.empty_world = Ok text ∧ text = "Just now".
Proof.
  destruct (proj2 (formatTimeAgo_ranges 5000 Samples.empty_world)) as (text & Hok & Hnow & _).
  exists text. split; [exact Hok|]. apply Hnow. cbn. lia.
Defined.

(** X24: the two readings of a profile's visibility agree.
    [isSteamProfilePublic] holds exactly for the state whose message
    says the profile is public, and the message is the unknown one
    exactly for states other than 1, 2 and 3. *)
Theorem privacy_readings_agree (communityVisibilityState : Z) :
  (isSteamProfilePublic communityVisibilityState = true ↔
   getPrivacyStatusMessage communityVisibilityState
   = "Profile is public - games should be accessible") ∧
  (getPrivacyStatusMessage communityVisibilityState = "Unknown privacy status" ↔
   communityVisibilityState ≠ 1 ∧ communityVisibilityState ≠ 2 ∧
   communityVisibilityState ≠ 3).
Proof.
  unfold isSteamProfilePublic, getPrivacyStatusMessage.
  destruct (Z.eqb_spec communityVisibilityState 1) as [->|H1]; [cbn; split; split; (done || lia)|].
  destruct (Z.eqb_spec communityVisibilityState 2) as [->|H2]; [cbn; split; split; (done || lia)|].
  destruct (Z.eqb_spec communityVisibilityState 3) as [->|H3]; split; split; (done || lia).
Qed.

(** X28: how the feed reads the entries of a sync. For the entry a
    sync makes of a game whose recent playtime is not negative and is
    part of its total, the feed takes it as finished exactly when its
    status is [paused], and as played exactly when its status is
    [playing] and it has a last-played date, which it has when the game
    has a last-played time other than 0. *)
Theorem feed_reads_sync_status userId now game :
  0 ≤ playtimeRecent game ≤ playtimeTotal game →
  (∀ iso,
     let entry := Sync.library_entry_with iso userId now game in
     (is_finished_heuristic entry = true ↔ status entry = paused) ∧
     (is_recently_played entry = true ↔ status entry = playing ∧ is_Some iso)) ∧
  (∀ entry, Sync.library_entry_of userId now game = Ok entry →
     (is_finished_heuristic entry = true ↔ status entry = paused) ∧
     (is_recently_played entry = true ↔
      status entry = playing ∧ JS.truthy_num (lastPlayed game) = true)).
Proof.
  intros Hrecent.
  assert (Hwith : ∀ iso,
     let entry := Sync.library_entry_with iso userId now game in
     (is_finished_heuristic entry = true ↔ status entry = paused) ∧
     (is_recently_played entry = true ↔ status entry = playing ∧ is_Some iso)).
  { intros iso. cbn.
    unfold is_finished_heuristic, is_recently_played, sync_status. cbn.
    assert (Hstatus : ∀ st : GameStatus,
              (if 0 <? playtimeTotal game
               then if 0 <? playtimeRecent game then playing else paused
               else planning) = st ↔
              (st = playing ∧ 0 < playtimeRecent game) ∨
              (st = paused ∧ 0 < playtimeTotal game ∧ playtimeRecent game = 0) ∨
              (st = planning ∧ playtimeTotal game = 0)).
    { intros st.
      destruct (Z.ltb_spec 0 (playtimeTotal game)), (Z.ltb_spec 0 (playtimeRecent game));
        split; intros Hst; try (subst st); try lia;
        try (destruct Hst as [[-> ?]|[[-> ?]|[-> ?]]]; (done || lia)).
      - by left.
      - right; left. split; [done|lia].
      - right; right. split; [done|lia]. }
    rewrite !Hstatus, !andb_true_iff, bool_decide_eq_true, Z.ltb_lt, Z.eqb_eq.
    split.
    - split; [intros [? ?]; right; left; by repeat split|].
      intros [[? ?]|[[_ ?]|[? ?]]]; done.
    - split.
      + intros [? Hpos]. apply Z.ltb_lt in Hpos. split; [|done]. by left.
      + intros [[[_ ?]|[[? _]|[? _]]] ?]; try done. split; [done|]. by apply Z.ltb_lt. }
  split; [exact Hwith|].
  intros entry [_ ->]%SyncFacts.library_entry_of_Ok.
  destruct (Hwith (last_played_ms game)) as [Hfin Hplayed].
  split; [exact Hfin|]. rewrite Hplayed. cbn.
  assert (Hlast : is_Some (last_played_ms game) ↔ JS.truthy_num (lastPlayed game) = true).
  { unfold last_played_ms, JS.truthy_num.
    destruct (lastPlayed game) as [t|]; [destruct (t =? 0)|]; cbn;
      split; intros Hx; try done; by destruct Hx. }
  by rewrite Hlast.
Qed.

Lemma feed_reads_sync_status_witness :
  is_recently_played
    (Sync.library_entry_with (Some 1700000000000) "u" 0 Samples.game_A) = true.
Proof.
  refine (proj2 (proj2 (proj1 (feed_reads_sync_status "u" 0 Samples.game_A _)
                          (Some 1700000000000))) _).
  - cbn. lia.
  - split; [reflexivity|by eexists].
Defined.

End ViewProps.


(** ** The session state *)

Module AuthProps.
Import AuthService.

Lemma filter_sublist {A} (f : A → bool) (l : list A) : List.filter f l `sublist_of` l.
Proof.
  induction l as [|x xs IH]; cbn; [constructor|].
  destruct (f x); by constructor.
Qed.

(** X25: logging out always ends the session. Whether [signOut]
    succeeds or throws, [logout] returns normally, the service has no
    current user and reports itself unauthenticated, its listeners are
    the same, and each of them has been told the signed-out state once
    more, in the order of registration. *)
Theorem logout_always_signs_out B s :
  let s' := snd (logout B s) in
  fst (logout B s) = Ok () ∧
  getCurrentUser s' = None ∧
  isAuthenticated_now s' = false ∧
  getAuthState s' = AuthService.signed_out_state ∧
  listeners s' = listeners s ∧
  heard s' = heard s ++ map (λ listener, (listener, AuthService.signed_out_state)) (listeners s) ∧
  sent s' = sent s ++ [SignOut].
Proof. unfold logout. by destruct (signOut_throws B). Qed.

(** X26: updating a profile. Without a current user [updateProfile]
    throws "No user logged in" and does nothing at all. Otherwise it
    sends one update request, under the id the update names or else the
    id of the current user. When the request throws, the current user
    stays as before and no listener is told. When it succeeds, the user
    returned is the new current user: each of its fields is the one the
    update names, or the one of the user before when the update does
    not name it, except [updatedAt], which is the time of the call
    whatever the update says; and every listener is told the new
    state. *)
Theorem updateProfile_behaviour B now updates s :
  let run := updateProfile B now updates s in
  (currentUser s = None → run = (Throw "No user logged in", s)) ∧
  (∀ cur, currentUser s = Some cur →
     let id := default (u_id cur) (up_id updates) in
     sent (snd run) = sent s ++ [UserUpdate id updates] ∧
     listeners (snd run) = listeners s ∧
     (user_update_throws B id updates = true →
        (∃ msg, fst run = Throw msg) ∧
        currentUser (snd run) = Some cur ∧ heard (snd run) = heard s) ∧
     (user_update_throws B id updates = false →
        ∃ updated,
          fst run = Ok updated ∧ currentUser (snd run) = Some updated ∧
          u_updatedAt updated = now ∧
          (up_id updates = None → u_id updated = u_id cur) ∧
          (∀ v, up_id updates = Some v → u_id updated = v) ∧
          (up_email updates = None → u_email updated = u_email cur) ∧
          (∀ v, up_email updates = Some v → u_email updated = v) ∧
          (up_userHandle updates = None → u_userHandle updated = u_userHandle cur) ∧
          (∀ v, up_userHandle updates = Some v → u_userHandle updated = v) ∧
          (up_avatarUrl updates = None → u_avatarUrl updated = u_avatarUrl cur) ∧
          (∀ v, up_avatarUrl updates = Some v → u_avatarUrl updated = v) ∧
          (up_bio updates = None → u_bio updated = u_bio cur) ∧
          (∀ v, up_bio updates = Some v → u_bio updated = v) ∧
          (up_steamId updates = None → u_steamId updated = u_steamId cur) ∧
          (∀ v, up_steamId updates = Some v → u_steamId updated = v) ∧
          (up_steamPersonaName updates = None → u_steamPersonaName updated = u_steamPersonaName cur) ∧
          (∀ v, up_steamPersonaName updates = Some v → u_steamPersonaName updated = v) ∧
          (up_steamProfileUrl updates = None → u_steamProfileUrl updated = u_steamProfileUrl cur) ∧
          (∀ v, up_steamProfileUrl updates = Some v → u_steamProfileUrl updated = v) ∧
          (up_steamAvatarUrl updates = None → u_steamAvatarUrl updated = u_steamAvatarUrl cur) ∧
          (∀ v, up_steamAvatarUrl updates = Some v → u_steamAvatarUrl updated = v) ∧
          (up_steamConnected updates = None → u_steamConnected updated = u_steamConnected cur) ∧
          (∀ v, up_steamConnected updates = Some v → u_steamConnected updated = v) ∧
          (up_createdAt updates = None → u_createdAt updated = u_createdAt cur) ∧
          (∀ v, up_createdAt updates = Some v → u_createdAt updated = v) ∧
          heard (snd run)
          = heard s ++ map (λ listener,
                              (listener, {| isAuthenticated := true; user := Some updated;
                                            loading := false |}))
                           (listeners s))).
Proof.
  intros run. unfold run, updateProfile. split.
  - by intros ->.
  - intros cur Hcur. rewrite Hcur. cbv zeta.
    destruct (user_update_throws B _ updates); cbn.
    + split; [done|]. split; [done|]. split; [intros _; split; [by eexists|done]|done].
    + split; [done|]. split; [done|]. split; [done|]. intros _.
      exists (merge cur updates now). cbn.
      repeat split; try done; try (by intros ->); by intros ? ->.
Qed.

Lemma updateProfile_behaviour_witness :
  ∃ updated,
    fst (updateProfile MoreSamples.backend_up 7 MoreSamples.new_bio MoreSamples.signed_in)
      = Ok updated ∧
    u_bio updated = Some "plays at night" ∧ u_userHandle updated = "alice" ∧
    u_email updated = "alice@example.org" ∧ u_updatedAt updated = 7.
Proof.
  destruct (proj2 (proj2 (proj2 (proj2 (updateProfile_behaviour MoreSamples.backend_up 7
              MoreSamples.new_bio MoreSamples.signed_in) MoreSamples.alice eq_refl))) eq_refl)
    as (updated & Hok & _ & Hnow & _ & _ & Hemail & _ & Hhandle & _ & _ & _ & _ & Hbio & _).
  exists updated. split; [exact Hok|]. split; [|split; [|split]].
  - apply Hbio. reflexivity.
  - apply Hhandle. reflexivity.
  - apply Hemail. reflexivity.
  - exact Hnow.
Defined.

(** X27: listeners. A listener that registers is told the current state
    at once. A listener that is removed is no longer registered, however
    often it had registered, while the others stay registered in their
    order; and a notification after that tells it nothing. *)
Theorem listeners_register_and_leave listener s :
  heard (addAuthStateListener listener s) = heard s ++ [(listener, getAuthState s)] ∧
  listener ∈ listeners (addAuthStateListener listener s) ∧
  (listener ∉ listeners (removeAuthStateListener listener s)) ∧
  (∀ other, other ≠ listener →
     (other ∈ listeners (removeAuthStateListener listener s) ↔ other ∈ listeners s)) ∧
  (listeners (removeAuthStateListener listener s) `sublist_of` listeners s) ∧
  (∃ told, heard (notifyListeners (removeAuthStateListener listener s)) = heard s ++ told ∧
           Forall (λ p, fst p ≠ listener) told).
Proof.
  split; [done|]. split; [cbn; apply elem_of_app; right; apply list_elem_of_here|].
  assert (Hmem : ∀ other, other ∈ listeners (removeAuthStateListener listener s) ↔
                          other ∈ listeners s ∧ other ≠ listener).
  { intros other. cbn. rewrite !list_elem_of_In, filter_In, <- list_elem_of_In.
    by rewrite negb_true_iff, Nat.eqb_neq. }
  split; [intros Hin; by apply Hmem in Hin as [_ ?]|].
  split; [intros other Hne; rewrite Hmem; tauto|].
  split.
  - apply filter_sublist.
  - eexists. split; [reflexivity|].
    apply Forall_fmap, Forall_forall. intros other Hin. cbn.
    by apply Hmem in Hin as [_ ?].
Qed.

Lemma listeners_register_and_leave_witness :
  2%nat ∈ listeners (removeAuthStateListener 1 MoreSamples.signed_in).
Proof.
  refine (proj2 (proj1 (proj2 (proj2 (proj2 (listeners_register_and_leave 1
            MoreSamples.signed_in)))) 2%nat _) _).
  - discriminate.
  - apply list_elem_of_further, list_elem_of_here.
Defined.

End AuthProps.
